(** * RomanText to Orbital converter and ribbon mesh pass: a shallow embedding

    The development follows [romantext_to_orbital.py] and the mesh pass of
    [docs/ribbon_plot.py].

    Modelling conventions.
    - A Python [str] is a [string] of 8-bit characters (code points below
      256).  Case mapping is the ASCII one: on every test the program makes
      (membership in tables of ASCII letters) it agrees with Python's
      [str.upper] / [str.isupper] on these characters.
    - A Python [int] is a [Z].
    - A Python [float] is an exact rational [Q]: beats, durations and lengths
      are compared and subtracted, and rounding error of the binary
      representation is outside the model.  [round(x, n)] is rounding to the
      nearest multiple of [10^-n], ties to even.  The model has no infinity
      and no NaN: a statement that the builder returns is made for beats and
      lengths within [FLOAT_SAFE], where the floats of the source stay
      finite.  Where the parser multiplies or divides a float by an [int],
      the conversion of an int too large for a double raises
      [OverflowError].
    - An exception is an explicit [Raise] or [Raises] result. *)

From Stdlib Require Import ZArith QArith Qround Qabs Lia Lqa Bool List.
From Stdlib Require Import Sorted Permutation.
From Stdlib Require Import Ascii String.
Import ListNotations.

Open Scope string_scope.
Open Scope Z_scope.

(* ------------------------------------------------------------------ *)
(** * Python strings *)

Module PyStr.

Definition code (c : ascii) : N := N_of_ascii c.

(** [str.isspace] on one character of the 8-bit range. *)
Definition is_space (c : ascii) : bool :=
  let n := code c in
  ((9 <=? n) && (n <=? 13) || (28 <=? n) && (n <=? 32)
   || (n =? 133) || (n =? 160))%N.

Definition is_lower (c : ascii) : bool :=
  let n := code c in ((97 <=? n) && (n <=? 122))%N.

Definition is_upper (c : ascii) : bool :=
  let n := code c in ((65 <=? n) && (n <=? 90))%N.

Definition upper_char (c : ascii) : ascii :=
  if is_lower c then ascii_of_N (code c - 32) else c.

Fixpoint upper (s : string) : string :=
  match s with
  | EmptyString => EmptyString
  | String c s' => String (upper_char c) (upper s')
  end.

Fixpoint lstrip (s : string) : string :=
  match s with
  | EmptyString => EmptyString
  | String c s' => if is_space c then lstrip s' else s
  end.

Fixpoint rstrip (s : string) : string :=
  match s with
  | EmptyString => EmptyString
  | String c s' =>
      match rstrip s' with
      | EmptyString => if is_space c then EmptyString else String c EmptyString
      | r => String c r
      end
  end.

(** [s.strip()] *)
Definition strip (s : string) : string := rstrip (lstrip s).

(** [s[:n]] for [0 <= n] *)
Fixpoint take (n : nat) (s : string) : string :=
  match n, s with
  | S n', String c s' => String c (take n' s')
  | _, _ => EmptyString
  end.

(** [s[n:]] for [0 <= n] *)
Fixpoint drop (n : nat) (s : string) : string :=
  match n, s with
  | S n', String _ s' => drop n' s'
  | _, _ => s
  end.

(** [s.index(c)], [None] when [c not in s] *)
Fixpoint index_of (c : ascii) (s : string) : option nat :=
  match s with
  | EmptyString => None
  | String d s' =>
      if Ascii.eqb d c then Some O
      else match index_of c s' with
           | Some i => Some (S i)
           | None => None
           end
  end.

(** [s.startswith(p)] *)
Fixpoint startswith (s p : string) {struct p} : bool :=
  match p with
  | EmptyString => true
  | String b p' =>
      match s with
      | EmptyString => false
      | String a s' => Ascii.eqb a b && startswith s' p'
      end
  end.

(** [s in (t1, t2, ...)] *)
Definition str_in (s : string) (ts : list string) : bool :=
  existsb (String.eqb s) ts.

(** [c in (c1, c2, ...)] for one-character strings *)
Definition chr_in (c : ascii) (cs : list ascii) : bool :=
  existsb (Ascii.eqb c) cs.

(** [s[i]] *)
Definition at_ (s : string) (i : nat) : option ascii := String.get i s.

(** The double-quote character *)
Definition dquote : ascii := ascii_of_N 34.

Definition hex_digit (n : N) : ascii :=
  (if n <? 10 then ascii_of_N (48 + n) else ascii_of_N (87 + n))%N.

Definition is_printable (c : ascii) : bool :=
  let n := code c in
  ((32 <=? n) && (n <=? 126) || (161 <=? n) && negb (n =? 173))%N.

Fixpoint contains (c : ascii) (s : string) : bool :=
  match s with
  | EmptyString => false
  | String d s' => Ascii.eqb d c || contains c s'
  end.

Fixpoint repr_body (q : ascii) (s : string) : string :=
  match s with
  | EmptyString => EmptyString
  | String c s' =>
      let rest := repr_body q s' in
      if Ascii.eqb c q || Ascii.eqb c "\"
      then String "\" (String c rest)
      else if (code c =? 9)%N then String "\" (String "t" rest)
      else if (code c =? 10)%N then String "\" (String "n" rest)
      else if (code c =? 13)%N then String "\" (String "r" rest)
      else if is_printable c then String c rest
      else String "\" (String "x"
             (String (hex_digit (code c / 16))
                (String (hex_digit (code c mod 16)) rest)))
  end.

(** [repr(s)], the [!r] conversion of an f-string *)
Definition repr (s : string) : string :=
  let q : ascii :=
    if contains "'" s && negb (contains dquote s) then dquote
    else "'"%char in
  String q (repr_body q s ++ String q EmptyString).

End PyStr.

(* ------------------------------------------------------------------ *)
(** * Exceptions *)

Inductive exn : Type := TypeError | IndexError.

Inductive result (A : Type) : Type :=
| Ok (a : A)
| Raise (e : exn).
Arguments Ok {A} a.
Arguments Raise {A} e.

Definition bind {A B : Type} (m : result A) (k : A -> result B) : result B :=
  match m with
  | Ok a => k a
  | Raise e => Raise e
  end.

Notation "x <- m ;; k" := (bind m (fun x => k))
  (at level 61, m at next level, right associativity).

(* ------------------------------------------------------------------ *)
(** * Pitch helpers *)

Fixpoint assoc {V : Type} (k : string) (d : list (string * V)) : option V :=
  match d with
  | [] => None
  | (k', v) :: d' => if String.eqb k k' then Some v else assoc k d'
  end.

Definition chr (c : ascii) : string := String c EmptyString.

Definition PC_TO_SEMI : list (string * Z) :=
  [("C", 0); ("D", 2); ("E", 4); ("F", 5); ("G", 7); ("A", 9); ("B", 11)].
Definition MAJOR_INTERVALS : list Z := [0; 2; 4; 5; 7; 9; 11].
Definition MINOR_INTERVALS : list Z := [0; 2; 3; 5; 7; 8; 10].
Definition SEMI_TO_PC : list string :=
  ["C"; "Db"; "D"; "Eb"; "E"; "F"; "F#"; "G"; "Ab"; "A"; "Bb"; "B"].
Definition NUMERAL_TO_DEGREE : list (string * Z) :=
  [("I", 0); ("II", 1); ("III", 2); ("IV", 3); ("V", 4); ("VI", 5); ("VII", 6)].

(** The loop [for ch in s[1:]] of [parse_pitch_class]. *)
Fixpoint accidentals (semi : Z) (s : string) : Z :=
  match s with
  | EmptyString => semi
  | String ch s' =>
      if Ascii.eqb ch "#" then accidentals (semi + 1) s'
      else if Ascii.eqb ch "b" then accidentals (semi - 1) s'
      else accidentals semi s'
  end.

Definition parse_pitch_class (s : string) : option Z :=
  match PyStr.strip s with
  | EmptyString => None
  | String c rest =>
      match assoc (chr (PyStr.upper_char c)) PC_TO_SEMI with
      | None => None
      | Some semi => Some (accidentals semi rest mod 12)
      end
  end.

Definition scale_semitones (root_semi : Z) (scale : string) : list Z :=
  let intervals :=
    if String.eqb scale "major" then MAJOR_INTERVALS else MINOR_INTERVALS in
  map (fun i => (root_semi + i) mod 12) intervals.

(* ------------------------------------------------------------------ *)
(** * Data types *)

Record KeyState : Type := mkKey { root : string; scale : string }.

Definition semitone (k : KeyState) : option Z := parse_pitch_class (root k).

(** [KeyState.__eq__] *)
Definition key_eq (a b : KeyState) : bool :=
  String.eqb (root a) (root b) && String.eqb (scale a) (scale b).

Record RawEvent : Type := mkEvent {
  beat : Q;
  measure : Z;
  roman : string;
  key : KeyState
}.

(* ------------------------------------------------------------------ *)
(** * RomanText parser: key tokens *)

Definition parse_key_str (s : string) : option KeyState :=
  match PyStr.strip s with
  | EmptyString => None
  | String c rest =>
      match assoc (chr (PyStr.upper_char c)) PC_TO_SEMI with
      | None => None
      | Some _ =>
          let scale := if PyStr.is_upper c then "major" else "minor" in
          Some (mkKey (String (PyStr.upper_char c) rest) scale)
      end
  end.

Definition looks_like_chord (token : string) : bool :=
  match token with
  | EmptyString => false
  | String c _ =>
      if PyStr.str_in token
           ["N"; "N6"; "It6"; "Ger6/5"; "Ger7"; "Fr4/3"; "Fr6"; "vo"; "vo6"]
      then true
      else PyStr.chr_in c ["I"; "i"; "V"; "v"; "b"; "#"]%char
  end.

(* ------------------------------------------------------------------ *)
(** * Applied chord resolution *)

(** The bracket-annotation step of [is_supported_roman]:
    [if '[' in s: s = s[:s.index('[')].strip()]. *)
Definition strip_annotation (s : string) : string :=
  match PyStr.index_of "[" s with
  | Some i => PyStr.strip (PyStr.take i s)
  | None => s
  end.

Definition AUG_SIXTHS : list string :=
  ["It6"; "Ger6/5"; "Ger7"; "Fr4/3"; "Fr6"].

Definition is_supported_roman (s0 : string) : bool :=
  match s0 with
  | EmptyString => false
  | _ =>
      let s := strip_annotation s0 in
      match s with
      | EmptyString => false
      | String c0 _ =>
          if PyStr.startswith s "N" then PyStr.str_in s ["N"; "N6"]
          else if PyStr.startswith s "It" || PyStr.startswith s "Ger"
                  || PyStr.startswith s "Fr"
          then PyStr.str_in s AUG_SIXTHS
          else if PyStr.chr_in c0 ["b"; "#"]%char
          then (1 <? String.length s)%nat &&
               match PyStr.at_ s 1 with
               | Some c1 => PyStr.chr_in (PyStr.upper_char c1) ["I"; "V"]%char
               | None => false
               end
          else PyStr.chr_in c0 ["I"; "i"; "V"; "v"]%char
      end
  end.

Definition _skip_reason (s : string) : string :=
  if PyStr.startswith s "N" && negb (PyStr.str_in s ["N"; "N6"])
  then "extended Neapolitan " ++ PyStr.repr s
       ++ " (only N and N6 are supported)"
  else if (PyStr.startswith s "It" || PyStr.startswith s "Ger"
           || PyStr.startswith s "Fr")
          && negb (PyStr.str_in s AUG_SIXTHS)
  then "unrecognized augmented-sixth variant " ++ PyStr.repr s
  else "unrecognized chord symbol " ++ PyStr.repr s.

(** The loop of [tonicize] that collects the leading [I]/[V] characters. *)
Fixpoint numeral_run (s : string) : string :=
  match s with
  | EmptyString => EmptyString
  | String c s' =>
      if PyStr.chr_in c ["I"; "V"]%char then String c (numeral_run s')
      else EmptyString
  end.

(** The prefix step of [tonicize]: the semitone offset and the remaining
    target. *)
Definition strip_accidental (target_roman : string) : Z * string :=
  if PyStr.startswith target_roman "b" then (-1, PyStr.drop 1 target_roman)
  else if PyStr.startswith target_roman "#" then (1, PyStr.drop 1 target_roman)
  else (0, target_roman).

Definition tonicize (key : KeyState) (target_roman : string)
  : result KeyState :=
  let '(semitone_offset, target) := strip_accidental target_roman in
  match target with
  | EmptyString => Ok key
  | String t0 _ =>
      let target_scale := if PyStr.is_upper t0 then "major" else "minor" in
      let numeral := numeral_run (PyStr.upper target) in
      match assoc numeral NUMERAL_TO_DEGREE with
      | None => Ok key
      | Some degree_idx =>
          match semitone key with
          | None => Raise TypeError
          | Some root_semi =>
              let semis := scale_semitones root_semi (scale key) in
              match nth_error semis (Z.to_nat degree_idx) with
              | None => Ok key
              | Some s =>
                  let target_semi := (s + semitone_offset) mod 12 in
                  match nth_error SEMI_TO_PC (Z.to_nat target_semi) with
                  | None => Raise IndexError
                  | Some target_root => Ok (mkKey target_root target_scale)
                  end
              end
          end
      end
  end.

Definition TARGET_START : list ascii := ["I"; "i"; "V"; "v"; "b"; "#"]%char.

(** The test made at one position of the scan of [resolve_applied]. *)
Definition is_delimiter (roman : string) (pos : nat) : bool :=
  match PyStr.at_ roman pos with
  | Some c =>
      Ascii.eqb c "/" && (pos + 1 <? String.length roman)%nat &&
      match PyStr.at_ roman (pos + 1) with
      | Some after => PyStr.chr_in after TARGET_START
      | None => false
      end
  | None => false
  end.

(** [for pos in range(start, 0, -1)]: positions [start], [start - 1], ..., [1]. *)
Fixpoint scan_delimiter (roman : string) (start : nat) : option nat :=
  match start with
  | O => None
  | S p => if is_delimiter roman start then Some start
           else scan_delimiter roman p
  end.

Definition resolve_applied (roman : string) (key : KeyState)
  : result (string * KeyState) :=
  match scan_delimiter roman (String.length roman - 1) with
  | None => Ok (roman, key)
  | Some idx =>
      let chord_part := PyStr.take idx roman in
      let target_part := PyStr.drop (idx + 1) roman in
      new_key <- tonicize key target_part ;;
      Ok (chord_part, new_key)
  end.

Definition CMajor : KeyState := mkKey "C" "major".

(* ------------------------------------------------------------------ *)
(** * Numbers *)

Open Scope Q_scope.

Definition Qltb (a b : Q) : bool := negb (Qle_bool b a).

(** [max(a, b)]: the first argument unless the second is greater. *)
Definition py_max (a b : Q) : Q := if Qltb a b then b else a.

(** Nearest integer, ties to even. *)
Definition round_half_even (x : Q) : Z :=
  let f := Qfloor x in
  match ((x - inject_Z f) ?= (1 # 2))%Q with
  | Lt => f
  | Gt => (f + 1)%Z
  | Eq => if Z.even f then f else (f + 1)%Z
  end.

Fixpoint pow10 (n : nat) : positive :=
  match n with
  | O => 1%positive
  | S n' => (10 * pow10 n')%positive
  end.

(** [round(x, n)] for [n >= 0] *)
Definition py_round (x : Q) (n : nat) : Q :=
  round_half_even (x * inject_Z (Zpos (pow10 n))) # pow10 n.

(** [int(x)]: truncation toward zero *)
Definition py_int (x : Q) : Z := Z.quot (Qnum x) (Zpos (Qden x)).

(** A JSON number: a Python [int] or a Python [float]. *)
Inductive num : Type :=
| Int (z : Z)
| Float (q : Q).

Definition num_val (n : num) : Q :=
  match n with
  | Int z => inject_Z z
  | Float q => q
  end.

(** [int(x) if x == int(x) else x] *)
Definition int_if_whole (x : Q) : num :=
  if Qeq_bool x (inject_Z (py_int x)) then Int (py_int x) else Float x.

(** [sorted(set(l))] on floats: ascending, one representative per value. *)
Fixpoint insert_uniq (x : Q) (l : list Q) : list Q :=
  match l with
  | [] => [x]
  | y :: l' =>
      match x ?= y with
      | Lt => x :: l
      | Eq => l
      | Gt => y :: insert_uniq x l'
      end
  end.

Definition sorted_set (l : list Q) : list Q := fold_right insert_uniq [] l.

(* ------------------------------------------------------------------ *)
(** * The Orbital document *)

Inductive ChordEvent : Type :=
| SetKey (ev_beat : num) (ev_root ev_scale : string)
| SetRoman (ev_beat : num) (ev_roman : string)
| SetChord (ev_beat : num) (degrees : list Z) (inversion : Z).

Inductive Note : Type :=
| CurrentChord (durationBeats : num)
| ChordTone (index : Z) (durationBeats : num).

Definition note_duration (n : Note) : num :=
  match n with
  | CurrentChord d => d
  | ChordTone _ d => d
  end.

Record Track : Type := mkTrack {
  track_name : string;
  presetFilename : string;
  numVoices : Z;
  track_octave : Z;
  voicing : string;
  sustainFraction : Q;
  notes : list Note
}.

Record ScoreTracks : Type := mkScore {
  bpm : Q;
  totalBeats : num;
  loop : bool;
  score_key : KeyState;
  chordEvents : list ChordEvent;
  tracks : list Track
}.

Record OrbitalDoc : Type := mkDoc {
  name : string;
  scoreTracks : ScoreTracks
}.

(** A line printed on the error stream by the builder:
    [Warning: m<measure>: skipping "<roman>" - <reason>]. *)
Record Warning : Type := mkWarning {
  w_measure : Z;
  w_roman : string;
  w_reason : string
}.

(* ------------------------------------------------------------------ *)
(** * Build Orbital JSON *)

Definition _empty_json (title : string) (initial_key : KeyState) (bpm : Q)
    (loop : bool) (preset : string) (bass_preset : option string)
    (octave voices : Z) (sustain total_beats : Q) : OrbitalDoc :=
  mkDoc title
    (mkScore bpm
       (Float (py_max (py_round total_beats 1) 4))
       loop
       (mkKey (root initial_key) (scale initial_key))
       [SetChord (Int 0) [0; 2; 4]%Z 0%Z]
       []).

Fixpoint last_opt {A : Type} (l : list A) : option A :=
  match l with
  | [] => None
  | [a] => Some a
  | _ :: l' => last_opt l'
  end.

(** [abs(a - b) < 1e-9] *)
Definition same_beat (a b : Q) : bool := Qltb (Qabs (a - b)) (1 # 1000000000).

(** One iteration of the pivot-chord loop. *)
Definition dedup_step (deduped : list RawEvent) (ev : RawEvent)
  : list RawEvent :=
  match last_opt deduped with
  | Some p =>
      if same_beat (beat p) (beat ev) then removelast deduped ++ [ev]
      else deduped ++ [ev]
  | None => deduped ++ [ev]
  end.

Definition dedup (events : list RawEvent) : list RawEvent :=
  fold_left dedup_step events [].

Definition shift_event (shift : Q) (e : RawEvent) : RawEvent :=
  mkEvent (beat e - shift) (measure e) (roman e) (key e).

(** The shift to beat 0 and the floor of the length at one beat: the events
    and the total length after them.  [deduped[0]] raises on an empty list. *)
Definition shift_to_zero (deduped : list RawEvent) (total_beats : Q)
  : result (list RawEvent * Q) :=
  match deduped with
  | [] => Raise IndexError
  | e0 :: _ =>
      let shift := beat e0 in
      if Qltb (1 # 1000000000) (Qabs shift)
      then Ok (map (shift_event shift) deduped, py_max (total_beats - shift) 1)
      else Ok (deduped, py_max total_beats 1)
  end.

Definition supported_events (deduped : list RawEvent) : list RawEvent :=
  filter (fun e => is_supported_roman (roman e)) deduped.

Definition skip_warnings (deduped : list RawEvent) : list Warning :=
  map (fun e => mkWarning (measure e) (roman e) (_skip_reason (roman e)))
    (filter (fun e => negb (is_supported_roman (roman e))) deduped).

(** One iteration of [for i in range(1, len(deduped))]. *)
Definition short_step (deduped : list RawEvent) (total_beats min_duration : Q)
    (filtered : list RawEvent) (i : nat) : list RawEvent :=
  match nth_error deduped i with
  | None => filtered
  | Some ev =>
      let next_beat :=
        if (i + 1 <? List.length deduped)%nat
        then match nth_error deduped (i + 1) with
             | Some nx => beat nx
             | None => total_beats
             end
        else total_beats in
      let duration := next_beat - beat ev in
      if Qle_bool min_duration duration then filtered ++ [ev] else filtered
  end.

Definition drop_short (deduped : list RawEvent) (total_beats min_duration : Q)
  : list RawEvent :=
  if Qltb 0 min_duration && (1 <? List.length deduped)%nat
  then fold_left (short_step deduped total_beats min_duration)
         (seq 1 (List.length deduped - 1))
         (match deduped with e0 :: _ => [e0] | [] => [] end)
  else deduped.

(** One iteration of the loop that emits [chordEvents]; the state is
    [prev_key] and the list emitted so far. *)
Definition emit_step (st : KeyState * list ChordEvent) (ev : RawEvent)
  : result (KeyState * list ChordEvent) :=
  let '(prev_key, chord_events_json) := st in
  let beat_val := int_if_whole (py_round (beat ev) 6) in
  r <- resolve_applied (roman ev) (key ev) ;;
  let '(chord_roman, resolved_key) := r in
  if negb (key_eq resolved_key prev_key)
  then Ok (resolved_key,
           (chord_events_json
              ++ [SetKey beat_val (root resolved_key) (scale resolved_key)]
              ++ [SetRoman beat_val chord_roman])%list)
  else Ok (prev_key, (chord_events_json ++ [SetRoman beat_val chord_roman])%list).

Fixpoint emit_loop (st : KeyState * list ChordEvent) (evs : list RawEvent)
  : result (KeyState * list ChordEvent) :=
  match evs with
  | [] => Ok st
  | ev :: evs' => st' <- emit_step st ev ;; emit_loop st' evs'
  end.

Definition emit_chord_events (initial_key : KeyState) (deduped : list RawEvent)
  : result (list ChordEvent) :=
  st <- emit_loop (initial_key, []) deduped ;; Ok (snd st).

(** [event_beats] after both [sorted(set(...))] passes. *)
Definition event_beats (deduped : list RawEvent) (total_beats : Q) : list Q :=
  sorted_set
    (sorted_set (map (fun e => py_round (beat e) 6) deduped)
       ++ [py_round total_beats 6]).

(** The loop over consecutive pairs [event_beats[i]], [event_beats[i + 1]]. *)
Fixpoint gaps (event_beats : list Q) : list num :=
  match event_beats with
  | a :: (b :: _) as rest =>
      let dur := py_round (b - a) 6 in
      if Qltb 0 dur then int_if_whole dur :: gaps rest else gaps rest
  | _ => []
  end.

Definition note_durations (deduped : list RawEvent) (total_beats : Q)
  : list num :=
  match gaps (event_beats deduped total_beats) with
  | [] => [Float (py_round total_beats 6)]
  | ds => ds
  end.

Definition total_beats_val (total_beats : Q) : num :=
  int_if_whole (py_round total_beats 6).

Definition build_tracks (preset : string) (bass_preset : option string)
    (octave voices : Z) (sustain : Q) (note_durations : list num)
  : list Track :=
  let chords :=
    mkTrack "Chords" preset voices octave "open" sustain
      (map CurrentChord note_durations) in
  match bass_preset with
  | Some (String _ _ as bp) =>
      [chords;
       mkTrack "Bass" bp 2 (octave - 1) "closed" (7 # 10)
         (map (ChordTone 0) note_durations)]
  | _ => [chords]
  end.

Definition build_orbital_json (title : string) (initial_key : KeyState)
    (events : list RawEvent) (total_beats bpm : Q) (loop : bool)
    (preset : string) (bass_preset : option string) (octave voices : Z)
    (sustain min_duration : Q) : result (list Warning * OrbitalDoc) :=
  match events with
  | [] => Ok ([], _empty_json title initial_key bpm loop preset bass_preset
                    octave voices sustain total_beats)
  | _ =>
      sh <- shift_to_zero (dedup events) total_beats ;;
      let '(shifted, total_beats) := sh in
      let warnings := skip_warnings shifted in
      match supported_events shifted with
      | [] => Ok (warnings,
                  _empty_json title initial_key bpm loop preset bass_preset
                    octave voices sustain total_beats)
      | supported =>
          let deduped := drop_short supported total_beats min_duration in
          chord_events_json <- emit_chord_events initial_key deduped ;;
          let durations := note_durations deduped total_beats in
          Ok (warnings,
              mkDoc title
                (mkScore bpm (total_beats_val total_beats) loop
                   (mkKey (root initial_key) (scale initial_key))
                   chord_events_json
                   (build_tracks preset bass_preset octave voices sustain
                      durations)))
      end
  end.

(* ------------------------------------------------------------------ *)
(** * Filter helpers *)

Definition in_range (start_m end_m : Z) (e : RawEvent) : bool :=
  ((start_m <=? measure e) && (measure e <=? end_m))%Z.

(** [filtered[-2]] of a list with at least two elements. *)
Definition last2_opt {A : Type} (l : list A) : option A :=
  last_opt (removelast l).

(** The parameter [form_sections] of the source is not used by the function
    and is left out. *)
Definition filter_by_measures (events : list RawEvent) (start_m end_m : Z)
    (total_beats : Q) : list RawEvent * Q :=
  let filtered := filter (in_range start_m end_m) events in
  match filtered, last_opt filtered with
  | first :: _, Some lst =>
      let clip_start := beat first in
      let clip_end := beat lst in
      let last_dur :=
        match (2 <=? List.length filtered)%nat, last2_opt filtered with
        | true, Some prev => beat lst - beat prev
        | _, _ => 4
        end in
      (filtered, clip_end + last_dur - clip_start)
  | _, _ => (events, total_beats)
  end.

(* ------------------------------------------------------------------ *)
(** * Ribbon generator: quad mesh and painter's sort

    The script computes with numpy floats.  The numeric boundary (the
    constant pi and the functions cos, sin, arctan2, sqrt) is a parameter of
    the section; coordinates are rationals. *)

Module Ribbon.
Section Mesh.

Variable np_pi : Q.
Variables np_cos np_sin np_sqrt : Q -> Q.
Variable np_arctan2 : Q -> Q -> Q.

Definition point : Type := (Q * Q * Q)%type.
Definition px_ (p : point) : Q := fst (fst p).
Definition py_ (p : point) : Q := snd (fst p).
Definition pz_ (p : point) : Q := snd p.

Definition radius : Q := 4.
Definition width : Q := 4 # 10.
Definition n_theta : nat := 300.
Definition n_x : nat := 20.

(** [np.linspace(a, b, n)[i]] *)
Definition linspace (a b : Q) (n i : nat) : Q :=
  a + inject_Z (Z.of_nat i) * ((b - a) / inject_Z (Z.of_nat (n - 1))).

Definition theta (j : nat) : Q := linspace 0 (2 * np_pi) n_theta j.
Definition xs (i : nat) : Q := linspace (- width / 2) (width / 2) n_x i.

Definition cam : point := (0, 0, (9375 # 10000) * radius).
Definition fov_h : Q := 160.
Definition fov_v : Q := 120.
Definition img_w : Q := 1600.
Definition img_h : Q := 1000.

Definition np_radians (deg : Q) : Q := deg * np_pi / 180.

Definition psub (p q : point) : point :=
  (px_ p - px_ q, py_ p - py_ q, pz_ p - pz_ q).

(** [np.linalg.norm] of a 3-vector *)
Definition np_norm (d : point) : Q :=
  np_sqrt (px_ d * px_ d + py_ d * py_ d + pz_ d * pz_ d).

Definition project (p : point) : Q * Q :=
  let d := psub p cam in
  let az := np_arctan2 (px_ d) (py_ d) in
  let el := np_arctan2 (pz_ d) (np_sqrt (px_ d * px_ d + py_ d * py_ d)) in
  let px := (az / np_radians (fov_h / 2) * (1 # 2) + (1 # 2)) * img_w in
  let py := ((1 # 2) - el / np_radians (fov_v / 2) * (1 # 2)) * img_h in
  (px, py).

(** The four corners of the quad of cell [(i, j)]. *)
Definition corners_3d (i j : nat) : list point :=
  map (fun d : nat * nat =>
         let t := theta (j + snd d) in
         let x := xs (i + fst d) in
         (x, radius * np_cos t, radius * np_sin t))
    [(0, 0); (1, 0); (1, 1); (0, 1)]%nat.

(** [max(ys)] of a non-empty list *)
Definition max_list (ys : list Q) : Q :=
  match ys with
  | [] => 0
  | y :: ys' => fold_left py_max ys' y
  end.

(** [np.mean] *)
Definition np_mean (l : list Q) : Q :=
  fold_left Qplus l 0 / inject_Z (Z.of_nat (List.length l)).

(** The projection loop of one quad: [None] when a corner is not valid. *)
Fixpoint project_corners (cs : list point) : option (list (Q * Q)) :=
  match cs with
  | [] => Some []
  | c :: cs' =>
      if Qltb (py_ c) (1 # 100) then None
      else match project_corners cs' with
           | Some r => Some (project c :: r)
           | None => None
           end
  end.

(** The three parallel lists built by the mesh loop. *)
Record mesh : Type := mkMesh {
  quads : list (list (Q * Q));
  colors : list Q;
  depths : list Q
}.

(** The body of the inner loop for cell [(i, j)]. *)
Definition mesh_step (m : mesh) (ij : nat * nat) : mesh :=
  let '(i, j) := ij in
  let cs := corners_3d i j in
  let ys := map py_ cs in
  if Qltb (max_list ys) (5 # 100) then m
  else match project_corners cs with
       | None => m
       | Some corners_2d =>
           let avg_theta := (theta j + theta (j + 1)) / 2 in
           let avg_depth := np_mean (map (fun c => np_norm (psub c cam)) cs) in
           mkMesh (quads m ++ [corners_2d]) (colors m ++ [avg_theta])
             (depths m ++ [avg_depth])
       end.

(** [for i in range(n_x - 1): for j in range(n_theta - 1)] *)
Definition cells : list (nat * nat) :=
  flat_map (fun i => map (fun j => (i, j)) (seq 0 (n_theta - 1)))
    (seq 0 (n_x - 1)).

Definition build_mesh : mesh := fold_left mesh_step cells (mkMesh [] [] []).

(** [np.argsort(depths)]: the indices of [depths] in ascending order of
    value.  numpy leaves the order of equal values open; here they keep
    their order. *)
Fixpoint insert_idx (d : list Q) (i : nat) (l : list nat) : list nat :=
  match l with
  | [] => [i]
  | k :: l' =>
      if Qltb (nth i d 0) (nth k d 0) then i :: l
      else k :: insert_idx d i l'
  end.

Definition np_argsort (d : list Q) : list nat :=
  fold_left (fun acc i => insert_idx d i acc) (seq 0 (List.length d)) [].

(** [order = np.argsort(depths)[::-1]] *)
Definition order : list nat := rev (np_argsort (depths build_mesh)).

(** [quads = [quads[i] for i in order]] *)
Definition draw_list : list (list (Q * Q)) :=
  map (fun i => nth i (quads build_mesh) []) order.

(** Vocabulary of the statements about the mesh pass. *)

(** The value at index [a] is at most the value at index [b]. *)
Definition le_at (d : list Q) (a b : nat) : Prop := nth a d 0 <= nth b d 0.

(** A corner passes the test of the projection loop. *)
Definition corner_ok (c : point) : bool := negb (Qltb (py_ c) (1 # 100)).

(** The quad of a cell passes both tests of the loop body. *)
Definition quad_kept (ij : nat * nat) : bool :=
  let cs := corners_3d (fst ij) (snd ij) in
  negb (Qltb (max_list (map py_ cs)) (5 # 100)) && forallb corner_ok cs.

Definition kept_cells : list (nat * nat) := filter quad_kept cells.

Definition quad_2d (ij : nat * nat) : list (Q * Q) :=
  map project (corners_3d (fst ij) (snd ij)).

Definition quad_color (ij : nat * nat) : Q :=
  (theta (snd ij) + theta (snd ij + 1)) / 2.

Definition quad_depth (ij : nat * nat) : Q :=
  np_mean (map (fun c => np_norm (psub c cam)) (corners_3d (fst ij) (snd ij))).

End Mesh.
End Ribbon.

(* ------------------------------------------------------------------ *)
(** * Vocabulary of the statements *)

(** The letters that start a pitch class: the keys of [PC_TO_SEMI]. *)
Definition PITCH_LETTERS : list ascii := ["C"; "D"; "E"; "F"; "G"; "A"; "B"]%char.

(** Position [idx] of [roman] holds a ['/'] immediately followed by a
    character that can start a target key. *)
Definition delimiter_at (roman : string) (idx : nat) : Prop :=
  PyStr.at_ roman idx = Some "/"%char /\
  exists after,
    PyStr.at_ roman (idx + 1) = Some after /\
    In after ["I"; "i"; "V"; "v"; "b"; "#"]%char.

(** [idx] is the rightmost position of [roman], among those from [lo] on,
    that holds such a delimiter. *)
Definition rightmost_delimiter (lo : nat) (roman : string) (idx : nat) : Prop :=
  (lo <= idx)%nat /\ delimiter_at roman idx /\
  forall j, (idx < j)%nat -> ~ delimiter_at roman j.

(** The result of splitting [roman] at position [idx]. *)
Definition split_at (roman : string) (key : KeyState) (idx : nat)
  : result (string * KeyState) :=
  new_key <- tonicize key (PyStr.drop (idx + 1) roman) ;;
  Ok (PyStr.take idx roman, new_key).

(** The interval table that [scale_semitones] selects. *)
Definition intervals_of (scale : string) : list Z :=
  if String.eqb scale "major" then MAJOR_INTERVALS else MINOR_INTERVALS.

(** [target] is [rest] behind at most one leading accidental of offset
    [off]. *)
Definition accidental_split (target : string) (off : Z) (rest : string) : Prop :=
  (target = String "b" rest /\ off = (-1)%Z) \/
  (target = String "#" rest /\ off = 1%Z) \/
  (target = rest /\ off = 0%Z /\
   PyStr.startswith target "b" = false /\ PyStr.startswith target "#" = false).

(** A chord symbol: a string that the parser takes as a chord token, or that
    the builder lets through to [resolve_applied]. *)
Definition chord_symbol (s : string) : Prop :=
  looks_like_chord s = true \/ is_supported_roman s = true.

(** The letters of a numeral run, in either case. *)
Definition numeral_letter (c : ascii) : Prop := In c ["I"; "i"; "V"; "v"]%char.

(** [run] is the leading run of numeral letters of [s], and [tail] what
    follows it. *)
Definition leading_run (s run tail : string) : Prop :=
  s = (run ++ tail)%string /\
  (forall i c, String.get i run = Some c -> numeral_letter c) /\
  (forall c, String.get 0 tail = Some c -> ~ numeral_letter c).

(** A run of numeral letters with i and v written as I and V. *)
Definition fold_letter (c : ascii) : ascii :=
  if Ascii.eqb c "i" then "I"%char
  else if Ascii.eqb c "v" then "V"%char else c.

Fixpoint fold_numeral (run : string) : string :=
  match run with
  | EmptyString => EmptyString
  | String c run' => String (fold_letter c) (fold_numeral run')
  end.

(** The beat that bounds the event at index [i] of the list [deduped] as it
    is before the short-event pass: the beat of the event at index [i + 1],
    or the total length for the last event. *)
Definition next_beat (deduped : list RawEvent) (total_beats : Q) (i : nat) : Q :=
  match nth_error deduped (i + 1) with
  | Some nx => beat nx
  | None => total_beats
  end.

Definition beat_at (deduped : list RawEvent) (i : nat) : Q :=
  match nth_error deduped i with
  | Some e => beat e
  | None => 0
  end.

(** Index [i] survives the short-event pass: it is the first index, or the
    gap to [next_beat] is at least the minimum. *)
Definition keeps (deduped : list RawEvent) (total_beats min_duration : Q)
    (i : nat) : bool :=
  (i =? 0)%nat
  || Qle_bool min_duration (next_beat deduped total_beats i - beat_at deduped i).

(** The sum of a list of numbers. *)
Definition sumQ (l : list Q) : Q := fold_right Qplus 0 l.

(** [q] is a multiple of [10^-6]. *)
Definition on_grid (q : Q) : Prop := exists z : Z, q = z # pow10 6.

(** A key whose root spells a pitch class. *)
Definition valid_key (k : KeyState) : Prop :=
  exists r, semitone k = Some r /\ (0 <= r < 12)%Z.

(** Events in ascending order of beat: what [events.sort(key=lambda e: e.beat)]
    of the parser leaves. *)
Definition beat_le (a b : RawEvent) : Prop := beat a <= beat b.

Definition sorted_by_beat (l : list RawEvent) : Prop := StronglySorted beat_le l.

(** No two neighbours of the list are within 1e-9 of each other. *)
Fixpoint spaced (l : list RawEvent) : Prop :=
  match l with
  | a :: (b :: _) as t => same_beat (beat a) (beat b) = false /\ spaced t
  | _ => True
  end.

(** The key in force after a list of chord operations, starting from
    [current]: the key of the last [setKey], if any. *)
Fixpoint final_key (current : KeyState) (ops : list ChordEvent) : KeyState :=
  match ops with
  | [] => current
  | SetKey _ r s :: ops' => final_key (mkKey r s) ops'
  | _ :: ops' => final_key current ops'
  end.

(** Reading a list of chord operations from the key [current]: each
    [setRoman] with the key that is in force when it is reached. *)
Fixpoint replay (current : KeyState) (ops : list ChordEvent)
  : list (KeyState * num * string) :=
  match ops with
  | [] => []
  | SetKey _ r s :: ops' => replay (mkKey r s) ops'
  | SetRoman b x :: ops' => (current, b, x) :: replay current ops'
  | SetChord _ _ _ :: ops' => replay current ops'
  end.

(** Every [setKey] of the list changes the key in force and is directly
    followed by a [setRoman] at the same beat; there is no [setChord]. *)
Fixpoint keyed_ok (current : KeyState) (ops : list ChordEvent) : Prop :=
  match ops with
  | [] => True
  | SetKey b r s :: ops' =>
      mkKey r s <> current /\
      (exists x rest, ops' = SetRoman b x :: rest) /\
      keyed_ok (mkKey r s) ops'
  | SetRoman _ _ :: ops' => keyed_ok current ops'
  | SetChord _ _ _ :: _ => False
  end.

(** The operations that the emitting loop adds for a list of events, front
    to back, and the key it ends with. *)
Fixpoint emitted (prev_key : KeyState) (evs : list RawEvent)
  : result (KeyState * list ChordEvent) :=
  match evs with
  | [] => Ok (prev_key, [])
  | ev :: evs' =>
      let beat_val := int_if_whole (py_round (beat ev) 6) in
      r <- resolve_applied (roman ev) (key ev) ;;
      let '(chord_roman, resolved_key) := r in
      if negb (key_eq resolved_key prev_key)
      then rest <- emitted resolved_key evs' ;;
           Ok (fst rest,
               SetKey beat_val (root resolved_key) (scale resolved_key)
               :: SetRoman beat_val chord_roman :: snd rest)
      else rest <- emitted prev_key evs' ;;
           Ok (fst rest, SetRoman beat_val chord_roman :: snd rest)
  end.

(** The tempo and the loop flag of a document. *)
Definition doc_bpm (doc : OrbitalDoc) : Q := bpm (scoreTracks doc).
Definition doc_loop (doc : OrbitalDoc) : bool := loop (scoreTracks doc).

(* ------------------------------------------------------------------ *)
(** * Section filter *)

(** [str.lower] on one character of the 8-bit range *)
Definition lower_char (c : ascii) : ascii :=
  let n := PyStr.code c in
  if ((65 <=? n) && (n <=? 90) || (192 <=? n) && (n <=? 214)
      || (216 <=? n) && (n <=? 222))%N
  then ascii_of_N (n + 32) else c.

Fixpoint lower (s : string) : string :=
  match s with
  | EmptyString => EmptyString
  | String c s' => String (lower_char c) (lower s')
  end.

(** The loop [for k in form_sections] of [filter_by_section]: the first key
    that equals the name up to case, with the list stored under it.  The
    dict is the list of its items in insertion order. *)
Fixpoint find_section (form_sections : list (string * list Z))
    (section_name : string) : option (string * list Z) :=
  match form_sections with
  | [] => None
  | (k, ms) :: rest =>
      if String.eqb (lower k) (lower section_name) then Some (k, ms)
      else find_section rest section_name
  end.

(** [e.measure in measures] *)
Definition in_measures (measures : list Z) (e : RawEvent) : bool :=
  existsb (Z.eqb (measure e)) measures.

Definition filter_by_section (events : list RawEvent) (section_name : string)
    (form_sections : list (string * list Z)) (total_beats : Q)
  : list RawEvent * Q :=
  match find_section form_sections section_name with
  | None => (events, total_beats)
  | Some (_, measures) =>
      let filtered := filter (in_measures measures) events in
      match filtered, last_opt filtered with
      | first :: _, Some lst =>
          let clip_start := beat first in
          let clip_end := beat lst in
          let last_dur :=
            match (2 <=? List.length filtered)%nat, last2_opt filtered with
            | true, Some prev => beat lst - beat prev
            | _, _ => 4
            end in
          (filtered, clip_end + last_dur - clip_start)
      | _, _ => (events, total_beats)
      end
  end.

(* ------------------------------------------------------------------ *)
(** * RomanText parser: beats and measure tokens *)

(** The exceptions of the arithmetic on time signatures and measure
    numbers. *)
Inductive arith_exn : Type := ZeroDivisionError | OverflowError.

Inductive outcome (A : Type) : Type :=
| Returns (a : A)
| Raises (e : arith_exn).
Arguments Returns {A} a.
Arguments Raises {A} e.

(** The least magnitude of an [int] that rounds to no finite double: half
    way between the largest double and [2 ** 1024]. *)
Definition INT_TOO_LARGE : Z := (2 ^ 1024 - 2 ^ 970)%Z.

(** The conversion of an [int] operand to [float] in arithmetic with a
    float: [OverflowError] for an int too large for a double. *)
Definition int_to_float (n : Z) : outcome Q :=
  if (Z.abs n <? INT_TOO_LARGE)%Z then Returns (inject_Z n)
  else Raises OverflowError.


(** [rt_beat_to_abs]: [beats_pm / ts_num] converts [ts_num] and raises
    [ZeroDivisionError] when it is 0; [(measure - 1) * beats_pm] converts
    [measure - 1]. *)
Definition rt_beat_to_abs (rt_beat : Q) (measure : Z) (beats_pm : Q)
    (ts_num : Z) : outcome Q :=
  match int_to_float ts_num with
  | Raises e => Raises e
  | Returns t =>
      if (ts_num =? 0)%Z then Raises ZeroDivisionError
      else
        let beat_dur := beats_pm / t in
        match int_to_float (measure - 1) with
        | Raises e => Raises e
        | Returns m1 => Returns (m1 * beats_pm + (rt_beat - 1) * beat_dur)
        end
  end.

(** [body.split()]: the maximal runs of characters that are not white
    space. *)
Fixpoint split_ws (s : string) : list string :=
  match s with
  | EmptyString => []
  | String c s' =>
      if PyStr.is_space c then split_ws s'
      else match s' with
           | EmptyString => [chr c]
           | String c' _ =>
               if PyStr.is_space c' then chr c :: split_ws s'
               else match split_ws s' with
                    | w :: ws => String c w :: ws
                    | [] => [chr c]
                    end
           end
  end.

(** [\d] on the 8-bit range *)
Definition is_digit (c : ascii) : bool :=
  let n := PyStr.code c in ((48 <=? n) && (n <=? 57))%N.

(** The longest prefix of characters that satisfy [p], and what follows. *)
Fixpoint span (p : ascii -> bool) (s : string) : string * string :=
  match s with
  | EmptyString => (EmptyString, EmptyString)
  | String c s' =>
      if p c then let '(a, b) := span p s' in (String c a, b)
      else (EmptyString, s)
  end.

(** The value of a string of decimal digits, after the value [acc] of the
    digits before it. *)
Fixpoint digits_value (acc : Z) (s : string) : Z :=
  match s with
  | EmptyString => acc
  | String c s' =>
      digits_value (10 * acc + Z.of_N (PyStr.code c - 48)) s'
  end.

(** [float(i + "." + f)] for digit strings [i] and [f] *)
Definition decimal_value (i f : string) : Q :=
  digits_value 0 (i ++ f) # pow10 (String.length f).

(** [BEAT_RE]: a [b], digits, and optionally a dot and digits, up to the end
    of the token; the value of group 1 as a float. *)
Definition match_beat (token : string) : option Q :=
  match token with
  | String c rest =>
      if Ascii.eqb c "b" then
        let '(d1, r1) := span is_digit rest in
        match d1, r1 with
        | EmptyString, _ => None
        | _, EmptyString => Some (decimal_value d1 EmptyString)
        | _, String dot r2 =>
            if Ascii.eqb dot "." then
              let '(d2, r3) := span is_digit r2 in
              match d2, r3 with
              | String _ _, EmptyString => Some (decimal_value d1 d2)
              | _, _ => None
              end
            else None
        end
      else None
  | EmptyString => None
  end.

Definition is_key_letter (c : ascii) : bool :=
  PyStr.chr_in c
    ["A"; "B"; "C"; "D"; "E"; "F"; "G"; "a"; "b"; "c"; "d"; "e"; "f"; "g"]%char.

Definition is_accidental (c : ascii) : bool := PyStr.chr_in c ["b"; "#"]%char.

(** [KEY_PREFIX_RE] on a token of [split()]: a letter A-G or a-g, a run of
    [b] and [#], a colon, and the rest of the token; groups 1 and 2.  A token
    of [split()] holds no white space, so the white space that the pattern
    allows behind the colon is never there. *)
Definition match_key_prefix (token : string) : option (string * string) :=
  match token with
  | String c rest =>
      if is_key_letter c then
        let '(acc, r1) := span is_accidental rest in
        match r1 with
        | String colon r2 =>
            if Ascii.eqb colon ":" then Some (String c acc, r2) else None
        | EmptyString => None
        end
      else None
  | EmptyString => None
  end.

(** The typed tokens of [tokenise_measure]. *)
Inductive token : Type :=
| TBar
| TBeat (b : Q)
| TKey (k : option KeyState)
| TChord (s : string).

(** The tokens that one element of [parts] gives, together with those of the
    remainders that the loop inserts behind it.  A remainder is shorter than
    the token it comes from; [fuel] bounds the number of insertions. *)
Fixpoint tokenise_token (fuel : nat) (tok : string) : list token :=
  match fuel with
  | O => []
  | S fuel' =>
      if String.eqb tok "||" then [TBar]
      else match match_beat tok with
           | Some b => [TBeat b]
           | None =>
               match match_key_prefix tok with
               | Some (k, rem) =>
                   TKey (parse_key_str k)
                   :: match PyStr.strip rem with
                      | EmptyString => []
                      | rem' => tokenise_token fuel' rem'
                      end
               | None =>
                   if looks_like_chord tok then [TChord tok] else []
               end
           end
  end.

Definition tokenise_measure (body : string) : list token :=
  flat_map (fun tok => tokenise_token (String.length tok) tok) (split_ws body).

(** What holds of every token of a measure: a key token carries a key whose
    root spells a pitch class, and a chord token is a token that
    [looks_like_chord] accepts. *)
Definition token_ok (t : token) : Prop :=
  match t with
  | TKey k => exists key, k = Some key /\ valid_key key
  | TChord s => looks_like_chord s = true
  | _ => True
  end.

(** [range(a, b + 1)] *)
Definition measure_range (mstart mend : Z) : list Z :=
  map (fun i => (mstart + Z.of_nat i)%Z) (seq 0 (Z.to_nat (mend + 1 - mstart))).

(** The events that one chord token adds: one per measure of the range of
    the line.  [bpm_here mn] is [measure_beats_pm.get(mn, current_beats_pm)].
    An exception of [rt_beat_to_abs] ends the loop. *)
Fixpoint chord_events (measures : list Z) (rt_beat : Q) (bpm_here : Z -> Q)
    (ts_num : Z) (val : string) (key_here : KeyState)
  : outcome (list RawEvent) :=
  match measures with
  | [] => Returns []
  | mn :: rest =>
      match rt_beat_to_abs rt_beat mn (bpm_here mn) ts_num with
      | Raises e => Raises e
      | Returns abs_beat =>
          match chord_events rest rt_beat bpm_here ts_num val key_here with
          | Raises e => Raises e
          | Returns evs => Returns (mkEvent abs_beat mn val key_here :: evs)
          end
      end
  end.

(** The walk over the tokens of one measure line of [parse_romantext_file]:
    the state is the beat cursor, the key cursor and the events so far. *)
Definition walk_step (mstart mend : Z) (bpm_here : Z -> Q) (ts_num : Z)
    (st : Q * option KeyState * list RawEvent) (tok : token)
  : outcome (Q * option KeyState * list RawEvent) :=
  let '(rt_beat, key_here, events) := st in
  match tok with
  | TBeat val => Returns (val, key_here, events)
  | TKey val => Returns (rt_beat, val, events)
  | TBar => Returns st
  | TChord val =>
      match key_here with
      | None => Returns st
      | Some k =>
          match chord_events (measure_range mstart mend) rt_beat bpm_here
                  ts_num val k with
          | Raises e => Raises e
          | Returns evs => Returns (rt_beat, key_here, (events ++ evs)%list)
          end
      end
  end.

Fixpoint walk_tokens (mstart mend : Z) (bpm_here : Z -> Q) (ts_num : Z)
    (st : Q * option KeyState * list RawEvent) (tokens : list token)
  : outcome (Q * option KeyState * list RawEvent) :=
  match tokens with
  | [] => Returns st
  | tok :: rest =>
      match walk_step mstart mend bpm_here ts_num st tok with
      | Raises e => Raises e
      | Returns st' => walk_tokens mstart mend bpm_here ts_num st' rest
      end
  end.

(** The loop over [reversed(tokens)] that updates the running key: the value
    of the last key token, if there is one. *)
Fixpoint last_key (current_key : option KeyState) (tokens : list token)
  : option KeyState :=
  match tokens with
  | [] => current_key
  | TKey val :: rest => last_key val rest
  | _ :: rest => last_key current_key rest
  end.

(** One measure line: the events with those of the line added, and the
    running key after the line. *)
Definition walk_line (mstart mend : Z) (bpm_here : Z -> Q) (ts_num : Z)
    (current_key : option KeyState) (events : list RawEvent)
    (tokens : list token) : outcome (list RawEvent * option KeyState) :=
  match walk_tokens mstart mend bpm_here ts_num (1, current_key, events)
          tokens with
  | Raises e => Raises e
  | Returns (_, _, events') =>
      Returns (events', last_key current_key tokens)
  end.

(** The number of chord tokens that stand behind a key: those that produce
    events. *)
Fixpoint keyed_chords (key_here : bool) (tokens : list token) : nat :=
  match tokens with
  | [] => O
  | TKey (Some _) :: rest => keyed_chords true rest
  | TKey None :: rest => keyed_chords false rest
  | TChord _ :: rest =>
      if key_here then S (keyed_chords key_here rest)
      else keyed_chords key_here rest
  | _ :: rest => keyed_chords key_here rest
  end.

Definition has_key (k : option KeyState) : bool :=
  match k with Some _ => true | None => false end.

(** An [int] that converts to a finite double. *)
Definition float_int (n : Z) : Prop := (Z.abs n < INT_TOO_LARGE)%Z.

(** Floats are modelled by the rationals they stand for, and the model has
    no infinity and no NaN.  Numbers within this bound stay finite floats
    under the sums and differences that the builder takes of them. *)
Definition FLOAT_SAFE : Q := inject_Z (2 ^ 1000).

Definition float_safe (q : Q) : Prop := Qabs q <= FLOAT_SAFE.

(** What holds of an event that the walk over the tokens of a line adds,
    when the walk starts with beat cursor [rt_beat] and key cursor
    [key_here]. *)
Definition line_event_ok (mstart mend : Z) (bpm_here : Z -> Q) (ts_num : Z)
    (rt_beat : Q) (key_here : option KeyState) (tokens : list token)
    (e : RawEvent) : Prop :=
  (mstart <= measure e <= mend)%Z /\
  In (TChord (roman e)) tokens /\
  (Some (key e) = key_here \/ In (TKey (Some (key e))) tokens) /\
  exists r, (r = rt_beat \/ In (TBeat r) tokens) /\
            rt_beat_to_abs r (measure e) (bpm_here (measure e)) ts_num
            = Returns (beat e).

(* ------------------------------------------------------------------ *)
(** ** Ribbon generator: the sparse grid lines

    The overlay loops of [ribbon_plot.py].  Every [ax.plot(line_px, line_py,
    ...)] call is recorded as the pair of coordinate lists it is given; the
    model returns the calls in the order in which they are made. *)

Module RibbonGrid.
Import Ribbon.
Local Open Scope list_scope.
Section Grid.

Variable np_pi : Q.
Variables np_cos np_sin np_sqrt : Q -> Q.
Variable np_arctan2 : Q -> Q -> Q.

Definition theta_grid_step : nat := 20.
Definition x_grid_step : nat := 5.

(** [range(0, stop, step)] for a positive [step] *)
Definition range_step (stop step : nat) : list nat :=
  map (fun k => (k * step)%nat) (seq 0 ((stop + step - 1) / step)).

(** The point [p] of the mesh lines [i] and [j]. *)
Definition grid_point (i j : nat) : point :=
  let t := theta np_pi j in
  let x := xs i in
  (x, radius * np_cos t, radius * np_sin t).

(** [p[1] - cam[1] < 0.01] *)
Definition hidden (p : point) : bool := Qltb (py_ p - py_ cam) (1 # 100).

Definition polyline : Type := (list Q * list Q)%type.

(** The body of the inner loop of a circumferential line: the state is
    [line_px], [line_py] and the plot calls made so far. *)
Definition circ_step (i : nat) (st : list Q * list Q * list polyline)
    (j : nat) : list Q * list Q * list polyline :=
  let '(line_px, line_py, plots) := st in
  let p := grid_point i j in
  if hidden p then
    match line_px with
    | [] => st
    | _ :: _ => ([], [], plots ++ [(line_px, line_py)])
    end
  else
    let '(px, py) := project np_pi np_sqrt np_arctan2 p in
    (line_px ++ [px], line_py ++ [py], plots).

(** The [if line_px: ax.plot(...)] behind the inner loop. *)
Definition flush (st : list Q * list Q * list polyline) : list polyline :=
  let '(line_px, line_py, plots) := st in
  match line_px with
  | [] => plots
  | _ :: _ => plots ++ [(line_px, line_py)]
  end.

(** One round of [for i in range(0, n_x, x_grid_step)]. *)
Definition circ_row (plots : list polyline) (i : nat) : list polyline :=
  flush (fold_left (circ_step i) (seq 0 n_theta) ([], [], plots)).

(** The body of the inner loop of an axial line. *)
Definition axial_step (j : nat) (st : list Q * list Q) (i : nat)
  : list Q * list Q :=
  let '(line_px, line_py) := st in
  let p := grid_point i j in
  if hidden p then st
  else
    let '(px, py) := project np_pi np_sqrt np_arctan2 p in
    (line_px ++ [px], line_py ++ [py]).

(** One round of [for j in range(0, n_theta, theta_grid_step)]. *)
Definition axial_col (plots : list polyline) (j : nat) : list polyline :=
  flush (fold_left (axial_step j) (seq 0 n_x) ([], []), plots).

(** All plot calls of the overlay, in order. *)
Definition grid_lines : list polyline :=
  fold_left axial_col (range_step n_theta theta_grid_step)
    (fold_left circ_row (range_step n_x x_grid_step) []).

(** Vocabulary of the statements about the grid lines. *)

(** The polyline through the points of the indices [js] of line [i], and
    through the points of the indices [rows] of line [j]. *)
Definition circ_polyline (i : nat) (js : list nat) : polyline :=
  (map (fun j => fst (project np_pi np_sqrt np_arctan2 (grid_point i j))) js,
   map (fun j => snd (project np_pi np_sqrt np_arctan2 (grid_point i j))) js).

Definition axial_polyline (j : nat) (rows : list nat) : polyline :=
  (map (fun i => fst (project np_pi np_sqrt np_arctan2 (grid_point i j))) rows,
   map (fun i => snd (project np_pi np_sqrt np_arctan2 (grid_point i j))) rows).

(** The mesh line [j] is behind the test plane of the overlay. *)
Definition hidden_at (j : nat) : bool := hidden (grid_point 0 j).

(** [r] is a maximal run of consecutive elements of [js] that are not
    hidden. *)
Definition maximal_run (js r : list nat) : Prop :=
  r <> [] /\
  Forall (fun j => hidden_at j = false) r /\
  exists l1 l2,
    js = l1 ++ r ++ l2 /\
    (l1 = [] \/ exists l1' h, l1 = l1' ++ [h] /\ hidden_at h = true) /\
    (l2 = [] \/ exists h l2', l2 = h :: l2' /\ hidden_at h = true).

(** The runs that the loop of a circumferential line cuts [post] into when
    it starts with the open run [cur]. *)
Fixpoint runs_from (hid : nat -> bool) (cur post : list nat)
  : list (list nat) :=
  match post with
  | [] => match cur with [] => [] | _ :: _ => [cur] end
  | j :: post' =>
      if hid j then
        match cur with
        | [] => runs_from hid [] post'
        | _ :: _ => cur :: runs_from hid [] post'
        end
      else runs_from hid (cur ++ [j]) post'
  end.

End Grid.
End RibbonGrid.

(* ------------------------------------------------------------------ *)
(** ** Time signatures *)

(** [parse_time_sig]: digits, a slash and digits at the start of the stripped
    string; [(4, 4)] when the string does not start that way. *)
Definition parse_time_sig (s : string) : Z * Z :=
  let '(d1, r1) := span is_digit (PyStr.strip s) in
  match d1, r1 with
  | String _ _, String slash r2 =>
      if Ascii.eqb slash "/" then
        let '(d2, _) := span is_digit r2 in
        match d2 with
        | String _ _ => (digits_value 0 d1, digits_value 0 d2)
        | EmptyString => (4, 4)%Z
        end
      else (4, 4)%Z
  | _, _ => (4, 4)%Z
  end.

(** A string of decimal digits, and a string that does not go on with
    one. *)
Fixpoint all_digits (s : string) : bool :=
  match s with
  | EmptyString => true
  | String c s' => is_digit c && all_digits s'
  end.

Definition no_digit_head (s : string) : bool :=
  match s with
  | EmptyString => true
  | String c _ => negb (is_digit c)
  end.

(* ================================================================== *)
(** * Properties *)

Open Scope list_scope.

(** ** Worked examples *)

Example parse_key_Bb : parse_key_str "Bb" = Some (mkKey "Bb" "major").
Proof. reflexivity. Qed.
Example parse_key_fsharp : parse_key_str "f#" = Some (mkKey "F#" "minor").
Proof. reflexivity. Qed.
Example tonicize_V : tonicize CMajor "V" = Ok (mkKey "G" "major").
Proof. reflexivity. Qed.
Example tonicize_bIII : tonicize CMajor "bIII" = Ok (mkKey "Eb" "major").
Proof. reflexivity. Qed.
Example resolve_V7_V : resolve_applied "V7/V" CMajor = Ok ("V7", mkKey "G" "major").
Proof. reflexivity. Qed.
Example resolve_ii65 : resolve_applied "ii6/5" CMajor = Ok ("ii6/5", CMajor).
Proof. reflexivity. Qed.
Example resolve_slashV : resolve_applied "/V" CMajor = Ok ("/V", CMajor).
Proof. reflexivity. Qed.
Example skip_N7 : _skip_reason "N7" = "extended Neapolitan 'N7' (only N and N6 are supported)".
Proof. reflexivity. Qed.

(** ** Characters and strings *)

Ltac all_chars c :=
  destruct c as [[] [] [] [] [] [] [] []]; vm_compute; try reflexivity;
  try discriminate; auto.

Lemma pc_lookup_letter (c : ascii) :
  assoc (chr c) PC_TO_SEMI <> None <-> PyStr.chr_in c PITCH_LETTERS = true.
Proof.
  destruct c as [[] [] [] [] [] [] [] []]; vm_compute; split;
    intros H; try reflexivity; try discriminate; try (exfalso; apply H; reflexivity).
Qed.

Lemma pitch_letter_case (c : ascii) :
  PyStr.chr_in (PyStr.upper_char c) PITCH_LETTERS = true ->
  PyStr.is_upper c = negb (PyStr.is_lower c).
Proof. all_chars c. Qed.

Lemma chr_in_In (c : ascii) (cs : list ascii) :
  PyStr.chr_in c cs = true <-> In c cs.
Proof.
  unfold PyStr.chr_in. rewrite existsb_exists. split.
  - intros [x [Hin Heq]]. apply Ascii.eqb_eq in Heq. now subst.
  - intros Hin. exists c. split; [assumption | apply Ascii.eqb_refl].
Qed.

Lemma str_in_In (s : string) (ts : list string) :
  PyStr.str_in s ts = true <-> In s ts.
Proof.
  unfold PyStr.str_in. rewrite existsb_exists. split.
  - intros [x [Hin Heq]]. apply String.eqb_eq in Heq. now subst.
  - intros Hin. exists s. split; [assumption | apply String.eqb_refl].
Qed.

Lemma upper_IV (c : ascii) :
  PyStr.chr_in (PyStr.upper_char c) ["I"; "V"]%char
  = PyStr.chr_in c ["I"; "i"; "V"; "v"]%char.
Proof. all_chars c. Qed.

(** ** Key tokens *)

(** C10: [parse_key_str] returns [None] exactly when the stripped string is
    empty or its first character, uppercased, is not one of C D E F G A B;
    otherwise it returns the key whose root is the uppercased first letter
    followed by the rest of the stripped string, and whose scale is minor
    exactly when the first character is lowercase (major otherwise). *)
Theorem parse_key_str_spec (s : string) :
  (parse_key_str s = None <->
   PyStr.strip s = EmptyString \/
   exists c rest, PyStr.strip s = String c rest /\
                  ~ In (PyStr.upper_char c) PITCH_LETTERS) /\
  (forall c rest,
      PyStr.strip s = String c rest ->
      In (PyStr.upper_char c) PITCH_LETTERS ->
      exists k, parse_key_str s = Some k /\
                root k = String (PyStr.upper_char c) rest /\
                (scale k = "minor" <-> PyStr.is_lower c = true) /\
                (scale k = "major" <-> PyStr.is_lower c = false)).
Proof.
  unfold parse_key_str. destruct (PyStr.strip s) as [|c rest] eqn:Hs.
  - split.
    + split; [intros _; now left | reflexivity].
    + intros c rest Hc. discriminate.
  - destruct (assoc (chr (PyStr.upper_char c)) PC_TO_SEMI) as [semi|] eqn:Ha.
    + assert (Hin : PyStr.chr_in (PyStr.upper_char c) PITCH_LETTERS = true).
      { apply pc_lookup_letter. rewrite Ha. discriminate. }
      split.
      * split; [discriminate |].
        intros [Hempty | [c' [rest' [Heq Hnot]]]]; [discriminate |].
        injection Heq as <- <-. exfalso. apply Hnot.
        now apply chr_in_In.
      * intros c' rest' Heq _. injection Heq as <- <-.
        eexists. split; [reflexivity |]. cbn [root scale].
        rewrite (pitch_letter_case c Hin).
        destruct (PyStr.is_lower c); cbn; repeat split; congruence.
    + split.
      * split; [| reflexivity].
        intros _. right. exists c, rest. split; [reflexivity |].
        intros Hin. apply chr_in_In in Hin.
        apply pc_lookup_letter in Hin. now apply Hin.
      * intros c' rest' Heq Hin. injection Heq as <- <-.
        apply chr_in_In in Hin. apply pc_lookup_letter in Hin.
        now exfalso.
Qed.

(** ** Supported chord symbols *)

Lemma is_supported_roman_strip (s : string) :
  is_supported_roman s =
  match strip_annotation s with
  | EmptyString => false
  | String c0 _ as t =>
      if PyStr.startswith t "N" then PyStr.str_in t ["N"; "N6"]
      else if PyStr.startswith t "It" || PyStr.startswith t "Ger"
              || PyStr.startswith t "Fr"
      then PyStr.str_in t AUG_SIXTHS
      else if PyStr.chr_in c0 ["b"; "#"]%char
      then (1 <? String.length t)%nat &&
           match PyStr.at_ t 1 with
           | Some c1 => PyStr.chr_in (PyStr.upper_char c1) ["I"; "V"]%char
           | None => false
           end
      else PyStr.chr_in c0 ["I"; "i"; "V"; "v"]%char
  end.
Proof.
  unfold is_supported_roman. destruct s as [|a s]; [reflexivity |].
  cbv zeta. destruct (strip_annotation (String a s)); reflexivity.
Qed.

Lemma startswith_chr (c d : ascii) (rest : string) :
  PyStr.startswith (String c rest) (chr d) = Ascii.eqb c d.
Proof. cbn. apply andb_true_r. Qed.


(** ** Applied chords *)

Lemma get_some_lt (s : string) (n : nat) (c : ascii) :
  String.get n s = Some c -> (n < String.length s)%nat.
Proof.
  revert n. induction s as [|a s IH]; intros n H; [discriminate |].
  destruct n as [|n]; cbn in *; [lia |].
  apply IH in H. lia.
Qed.

Lemma is_delimiter_iff (roman : string) (pos : nat) :
  is_delimiter roman pos = true <-> delimiter_at roman pos.
Proof.
  unfold is_delimiter, delimiter_at, PyStr.at_. split.
  - destruct (String.get pos roman) as [c|]; [| discriminate].
    intros H. apply andb_prop in H. destruct H as [H Hin].
    apply andb_prop in H. destruct H as [Hc _].
    apply Ascii.eqb_eq in Hc. subst c. split; [reflexivity |].
    destruct (String.get (pos + 1) roman) as [after|]; [| discriminate].
    exists after. split; [reflexivity | now apply chr_in_In].
  - intros [Hc [after [Ha Hin]]]. rewrite Hc, Ha.
    apply get_some_lt in Ha. apply Nat.ltb_lt in Ha. rewrite Ha.
    apply chr_in_In in Hin. change (PyStr.chr_in after TARGET_START = true) in Hin.
    rewrite Hin. reflexivity.
Qed.

Lemma delimiter_bound (roman : string) (pos : nat) :
  delimiter_at roman pos -> (pos <= String.length roman - 1)%nat.
Proof.
  intros [_ [after [Ha _]]]. apply get_some_lt in Ha. lia.
Qed.

Lemma scan_delimiter_some (roman : string) (n idx : nat) :
  scan_delimiter roman n = Some idx ->
  (1 <= idx <= n)%nat /\ delimiter_at roman idx /\
  forall j, (idx < j <= n)%nat -> ~ delimiter_at roman j.
Proof.
  induction n as [|n IH]; intros H; [discriminate |].
  cbn [scan_delimiter] in H.
  destruct (is_delimiter roman (S n)) eqn:Hd.
  - injection H as <-. split; [lia | split].
    + now apply is_delimiter_iff.
    + intros j Hj. lia.
  - destruct (IH H) as [Hr [Hat Hno]]. split; [lia | split; [assumption |]].
    intros j Hj Hdj. destruct (Nat.eq_dec j (S n)) as [-> | Hne].
    + apply is_delimiter_iff in Hdj. congruence.
    + apply (Hno j); [lia | assumption].
Qed.

Lemma scan_delimiter_none (roman : string) (n : nat) :
  scan_delimiter roman n = None ->
  forall j, (1 <= j <= n)%nat -> ~ delimiter_at roman j.
Proof.
  induction n as [|n IH]; intros H j Hj Hdj; [lia |].
  cbn [scan_delimiter] in H.
  destruct (is_delimiter roman (S n)) eqn:Hd; [discriminate |].
  destruct (Nat.eq_dec j (S n)) as [-> | Hne].
  - apply is_delimiter_iff in Hdj. congruence.
  - apply (IH H j); [lia | assumption].
Qed.

(** The scan of [resolve_applied] visits the positions from the last one
    down to 1: it splits the symbol at the rightmost delimiter among those,
    and returns the symbol and the key unchanged when there is none. *)
Lemma resolve_applied_scan (roman : string) (key : KeyState) :
  (forall idx, rightmost_delimiter 1 roman idx ->
               resolve_applied roman key = split_at roman key idx) /\
  ((forall idx, (1 <= idx)%nat -> ~ delimiter_at roman idx) ->
   resolve_applied roman key = Ok (roman, key)).
Proof.
  split.
  - intros idx [Hlo [Hat Hright]]. unfold resolve_applied.
    destruct (scan_delimiter roman (String.length roman - 1)) as [i|] eqn:Hs.
    + apply scan_delimiter_some in Hs. destruct Hs as [Hi [Hati Hnoi]].
      assert (i = idx).
      { destruct (Nat.lt_trichotomy i idx) as [Hlt | [Heq | Hgt]].
        - exfalso. apply (Hnoi idx); [| assumption].
          split; [assumption | now apply delimiter_bound].
        - assumption.
        - exfalso. now apply (Hright i). }
      subst i. reflexivity.
    + exfalso. apply (scan_delimiter_none _ _ Hs idx); [| assumption].
      split; [assumption | now apply delimiter_bound].
  - intros Hnone. unfold resolve_applied.
    destruct (scan_delimiter roman (String.length roman - 1)) as [i|] eqn:Hs;
      [| reflexivity].
    apply scan_delimiter_some in Hs. destruct Hs as [Hi [Hati _]].
    exfalso. apply (Hnone i); [lia | assumption].
Qed.

(** Position 0 is not visited.  The string ["/V"], which is no chord symbol,
    is returned unchanged although its first character is a delimiter. *)
Example resolve_applied_leading_slash :
  rightmost_delimiter 0 "/V" 0 /\
  looks_like_chord "/V" = false /\ is_supported_roman "/V" = false /\
  resolve_applied "/V" CMajor = Ok ("/V", CMajor).
Proof.
  split; [| split; [reflexivity | split; reflexivity]].
  split; [lia | split].
  - split; [reflexivity |]. exists "V"%char. split; [reflexivity |].
    cbn. tauto.
  - intros j Hj [Hc _]. destruct j as [|[|j]]; [lia | discriminate | discriminate].
Qed.

(** On the tokens that the parser accepts as chords the first character is
    never the delimiter, so there the rightmost delimiter of the whole symbol
    is the one the scan finds. *)
Lemma chord_token_delimiter (roman : string) (idx : nat) :
  looks_like_chord roman = true ->
  rightmost_delimiter 0 roman idx -> rightmost_delimiter 1 roman idx.
Proof.
  intros Hc [_ [Hat Hright]]. split; [| split; assumption].
  destruct idx as [|idx]; [| lia].
  destruct Hat as [H0 _]. destruct roman as [|c rest]; [discriminate |].
  cbn in H0. injection H0 as ->. cbn in Hc. discriminate.
Qed.

(** ** Tonicization *)

Lemma strip_accidental_split (target : string) :
  accidental_split target (fst (strip_accidental target))
    (snd (strip_accidental target)).
Proof.
  unfold accidental_split, strip_accidental.
  destruct target as [|c rest]; [right; right; repeat split |].
  change "b"%string with (chr "b"). change "#"%string with (chr "#").
  rewrite !startswith_chr.
  destruct (Ascii.eqb c "b") eqn:Hb.
  - apply Ascii.eqb_eq in Hb. subst c. left. split; reflexivity.
  - destruct (Ascii.eqb c "#") eqn:Hs.
    + apply Ascii.eqb_eq in Hs. subst c. right. left. split; reflexivity.
    + right. right. repeat split.
Qed.

Lemma degree_range (numeral : string) (d : Z) :
  assoc numeral NUMERAL_TO_DEGREE = Some d -> (0 <= d <= 6)%Z.
Proof.
  unfold NUMERAL_TO_DEGREE. cbn [assoc].
  repeat match goal with
         | |- context [String.eqb numeral ?k] => destruct (String.eqb numeral k)
         end;
    intros H; try discriminate; injection H as <-; lia.
Qed.

Lemma degree_cases (d : Z) :
  (0 <= d <= 6)%Z ->
  d = 0%Z \/ d = 1%Z \/ d = 2%Z \/ d = 3%Z \/ d = 4%Z \/ d = 5%Z \/ d = 6%Z.
Proof. lia. Qed.

Lemma scale_semitones_nth (r : Z) (sc : string) (d : Z) :
  (0 <= d <= 6)%Z ->
  nth_error (scale_semitones r sc) (Z.to_nat d)
  = Some ((r + nth (Z.to_nat d) (intervals_of sc) 0%Z) mod 12)%Z.
Proof.
  intros Hd. unfold scale_semitones, intervals_of.
  destruct (String.eqb sc "major");
    destruct (degree_cases d Hd) as [-> | [-> | [-> | [-> | [-> | [-> | ->]]]]]];
    reflexivity.
Qed.

Lemma semi_to_pc_nth (n : Z) :
  nth_error SEMI_TO_PC (Z.to_nat (n mod 12))
  = Some (nth (Z.to_nat (n mod 12)) SEMI_TO_PC EmptyString).
Proof.
  apply nth_error_nth'. unfold SEMI_TO_PC. cbn [List.length].
  pose proof (Z.mod_pos_bound n 12). lia.
Qed.

Lemma numeral_letter_dec (c : ascii) :
  PyStr.chr_in (PyStr.upper_char c) ["I"; "V"]%char = true <-> numeral_letter c.
Proof. rewrite upper_IV. apply chr_in_In. Qed.

Lemma upper_numeral_letter (c : ascii) :
  numeral_letter c -> PyStr.upper_char c = fold_letter c.
Proof.
  intros [<- | [<- | [<- | [<- | []]]]]; reflexivity.
Qed.

Lemma numeral_run_upper (s : string) :
  exists run tail,
    leading_run s run tail /\
    numeral_run (PyStr.upper s) = fold_numeral run.
Proof.
  induction s as [|c s IH].
  - exists EmptyString, EmptyString. split; [| reflexivity].
    split; [reflexivity |]. split; intros; discriminate.
  - cbn [PyStr.upper numeral_run].
    destruct (PyStr.chr_in (PyStr.upper_char c) ["I"; "V"]%char) eqn:Hc.
    + apply numeral_letter_dec in Hc.
      destruct IH as [run [tail [[Hs [Hrun Htail]] Hn]]].
      exists (String c run), tail. split.
      * split; [cbn [String.append]; now rewrite <- Hs |].
        split; [| exact Htail].
        intros [|i] x Hx; cbn [String.get] in Hx.
        -- injection Hx as <-. exact Hc.
        -- now apply (Hrun i).
      * cbn [fold_numeral]. now rewrite Hn, (upper_numeral_letter c Hc).
    + exists EmptyString, (String c s). split; [| reflexivity].
      split; [reflexivity |]. split; [intros; discriminate |].
      intros x Hx Hin. cbn [String.get] in Hx. injection Hx as <-.
      apply numeral_letter_dec in Hin. congruence.
Qed.

Lemma degree_table (numeral : string) (d : Z) :
  assoc numeral NUMERAL_TO_DEGREE = Some d <->
  In (numeral, d)
    [("I", 0); ("II", 1); ("III", 2); ("IV", 3); ("V", 4); ("VI", 5);
     ("VII", 6)]%Z.
Proof.
  split.
  - unfold NUMERAL_TO_DEGREE. cbn [assoc].
    repeat match goal with
           | |- context [String.eqb numeral ?k] =>
               let E := fresh "E" in
               destruct (String.eqb numeral k) eqn:E;
               [apply String.eqb_eq in E; subst numeral;
                intros H; injection H as <-; cbn; tauto |]
           end.
    discriminate.
  - intros H. cbn [In] in H.
    repeat match goal with
           | H : _ \/ _ |- _ => destruct H as [H | H]
           end;
      try (injection H as <- <-; reflexivity).
    contradiction.
Qed.

(** C2: for every key and target, [tonicize] strips one leading b (offset
    -1) or # (offset +1) and returns the key unchanged when nothing is left.
    It takes the leading run of the letters I and V, in either case, of the
    remainder and looks the run, written in capitals, up in the degree table
    I..VII -> 0..6; when the run is not in the table the key is returned
    unchanged.  Otherwise it takes that degree of the seven-note scale above
    the pitch class [r] of the key's root (major intervals 0 2 4 5 7 9 11
    when the key's scale is major, minor intervals 0 2 3 5 7 8 10 otherwise,
    mod 12), adds the offset mod 12 and spells the result with the table C,
    Db, D, Eb, E, F, F#, G, Ab, A, Bb, B; the new scale is major iff the
    first character of the remainder is uppercase.  No degree of the table is
    out of the range of the scale.  On a key whose root spells no pitch class
    the scale lookup raises TypeError.  In C major, V gives G major and bIII
    gives Eb major. *)
Theorem tonicize_spec (key : KeyState) (target : string) :
  (exists off rest run tail,
      let degrees :=
        [("I", 0); ("II", 1); ("III", 2); ("IV", 3); ("V", 4); ("VI", 5);
         ("VII", 6)]%Z in
      accidental_split target off rest /\
      leading_run rest run tail /\
      (rest = EmptyString -> tonicize key target = Ok key) /\
      ((forall d, ~ In (fold_numeral run, d) degrees) ->
       tonicize key target = Ok key) /\
      (forall c rest' d,
          rest = String c rest' -> In (fold_numeral run, d) degrees ->
          match semitone key with
          | Some r =>
              let intervals :=
                if String.eqb (scale key) "major"
                then [0; 2; 4; 5; 7; 9; 11]%Z else [0; 2; 3; 5; 7; 8; 10]%Z in
              let degree_semi :=
                ((r + nth (Z.to_nat d) intervals 0) mod 12)%Z in
              let target_semi := ((degree_semi + off) mod 12)%Z in
              tonicize key target
              = Ok (mkKey
                      (nth (Z.to_nat target_semi)
                         ["C"; "Db"; "D"; "Eb"; "E"; "F"; "F#"; "G"; "Ab";
                          "A"; "Bb"; "B"] EmptyString)
                      (if PyStr.is_upper c then "major" else "minor"))
          | None => tonicize key target = Raise TypeError
          end)) /\
  tonicize CMajor "V" = Ok (mkKey "G" "major") /\
  tonicize CMajor "bIII" = Ok (mkKey "Eb" "major") /\
  tonicize CMajor "V7" = Ok (mkKey "G" "major") /\
  tonicize (mkKey "A" "minor") "#vii" = Ok (mkKey "Ab" "minor").
Proof.
  split; [| repeat split].
  pose proof (strip_accidental_split target) as Hsplit.
  unfold tonicize.
  destruct (strip_accidental target) as [off rest]. cbn [fst snd] in Hsplit.
  destruct (numeral_run_upper rest) as [run [tail [Hrun Hn]]].
  exists off, rest, run, tail. cbv zeta.
  split; [exact Hsplit |]. split; [exact Hrun |].
  split; [intros ->; reflexivity |].
  split.
  - intros Hno. destruct rest as [|c rest']; [reflexivity |].
    rewrite Hn.
    destruct (assoc (fold_numeral run) NUMERAL_TO_DEGREE) as [d|] eqn:Hd;
      [| reflexivity].
    exfalso. apply (Hno d). now apply degree_table.
  - intros c rest' d -> Hin. rewrite Hn.
    apply degree_table in Hin. rewrite Hin.
    pose proof (degree_range _ _ Hin) as Hrange.
    destruct (semitone key) as [r|]; [| reflexivity].
    rewrite (scale_semitones_nth r (scale key) d Hrange).
    rewrite semi_to_pc_nth. reflexivity.
Qed.

(** ** The builder: pivot chords *)

Lemma Qltb_lt (a b : Q) : Qltb a b = true <-> a < b.
Proof.
  unfold Qltb. rewrite negb_true_iff. split.
  - intros H. apply Qnot_le_lt. intros Hle.
    apply Qle_bool_iff in Hle. congruence.
  - intros H. destruct (Qle_bool b a) eqn:E; [| reflexivity].
    apply Qle_bool_iff in E. exfalso. now apply (Qlt_not_le a b).
Qed.

Lemma Qltb_comp (a a' b b' : Q) : a == a' -> b == b' -> Qltb a b = Qltb a' b'.
Proof.
  intros Ha Hb. unfold Qltb. f_equal. now apply Qleb_comp.
Qed.

Lemma same_beat_comp (x y y' : Q) : y == y' -> same_beat x y = same_beat x y'.
Proof.
  intros H. unfold same_beat. apply Qltb_comp; [| reflexivity].
  apply Qabs_wd. now rewrite H.
Qed.

Lemma same_beat_eq (x y : Q) : x == y -> same_beat x y = true.
Proof.
  intros H. unfold same_beat. apply Qltb_lt.
  assert (E : Qabs (x - y) == 0).
  { rewrite <- Qabs_wd with (x := 0); [reflexivity |]. rewrite H. ring. }
  rewrite E. reflexivity.
Qed.

Lemma last_opt_snoc {A : Type} (l : list A) (a : A) :
  last_opt (l ++ [a]) = Some a.
Proof.
  induction l as [|x l IH]; [reflexivity |].
  cbn [app last_opt]. destruct (l ++ [a]) eqn:E; [| exact IH].
  destruct l; discriminate.
Qed.

Lemma dedup_step_replace (acc : list RawEvent) (p ev : RawEvent) :
  same_beat (beat p) (beat ev) = true ->
  dedup_step (acc ++ [p]) ev = acc ++ [ev].
Proof.
  intros H. unfold dedup_step.
  now rewrite last_opt_snoc, H, removelast_last.
Qed.

Lemma dedup_step_append (acc : list RawEvent) (p ev : RawEvent) :
  same_beat (beat p) (beat ev) = false ->
  dedup_step (acc ++ [p]) ev = acc ++ [p; ev].
Proof.
  intros H. unfold dedup_step.
  now rewrite last_opt_snoc, H, <- app_assoc.
Qed.

Lemma snoc_cases {A : Type} (l : list A) :
  l = [] \/ exists l' a, l = l' ++ [a].
Proof.
  destruct l as [|x l]; [now left | right].
  destruct (exists_last (l := x :: l)) as [l' [a E]]; [discriminate |].
  now exists l', a.
Qed.

Lemma dedup_step_twice (acc : list RawEvent) (a b : RawEvent) :
  beat a == beat b ->
  dedup_step (dedup_step acc a) b = dedup_step acc b.
Proof.
  intros Hab.
  destruct (snoc_cases acc) as [-> | [acc' [p ->]]].
  - cbn. rewrite (same_beat_eq _ _ Hab). reflexivity.
  - destruct (same_beat (beat p) (beat a)) eqn:Hpa.
    + rewrite (dedup_step_replace _ _ _ Hpa).
      rewrite (dedup_step_replace acc' a b (same_beat_eq _ _ Hab)).
      rewrite (same_beat_comp _ _ _ Hab) in Hpa.
      now rewrite (dedup_step_replace _ _ _ Hpa).
    + rewrite (dedup_step_append _ _ _ Hpa).
      change (acc' ++ [p; a]) with (acc' ++ [p] ++ [a]).
      rewrite app_assoc.
      rewrite (dedup_step_replace (acc' ++ [p]) a b (same_beat_eq _ _ Hab)).
      rewrite (same_beat_comp _ _ _ Hab) in Hpa.
      rewrite (dedup_step_append _ _ _ Hpa).
      now rewrite <- app_assoc.
Qed.

(** C4: the deduplication pass scans the events in order, starting from no
    kept event, and every event goes through the same step against the events
    kept so far: an event whose beat is within 1e-9 of the beat of the
    previously kept event replaces it, and is appended otherwise.  So of two
    consecutive events at the same beat only the later one survives: the pass
    gives the same list as if the earlier one were not there.  Events V then
    I at beat 4 leave the single event I. *)
Theorem dedup_pivot_rule :
  dedup [] = [] /\
  (forall events ev,
      dedup (events ++ [ev]) = dedup_step (dedup events) ev) /\
  (forall x y, same_beat x y = true <-> Qabs (x - y) < 1 # 1000000000) /\
  (forall acc p ev, same_beat (beat p) (beat ev) = true ->
                    dedup_step (acc ++ [p]) ev = acc ++ [ev]) /\
  (forall acc p ev, same_beat (beat p) (beat ev) = false ->
                    dedup_step (acc ++ [p]) ev = acc ++ [p; ev]) /\
  (forall ev, dedup_step [] ev = [ev]) /\
  (forall pre a b post,
      beat a == beat b ->
      dedup (pre ++ a :: b :: post) = dedup (pre ++ b :: post)) /\
  dedup [mkEvent 4 2 "V" CMajor; mkEvent 4 2 "I" CMajor]
  = [mkEvent 4 2 "I" CMajor] /\
  dedup [mkEvent 0 1 "I" CMajor; mkEvent 4 2 "V" CMajor;
         mkEvent 4 2 "I" CMajor; mkEvent 8 3 "vi" CMajor]
  = [mkEvent 0 1 "I" CMajor; mkEvent 4 2 "I" CMajor; mkEvent 8 3 "vi" CMajor].
Proof.
  split; [reflexivity |].
  split; [intros events ev; unfold dedup; now rewrite fold_left_app |].
  split; [intros x y; apply Qltb_lt |].
  split; [exact dedup_step_replace |].
  split; [exact dedup_step_append |].
  split; [reflexivity |].
  split; [| split; reflexivity].
  intros pre a b post Hab. unfold dedup.
  rewrite !fold_left_app. cbn [fold_left].
  now rewrite dedup_step_twice.
Qed.

(** ** The builder: short events *)

Lemma short_step_keeps (deduped : list RawEvent) (total_beats min_duration : Q)
    (d : RawEvent) (filtered : list RawEvent) (i : nat) :
  (1 <= i < List.length deduped)%nat ->
  short_step deduped total_beats min_duration filtered i
  = if keeps deduped total_beats min_duration i
    then filtered ++ [nth i deduped d] else filtered.
Proof.
  intros [Hlo Hhi]. unfold short_step, keeps, next_beat, beat_at.
  rewrite (nth_error_nth' deduped d Hhi).
  replace (i =? 0)%nat with false by (symmetry; apply Nat.eqb_neq; lia).
  cbn [orb].
  destruct (i + 1 <? List.length deduped)%nat eqn:Hn.
  - reflexivity.
  - apply Nat.ltb_ge in Hn. apply nth_error_None in Hn. now rewrite Hn.
Qed.

Lemma short_fold (deduped : list RawEvent) (total_beats min_duration : Q)
    (d : RawEvent) (l : list nat) (filtered : list RawEvent) :
  (forall i, In i l -> (1 <= i < List.length deduped)%nat) ->
  fold_left (short_step deduped total_beats min_duration) l filtered
  = filtered
      ++ map (fun i => nth i deduped d)
           (filter (keeps deduped total_beats min_duration) l).
Proof.
  revert filtered. induction l as [|i l IH]; intros filtered Hl.
  - cbn. now rewrite app_nil_r.
  - cbn [fold_left filter].
    rewrite (short_step_keeps _ _ _ d) by (apply Hl; now left).
    rewrite IH by (intros j Hj; apply Hl; now right).
    destruct (keeps deduped total_beats min_duration i); [| reflexivity].
    now rewrite <- app_assoc.
Qed.

(** C5: with a positive minimum and more than one event, the short-event
    pass keeps exactly the events at the indices [i] of the list as it is
    before the pass such that [i] is the first index or the gap from the beat
    at [i] to the beat at [i + 1] of that same list (to the total length for
    the last index) is at least the minimum.  The gap never looks past a
    removed neighbour: of events at beats 0, 1, 1.2, 1.3 with minimum 0.25
    only those at 0 and 1.3 are kept, although the one at beat 1 is 0.3
    before the next kept one.  Otherwise the pass changes nothing. *)
Theorem drop_short_spec (deduped : list RawEvent) (total_beats min_duration : Q)
    (d : RawEvent) :
  (0 < min_duration -> (1 < List.length deduped)%nat ->
   drop_short deduped total_beats min_duration
   = map (fun i => nth i deduped d)
       (filter (keeps deduped total_beats min_duration)
          (seq 0 (List.length deduped)))) /\
  (forall i, keeps deduped total_beats min_duration i = true <->
             i = 0%nat \/
             min_duration
             <= next_beat deduped total_beats i - beat_at deduped i) /\
  (forall i, next_beat deduped total_beats i
             = if (i + 1 <? List.length deduped)%nat
               then beat_at deduped (i + 1) else total_beats) /\
  (~ 0 < min_duration \/ (List.length deduped <= 1)%nat ->
   drop_short deduped total_beats min_duration = deduped) /\
  drop_short
    [mkEvent 0 1 "I" CMajor; mkEvent 1 1 "V" CMajor;
     mkEvent (12 # 10) 1 "I" CMajor; mkEvent (13 # 10) 1 "V" CMajor]
    8 (1 # 4)
  = [mkEvent 0 1 "I" CMajor; mkEvent (13 # 10) 1 "V" CMajor].
Proof.
  split; [| split; [| split; [| split; [| reflexivity]]]].
  - intros Hmin Hlen. unfold drop_short.
    apply Qltb_lt in Hmin. rewrite Hmin.
    replace (1 <? List.length deduped)%nat with true
      by (symmetry; now apply Nat.ltb_lt).
    cbn [andb]. destruct deduped as [|e0 rest]; [cbn in Hlen; lia |].
    rewrite (short_fold _ _ _ d).
    + cbn [List.length Nat.sub seq filter]. rewrite Nat.sub_0_r.
      reflexivity.
    + intros i Hi. apply in_seq in Hi. cbn [List.length] in *. lia.
  - intros i. unfold keeps. rewrite orb_true_iff, Nat.eqb_eq, Qle_bool_iff.
    reflexivity.
  - intros i. unfold next_beat, beat_at.
    destruct (i + 1 <? List.length deduped)%nat eqn:Hn.
    + destruct (nth_error deduped (i + 1)) eqn:E; [reflexivity |].
      apply nth_error_None in E. apply Nat.ltb_lt in Hn. lia.
    + apply Nat.ltb_ge in Hn. apply nth_error_None in Hn. now rewrite Hn.
  - intros H. unfold drop_short.
    destruct H as [Hmin | Hlen].
    + destruct (Qltb 0 min_duration) eqn:E; [| reflexivity].
      apply Qltb_lt in E. contradiction.
    + replace (1 <? List.length deduped)%nat with false
        by (symmetry; apply Nat.ltb_ge; lia).
      now rewrite andb_false_r.
Qed.

(** ** Measure filter *)

Lemma removelast_snoc2 {A : Type} (l : list A) (a b : A) :
  removelast (l ++ [a; b]) = l ++ [a].
Proof.
  change (l ++ [a; b]) with (l ++ [a] ++ [b]).
  rewrite app_assoc. apply removelast_last.
Qed.

Lemma last_opt_snoc2 {A : Type} (l : list A) (a b : A) :
  last_opt (l ++ [a; b]) = Some b.
Proof.
  change (l ++ [a; b]) with (l ++ [a] ++ [b]).
  rewrite app_assoc. apply last_opt_snoc.
Qed.

(** C8: [filter_by_measures] keeps the events whose measure lies in the
    inclusive range.  When none does it returns the original events and
    total length, and raises nothing.  Otherwise it returns the kept events
    and, as new total length, the span from the first to the last kept beat
    plus the gap between the last two kept beats, or plus 4 when a single
    event is kept. *)
Theorem filter_by_measures_spec (events : list RawEvent) (start_m end_m : Z)
    (total_beats : Q) :
  let filtered := filter (in_range start_m end_m) events in
  let res := filter_by_measures events start_m end_m total_beats in
  (forall e, In e filtered <->
             In e events /\ (start_m <= measure e <= end_m)%Z) /\
  (filtered = [] -> res = (events, total_beats)) /\
  (forall e, filtered = [e] ->
             fst res = [e] /\ snd res == (beat e - beat e) + 4) /\
  (forall first pre prev lst,
      filtered = pre ++ [prev; lst] -> hd_error filtered = Some first ->
      fst res = filtered /\
      snd res == (beat lst - beat first) + (beat lst - beat prev)).
Proof.
  intros filtered res. subst res. unfold filter_by_measures. fold filtered.
  split; [| clearbody filtered; split; [| split]].
  - intros e. unfold filtered. rewrite filter_In. unfold in_range.
    rewrite andb_true_iff, !Z.leb_le. tauto.
  - intros ->. reflexivity.
  - intros e ->. cbn. split; [reflexivity | ring].
  - intros first pre prev lst Hf Hhd.
    assert (Hlast : last_opt filtered = Some lst)
      by (rewrite Hf; apply last_opt_snoc2).
    assert (Hprev : last2_opt filtered = Some prev)
      by (unfold last2_opt; rewrite Hf, removelast_snoc2; apply last_opt_snoc).
    assert (Hlen : (2 <=? List.length filtered)%nat = true)
      by (apply Nat.leb_le; rewrite Hf, length_app; cbn; lia).
    clear Hf. destruct filtered as [|f rest]; [discriminate |].
    injection Hhd as ->. rewrite Hlast, Hlen, Hprev. cbn [fst snd].
    split; [reflexivity | ring].
Qed.

(** ** The builder: empty document *)

Lemma dedup_step_In (acc : list RawEvent) (ev e : RawEvent) :
  In e (dedup_step acc ev) -> In e acc \/ e = ev.
Proof.
  destruct (snoc_cases acc) as [-> | [acc' [p ->]]].
  - cbn. intuition.
  - destruct (same_beat (beat p) (beat ev)) eqn:H.
    + rewrite (dedup_step_replace _ _ _ H), !in_app_iff. cbn. intuition.
    + rewrite (dedup_step_append _ _ _ H), !in_app_iff. cbn. intuition.
Qed.

Lemma dedup_fold_In (l acc : list RawEvent) (e : RawEvent) :
  In e (fold_left dedup_step l acc) -> In e acc \/ In e l.
Proof.
  revert acc. induction l as [|x l IH]; intros acc H; [now left |].
  cbn [fold_left] in H. apply IH in H. destruct H as [H | H].
  - apply dedup_step_In in H. cbn. intuition.
  - right. now right.
Qed.

Lemma dedup_In (events : list RawEvent) (e : RawEvent) :
  In e (dedup events) -> In e events.
Proof.
  intros H. apply dedup_fold_In in H. destruct H as [[] | H]. exact H.
Qed.

Lemma dedup_step_nonempty (acc : list RawEvent) (ev : RawEvent) :
  dedup_step acc ev <> [].
Proof.
  unfold dedup_step.
  destruct (last_opt acc) as [p|]; [destruct (same_beat _ _) |];
    intros H; apply app_eq_nil in H; destruct H; discriminate.
Qed.

Lemma dedup_nonempty (events : list RawEvent) :
  events <> [] -> dedup events <> [].
Proof.
  intros H. destruct (snoc_cases events) as [-> | [l [x ->]]]; [congruence |].
  unfold dedup. rewrite fold_left_app. cbn [fold_left].
  apply dedup_step_nonempty.
Qed.

Lemma supported_events_none (l : list RawEvent) :
  (forall e, In e l -> is_supported_roman (roman e) = false) ->
  supported_events l = [].
Proof.
  intros H. unfold supported_events. induction l as [|x l IH]; [reflexivity |].
  cbn [filter]. rewrite (H x) by now left.
  apply IH. intros e He. apply H. now right.
Qed.

Lemma py_max_lower (a b : Q) : b <= py_max a b.
Proof.
  unfold py_max. destruct (Qltb a b) eqn:E; [apply Qle_refl |].
  apply Qnot_lt_le. intros H. apply Qltb_lt in H. congruence.
Qed.

Lemma empty_json_shape (title : string) (initial_key : KeyState) (bpm : Q)
    (loop : bool) (preset : string) (bass_preset : option string)
    (octave voices : Z) (sustain total' : Q) :
  let doc := _empty_json title initial_key bpm loop preset bass_preset octave
               voices sustain total' in
  name doc = title /\
  totalBeats (scoreTracks doc) = Float (py_max (py_round total' 1) 4) /\
  4 <= num_val (totalBeats (scoreTracks doc)) /\
  chordEvents (scoreTracks doc) = [SetChord (Int 0) [0; 2; 4]%Z 0%Z] /\
  tracks (scoreTracks doc) = [].
Proof.
  cbn. split; [reflexivity |]. split; [reflexivity |].
  split; [apply py_max_lower |]. split; reflexivity.
Qed.

(** C7: when the builder receives no events, or when no event that is left
    by the pivot-chord pass is a supported symbol, it returns the empty-input
    document for the total length [total'] it has at that point (the given
    one for no events; the shifted one, at least 1, otherwise): [totalBeats]
    is [max(round(total', 1), 4.0)], hence at least 4, [chordEvents] is the
    single [setChord] at beat 0 with degrees [0, 2, 4] and inversion 0, and
    there are no tracks. *)
Theorem empty_document (title : string) (initial_key : KeyState)
    (events : list RawEvent) (total_beats bpm : Q) (loop : bool)
    (preset : string) (bass_preset : option string) (octave voices : Z)
    (sustain min_duration : Q) :
  (forall e, In e (dedup events) -> is_supported_roman (roman e) = false) ->
  exists warnings total' doc,
    build_orbital_json title initial_key events total_beats bpm loop preset
      bass_preset octave voices sustain min_duration
    = Ok (warnings, doc) /\
    doc = _empty_json title initial_key bpm loop preset bass_preset octave
            voices sustain total' /\
    (events = [] -> total' = total_beats /\ warnings = []) /\
    (events <> [] ->
     1 <= total' /\
     exists shifted,
       shift_to_zero (dedup events) total_beats = Ok (shifted, total')) /\
    name doc = title /\
    totalBeats (scoreTracks doc) = Float (py_max (py_round total' 1) 4) /\
    4 <= num_val (totalBeats (scoreTracks doc)) /\
    chordEvents (scoreTracks doc) = [SetChord (Int 0) [0; 2; 4]%Z 0%Z] /\
    tracks (scoreTracks doc) = [].
Proof.
  intros Hall. unfold build_orbital_json.
  destruct events as [|e0 evs] eqn:Hev.
  - exists [], total_beats. eexists. split; [reflexivity |].
    split; [reflexivity |]. split; [intros _; now split |].
    split; [congruence |]. apply empty_json_shape.
  - rewrite <- Hev in *.
    assert (Hne : events <> []) by (rewrite Hev; discriminate).
    pose proof (dedup_nonempty events Hne) as Hd.
    unfold shift_to_zero.
    destruct (dedup events) as [|d0 ds] eqn:Hdd; [congruence |].
    destruct (Qltb (1 # 1000000000) (Qabs (beat d0))) eqn:Hshift;
      cbn [bind].
    + rewrite supported_events_none.
      * do 3 eexists. split; [reflexivity |]. split; [reflexivity |].
        split; [congruence |].
        split; [| apply empty_json_shape].
        intros _. split; [apply py_max_lower | eexists; reflexivity].
      * intros e He. apply in_map_iff in He. destruct He as [x [<- Hx]].
        cbn. now apply Hall.
    + rewrite supported_events_none by exact Hall.
      do 3 eexists. split; [reflexivity |]. split; [reflexivity |].
      split; [congruence |].
      split; [| apply empty_json_shape].
      intros _. split; [apply py_max_lower | eexists; reflexivity].
Qed.

Lemma empty_document_witness :
  exists warnings total' doc,
    build_orbital_json "t" CMajor
      [mkEvent 4 2 "I" CMajor; mkEvent 4 2 "N7" CMajor] 8 72 true "pad"
      None 3 6 (85 # 100) (1 # 4)
    = Ok (warnings, doc) /\
    doc = _empty_json "t" CMajor 72 true "pad" None 3 6 (85 # 100) total' /\
    tracks (scoreTracks doc) = [].
Proof.
  destruct (empty_document "t" CMajor
              [mkEvent 4 2 "I" CMajor; mkEvent 4 2 "N7" CMajor] 8 72 true
              "pad" None 3 6 (85 # 100) (1 # 4))
    as [w [t [doc [H1 [H2 H3]]]]].
  - intros e He. vm_compute in He. destruct He as [<- | []]. reflexivity.
  - exists w, t, doc. split; [exact H1 | split; [exact H2 |]].
    apply H3.
Defined.

(** ** The builder: note durations *)

Lemma round_half_even_Z (z : Z) : round_half_even (inject_Z z) = z.
Proof.
  unfold round_half_even. rewrite Qfloor_Z.
  assert (E : inject_Z z - inject_Z z == 0) by ring.
  rewrite (Qcompare_comp _ _ E (1 # 2) (1 # 2) (Qeq_refl _)).
  reflexivity.
Qed.

Lemma round_half_even_comp (x y : Q) :
  x == y -> round_half_even x = round_half_even y.
Proof.
  intros H. unfold round_half_even. rewrite (Qfloor_comp _ _ H).
  assert (E : x - inject_Z (Qfloor y) == y - inject_Z (Qfloor y))
    by (rewrite H; reflexivity).
  rewrite (Qcompare_comp _ _ E (1 # 2) (1 # 2) (Qeq_refl _)).
  reflexivity.
Qed.

Lemma py_round_on_grid (x : Q) : on_grid (py_round x 6).
Proof. unfold on_grid, py_round. eexists. reflexivity. Qed.

Lemma grid_scale (z : Z) : (z # pow10 6) * inject_Z (Zpos (pow10 6)) == inject_Z z.
Proof.
  unfold Qeq, Qmult, inject_Z. cbn [Qnum Qden]. lia.
Qed.

Lemma py_round_gap (a b : Q) :
  on_grid a -> on_grid b -> py_round (b - a) 6 == b - a.
Proof.
  intros [za ->] [zb ->]. unfold py_round.
  assert (E : ((zb # pow10 6) - (za # pow10 6)) * inject_Z (Zpos (pow10 6))
              == inject_Z (zb - za)).
  { unfold Qminus. rewrite Qmult_plus_distr_l.
    assert (En : - (za # pow10 6) == (- za) # pow10 6) by reflexivity.
    rewrite En, !grid_scale. unfold Qeq, Qplus, inject_Z. cbn [Qnum Qden]. lia. }
  rewrite (round_half_even_comp _ _ E), round_half_even_Z.
  unfold Qeq, Qminus, Qplus, Qopp. cbn [Qnum Qden]. lia.
Qed.

Lemma int_if_whole_val (x : Q) : num_val (int_if_whole x) == x.
Proof.
  unfold int_if_whole. destruct (Qeq_bool x (inject_Z (py_int x))) eqn:E.
  - apply Qeq_bool_iff in E. cbn [num_val]. now symmetry.
  - reflexivity.
Qed.

Lemma insert_uniq_In (x y : Q) (l : list Q) :
  In y (insert_uniq x l) -> y = x \/ In y l.
Proof.
  induction l as [|a l IH]; cbn [insert_uniq].
  - intros [<- | []]. now left.
  - destruct (x ?= a).
    + intros H. now right.
    + intros [<- | H]; [now left | now right].
    + intros [<- | H]; [right; now left |].
      destruct (IH H) as [-> | Hin]; [now left | right; now right].
Qed.

Lemma insert_uniq_keeps (x y : Q) (l : list Q) :
  In y l -> In y (insert_uniq x l).
Proof.
  induction l as [|a l IH]; [intros [] |].
  cbn [insert_uniq]. destruct (x ?= a); intros H.
  - exact H.
  - now right.
  - destruct H as [<- | H]; [now left | right; now apply IH].
Qed.

Lemma insert_uniq_has (x : Q) (l : list Q) :
  exists x', In x' (insert_uniq x l) /\ x' == x.
Proof.
  induction l as [|a l IH]; cbn [insert_uniq].
  - exists x. split; [now left | reflexivity].
  - destruct (x ?= a) eqn:E.
    + apply Qeq_alt in E. exists a. split; [now left | now symmetry].
    + exists x. split; [now left | reflexivity].
    + destruct IH as [x' [Hin Heq]]. exists x'. split; [now right | exact Heq].
Qed.

Lemma insert_uniq_sorted (x : Q) (l : list Q) :
  StronglySorted Qlt l -> StronglySorted Qlt (insert_uniq x l).
Proof.
  induction l as [|a l IH]; intros Hs.
  - cbn. constructor; constructor.
  - cbn [insert_uniq]. inversion Hs as [|a' l' Hl Ha]; subst.
    destruct (x ?= a) eqn:E.
    + exact Hs.
    + apply Qlt_alt in E. constructor; [exact Hs |].
      constructor; [exact E |].
      apply Forall_forall. intros y Hy. rewrite Forall_forall in Ha.
      apply Qlt_trans with a; [exact E | now apply Ha].
    + apply Qgt_alt in E. constructor; [now apply IH |].
      apply Forall_forall. intros y Hy. apply insert_uniq_In in Hy.
      destruct Hy as [-> | Hy]; [exact E |].
      rewrite Forall_forall in Ha. now apply Ha.
Qed.

Lemma sorted_set_sorted (l : list Q) : StronglySorted Qlt (sorted_set l).
Proof.
  induction l as [|x l IH]; [constructor |].
  cbn [sorted_set fold_right]. now apply insert_uniq_sorted.
Qed.

Lemma sorted_set_In (l : list Q) (y : Q) : In y (sorted_set l) -> In y l.
Proof.
  induction l as [|x l IH]; [intros [] |].
  cbn [sorted_set fold_right]. intros H. apply insert_uniq_In in H.
  destruct H as [-> | H]; [now left | right; now apply IH].
Qed.

Lemma sorted_set_has (l : list Q) (x : Q) :
  In x l -> exists x', In x' (sorted_set l) /\ x' == x.
Proof.
  induction l as [|a l IH]; [intros [] |].
  cbn [sorted_set fold_right]. intros [<- | H].
  - apply insert_uniq_has.
  - destruct (IH H) as [x' [Hin Heq]]. exists x'.
    split; [now apply insert_uniq_keeps | exact Heq].
Qed.

Lemma sorted_bounds (l : list Q) :
  StronglySorted Qlt l ->
  forall x, In x l -> hd 0 l <= x /\ x <= last l 0.
Proof.
  induction l as [|a l IH]; intros Hs x Hx; [destruct Hx |].
  inversion Hs as [|a' l' Hl Ha]; subst. rewrite Forall_forall in Ha.
  cbn [hd]. destruct l as [|b l].
  - destruct Hx as [<- | []]. cbn. split; apply Qle_refl.
  - change (last (a :: b :: l) 0) with (last (b :: l) 0).
    destruct Hx as [<- | Hx].
    + split; [apply Qle_refl |].
      destruct (IH Hl b (or_introl eq_refl)) as [_ Hb].
      apply Qle_trans with b; [apply Qlt_le_weak, Ha; now left | exact Hb].
    + split; [apply Qlt_le_weak; now apply Ha | now apply IH].
Qed.

Lemma gaps_sum (l : list Q) :
  StronglySorted Qlt l -> (forall x, In x l -> on_grid x) -> l <> [] ->
  sumQ (map num_val (gaps l)) == last l 0 - hd 0 l.
Proof.
  induction l as [|a l IH]; intros Hs Hg Hne; [congruence |].
  inversion Hs as [|a' l' Hl Ha]; subst. rewrite Forall_forall in Ha.
  destruct l as [|b l].
  - cbn. ring.
  - change (last (a :: b :: l) 0) with (last (b :: l) 0).
    cbn [gaps hd].
    assert (Hab : a < b) by (apply Ha; now left).
    assert (Hr : py_round (b - a) 6 == b - a)
      by (apply py_round_gap; apply Hg; [now left | right; now left]).
    assert (Hpos : Qltb 0 (py_round (b - a) 6) = true).
    { apply Qltb_lt. rewrite Hr. lra. }
    rewrite Hpos. cbn [map sumQ fold_right]. fold (sumQ (map num_val (gaps (b :: l)))).
    rewrite int_if_whole_val, Hr.
    rewrite IH; [cbn [hd]; ring | exact Hl | | discriminate].
    intros x Hx. apply Hg. now right.
Qed.

Lemma gaps_nonempty (a b : Q) (l : list Q) :
  StronglySorted Qlt (a :: b :: l) ->
  (forall x, In x (a :: b :: l) -> on_grid x) ->
  gaps (a :: b :: l) <> [].
Proof.
  intros Hs Hg. inversion Hs as [|a' l' Hl Ha]; subst.
  rewrite Forall_forall in Ha. cbn [gaps].
  assert (Hab : a < b) by (apply Ha; now left).
  assert (Hr : py_round (b - a) 6 == b - a)
    by (apply py_round_gap; apply Hg; [now left | right; now left]).
  assert (Hpos : Qltb 0 (py_round (b - a) 6) = true).
  { apply Qltb_lt. rewrite Hr. lra. }
  rewrite Hpos. discriminate.
Qed.

Lemma last_In {A : Type} (l : list A) (d : A) : l <> [] -> In (last l d) l.
Proof.
  induction l as [|a l IH]; intros H; [congruence |].
  destruct l as [|b l]; [now left |].
  right. apply IH. discriminate.
Qed.

Lemma event_beats_facts (deduped : list RawEvent) (total_beats : Q) :
  let L := event_beats deduped total_beats in
  StronglySorted Qlt L /\
  (forall x, In x L ->
             x = py_round total_beats 6 \/
             exists e, In e deduped /\ x = py_round (beat e) 6) /\
  (exists t, In t L /\ t == py_round total_beats 6) /\
  (forall e, In e deduped -> exists z, In z L /\ z == py_round (beat e) 6).
Proof.
  unfold event_beats. split; [apply sorted_set_sorted |]. split; [| split].
  - intros x Hx. apply sorted_set_In in Hx. apply in_app_iff in Hx.
    destruct Hx as [Hx | [<- | []]]; [right | now left].
    apply sorted_set_In in Hx. apply in_map_iff in Hx.
    destruct Hx as [e [<- He]]. now exists e.
  - apply sorted_set_has. apply in_app_iff. right. now left.
  - intros e He.
    destruct (sorted_set_has (map (fun e => py_round (beat e) 6) deduped)
                (py_round (beat e) 6)) as [z1 [Hin1 Heq1]].
    { apply in_map_iff. now exists e. }
    destruct (sorted_set_has
                (sorted_set (map (fun e => py_round (beat e) 6) deduped)
                   ++ [py_round total_beats 6]) z1) as [z [Hin Heq]].
    { apply in_app_iff. now left. }
    exists z. split; [exact Hin |]. now rewrite Heq.
Qed.

(** When the earliest surviving event is at rounded beat 0 and no surviving
    event's rounded beat exceeds the rounded total length, the note durations
    of the builder (the gaps between the sorted distinct rounded beats and
    the rounded total length) sum to the [totalBeats] value of the
    document. *)
Theorem note_durations_sum (deduped : list RawEvent) (total_beats : Q) :
  (exists e, In e deduped /\ py_round (beat e) 6 == 0) ->
  (forall e, In e deduped ->
             0 <= py_round (beat e) 6 /\
             py_round (beat e) 6 <= py_round total_beats 6) ->
  sumQ (map num_val (note_durations deduped total_beats))
  == num_val (total_beats_val total_beats).
Proof.
  intros [e0 [He0 Hz0]] Hrange.
  destruct (event_beats_facts deduped total_beats)
    as [Hs [Hfrom [[t [Ht HtT]] Hhas]]].
  unfold note_durations, total_beats_val. rewrite int_if_whole_val.
  set (L := event_beats deduped total_beats) in *.
  set (T := py_round total_beats 6) in *.
  assert (HT0 : 0 <= T) by (destruct (Hrange e0 He0); lra).
  assert (Hgrid : forall x, In x L -> on_grid x).
  { intros x Hx. destruct (Hfrom x Hx) as [-> | [e [_ ->]]];
      apply py_round_on_grid. }
  assert (Hbound : forall x, In x L -> 0 <= x /\ x <= T).
  { intros x Hx. destruct (Hfrom x Hx) as [-> | [e [He ->]]].
    - split; [exact HT0 | apply Qle_refl].
    - now apply Hrange. }
  destruct (Hhas e0 He0) as [z [Hz Hzeq]].
  assert (Hne : L <> []) by (intros E; rewrite E in Hz; destruct Hz).
  assert (Hhd : hd 0 L == 0).
  { destruct (sorted_bounds L Hs z Hz) as [Hle _].
    assert (Hin : In (hd 0 L) L)
      by (destruct L; [congruence | now left]).
    destruct (Hbound _ Hin) as [Hge _]. lra. }
  assert (Hlast : last L 0 == T).
  { destruct (sorted_bounds L Hs t Ht) as [_ Hle].
    destruct (Hbound _ (last_In L 0 Hne)) as [_ Hge]. lra. }
  pose proof (gaps_sum L Hs Hgrid Hne) as Hsum.
  destruct L as [|a [|b l]]; [congruence | |].
  - cbn. ring.
  - pose proof (gaps_nonempty a b l Hs Hgrid) as Hgne.
    destruct (gaps (a :: b :: l)) as [|g gs]; [congruence |].
    rewrite Hsum, Hlast, Hhd. ring.
Qed.

Lemma note_durations_sum_witness :
  sumQ (map num_val
          (note_durations
             [mkEvent 0 1 "I" CMajor; mkEvent (5 # 2) 1 "V" CMajor] 8))
  == num_val (total_beats_val 8).
Proof.
  apply (note_durations_sum
           [mkEvent 0 1 "I" CMajor; mkEvent (5 # 2) 1 "V" CMajor] 8).
  - exists (mkEvent 0 1 "I" CMajor). split; [now left | reflexivity].
  - intros e [<- | [<- | []]]; split; vm_compute; discriminate.
Defined.

(** C6: the builder shifts the first event to beat 0 and only then drops
    the unsupported symbols.  Unlike the short-event pass, which always keeps
    the first event, that pass can drop it.  For the events It7 at beat 0 and
    I at beat 4 of a piece of 8 beats, as the parser gives them for two
    measures in 4/4, the event left is at beat 4: the only note duration is
    4, [totalBeats] is 8, and the durations do not sum to [totalBeats].  With
    the supported symbol V7 in place of It7 they do: 4 + 4 = 8. *)
Theorem note_durations_short_of_total :
  looks_like_chord "It7" = true /\ is_supported_roman "It7" = false /\
  (exists w doc track,
      build_orbital_json "t" CMajor
        [mkEvent 0 1 "It7" CMajor; mkEvent 4 2 "I" CMajor]
        8 72 true "pad" None 3 6 (85 # 100) (1 # 4)
      = Ok (w, doc) /\
      tracks (scoreTracks doc) = [track] /\
      map note_duration (notes track) = [Int 4] /\
      totalBeats (scoreTracks doc) = Int 8 /\
      ~ sumQ (map num_val (map note_duration (notes track)))
        == num_val (totalBeats (scoreTracks doc))) /\
  (exists w doc track,
      build_orbital_json "t" CMajor
        [mkEvent 0 1 "V7" CMajor; mkEvent 4 2 "I" CMajor]
        8 72 true "pad" None 3 6 (85 # 100) (1 # 4)
      = Ok (w, doc) /\
      tracks (scoreTracks doc) = [track] /\
      map note_duration (notes track) = [Int 4; Int 4] /\
      totalBeats (scoreTracks doc) = Int 8).
Proof.
  split; [reflexivity |]. split; [reflexivity |]. split.
  - do 3 eexists. split; [vm_compute; reflexivity |].
    split; [reflexivity |].
    split; [vm_compute; reflexivity |].
    split; [vm_compute; reflexivity |].
    vm_compute. discriminate.
  - do 3 eexists. split; [vm_compute; reflexivity |].
    split; [reflexivity |].
    split; [vm_compute; reflexivity |].
    vm_compute. reflexivity.
Qed.

(** ** Ribbon generator: the draw list *)

Module RibbonFacts.
Import Ribbon.
Section Mesh.

Variable np_pi : Q.
Variables np_cos np_sin np_sqrt : Q -> Q.
Variable np_arctan2 : Q -> Q -> Q.

Local Abbreviation corners := (corners_3d np_pi np_cos np_sin).
Local Abbreviation kept := (quad_kept np_pi np_cos np_sin).
Local Abbreviation kept_list := (kept_cells np_pi np_cos np_sin).
Local Abbreviation quad2 := (quad_2d np_pi np_cos np_sin np_sqrt np_arctan2).
Local Abbreviation color := (quad_color np_pi).
Local Abbreviation depth := (quad_depth np_pi np_cos np_sin np_sqrt).
Local Abbreviation proj := (project np_pi np_sqrt np_arctan2).
Local Abbreviation step := (mesh_step np_pi np_cos np_sin np_sqrt np_arctan2).
Local Abbreviation the_mesh := (build_mesh np_pi np_cos np_sin np_sqrt np_arctan2).
Local Abbreviation the_order := (order np_pi np_cos np_sin np_sqrt np_arctan2).
Local Abbreviation the_draw_list :=
  (draw_list np_pi np_cos np_sin np_sqrt np_arctan2).

Lemma project_corners_forallb (cs : list point) :
  project_corners np_pi np_sqrt np_arctan2 cs
  = if forallb corner_ok cs then Some (map proj cs) else None.
Proof.
  induction cs as [|c cs IH]; [reflexivity |].
  cbn [project_corners forallb map]. unfold corner_ok at 1.
  destruct (Qltb (py_ c) (1 # 100)); [reflexivity |].
  rewrite IH. cbn [negb andb]. now destruct (forallb corner_ok cs).
Qed.

Lemma mesh_step_kept (m : mesh) (ij : nat * nat) :
  step m ij =
  if kept ij
  then mkMesh (quads m ++ [quad2 ij]) (colors m ++ [color ij])
         (depths m ++ [depth ij])
  else m.
Proof.
  destruct ij as [i j]. unfold mesh_step, quad_kept. cbn [fst snd].
  destruct (Qltb (max_list (map py_ (corners i j))) (5 # 100));
    [reflexivity |].
  rewrite project_corners_forallb. cbn [negb andb].
  now destruct (forallb corner_ok (corners i j)).
Qed.

Lemma mesh_fold (l : list (nat * nat)) (m : mesh) :
  fold_left step l m
  = mkMesh (quads m ++ map quad2 (filter kept l))
      (colors m ++ map color (filter kept l))
      (depths m ++ map depth (filter kept l)).
Proof.
  revert m. induction l as [|ij l IH]; intros m.
  - cbn [fold_left filter map]. rewrite !app_nil_r. now destruct m.
  - cbn [fold_left filter]. rewrite IH, mesh_step_kept.
    destruct (kept ij); [| reflexivity].
    cbn [quads colors depths map]. now rewrite <- !app_assoc.
Qed.

Lemma build_mesh_kept :
  the_mesh = mkMesh (map quad2 kept_list) (map color kept_list)
               (map depth kept_list).
Proof. unfold build_mesh, kept_cells. rewrite mesh_fold. reflexivity. Qed.

(** *** The sort *)

Lemma Qltb_ge (a b : Q) : Qltb a b = false <-> b <= a.
Proof.
  unfold Qltb. rewrite negb_false_iff. apply Qle_bool_iff.
Qed.

Lemma insert_idx_perm (d : list Q) (i : nat) (l : list nat) :
  Permutation (insert_idx d i l) (i :: l).
Proof.
  induction l as [|k l IH]; [apply Permutation_refl |].
  cbn [insert_idx]. destruct (Qltb (nth i d 0) (nth k d 0)).
  - apply Permutation_refl.
  - apply Permutation_trans with (k :: i :: l).
    + now apply perm_skip.
    + apply perm_swap.
Qed.

Lemma insert_idx_sorted (d : list Q) (i : nat) (l : list nat) :
  StronglySorted (le_at d) l -> StronglySorted (le_at d) (insert_idx d i l).
Proof.
  induction l as [|k l IH]; intros Hs.
  - cbn. constructor; constructor.
  - cbn [insert_idx]. inversion Hs as [|k' l' Hl Hk]; subst.
    destruct (Qltb (nth i d 0) (nth k d 0)) eqn:E.
    + apply Qltb_lt in E. constructor; [exact Hs |].
      constructor; [now apply Qlt_le_weak |].
      apply Forall_forall. intros x Hx.
      rewrite Forall_forall in Hk. specialize (Hk x Hx).
      unfold le_at in *. apply Qle_trans with (nth k d 0);
        [now apply Qlt_le_weak | exact Hk].
    + apply Qltb_ge in E. constructor; [now apply IH |].
      apply Forall_forall. intros x Hx.
      apply (Permutation_in _ (insert_idx_perm d i l)) in Hx.
      destruct Hx as [<- | Hx]; [exact E |].
      rewrite Forall_forall in Hk. now apply Hk.
Qed.

Lemma argsort_fold (d : list Q) (l acc : list nat) :
  StronglySorted (le_at d) acc ->
  StronglySorted (le_at d) (fold_left (fun a i => insert_idx d i a) l acc) /\
  Permutation (fold_left (fun a i => insert_idx d i a) l acc) (l ++ acc).
Proof.
  revert acc. induction l as [|i l IH]; intros acc Hs.
  - split; [exact Hs | apply Permutation_refl].
  - cbn [fold_left]. destruct (IH _ (insert_idx_sorted d i acc Hs)) as [H1 H2].
    split; [exact H1 |].
    apply Permutation_trans with (l ++ insert_idx d i acc); [exact H2 |].
    apply Permutation_trans with (l ++ i :: acc).
    + apply Permutation_app_head. apply insert_idx_perm.
    + apply Permutation_sym. apply Permutation_middle.
Qed.

Lemma np_argsort_spec (d : list Q) :
  StronglySorted (le_at d) (np_argsort d) /\
  Permutation (np_argsort d) (seq 0 (List.length d)).
Proof.
  destruct (argsort_fold d (seq 0 (List.length d)) []) as [H1 H2];
    [constructor |].
  split; [exact H1 |]. now rewrite app_nil_r in H2.
Qed.

Lemma StronglySorted_snoc {A : Type} (R : A -> A -> Prop) (l : list A) (a : A) :
  StronglySorted R l -> Forall (fun x => R x a) l ->
  StronglySorted R (l ++ [a]).
Proof.
  induction l as [|x l IH]; intros Hs Hf.
  - constructor; constructor.
  - inversion Hs as [|x' l' Hl Hx]; subst.
    inversion Hf as [|x' l' Hxa Hla]; subst.
    cbn [app]. constructor; [now apply IH |].
    apply Forall_app. split; [exact Hx | now constructor].
Qed.

Lemma StronglySorted_rev {A : Type} (R : A -> A -> Prop) (l : list A) :
  StronglySorted R l -> StronglySorted (fun a b => R b a) (rev l).
Proof.
  induction l as [|x l IH]; intros Hs; [constructor |].
  inversion Hs as [|x' l' Hl Hx]; subst. cbn [rev].
  apply StronglySorted_snoc; [now apply IH |].
  apply Forall_forall. intros y Hy. apply in_rev in Hy.
  rewrite Forall_forall in Hx. now apply Hx.
Qed.

Lemma StronglySorted_weaken {A : Type} (R R' : A -> A -> Prop) (l : list A) :
  (forall a b, In a l -> In b l -> R a b -> R' a b) ->
  StronglySorted R l -> StronglySorted R' l.
Proof.
  induction l as [|x l IH]; intros Himp Hs; [constructor |].
  inversion Hs as [|x' l' Hl Hx]; subst. constructor.
  - apply IH; [| exact Hl]. intros a b Ha Hb. apply Himp; now right.
  - apply Forall_forall. intros y Hy. rewrite Forall_forall in Hx.
    apply Himp; [now left | now right | now apply Hx].
Qed.

(** *** The draw list *)

Lemma nth_map_in {A B : Type} (f : A -> B) (l : list A) (k : nat) (da : A)
    (db : B) :
  (k < List.length l)%nat -> nth k (map f l) db = f (nth k l da).
Proof.
  intros Hk. rewrite (nth_indep _ db (f da)) by now rewrite length_map.
  apply map_nth.
Qed.

Lemma order_perm : Permutation the_order (seq 0 (List.length kept_list)).
Proof.
  unfold order. rewrite build_mesh_kept. cbn [depths].
  apply Permutation_trans with (np_argsort (map depth kept_list)).
  - apply Permutation_sym, Permutation_rev.
  - rewrite <- (length_map depth kept_list). apply np_argsort_spec.
Qed.

Lemma order_bound (k : nat) :
  In k the_order -> (k < List.length kept_list)%nat.
Proof.
  intros H. apply (Permutation_in _ order_perm) in H.
  apply in_seq in H. lia.
Qed.

Lemma kept_list_In (ij : nat * nat) :
  In ij kept_list <-> In ij cells /\ kept ij = true.
Proof. unfold kept_cells. apply filter_In. Qed.

Lemma draw_list_kept :
  the_draw_list = map (fun k => quad2 (nth k kept_list (0, 0)%nat)) the_order.
Proof.
  unfold draw_list. apply map_ext_in. intros k Hk.
  rewrite build_mesh_kept. cbn [quads].
  apply nth_map_in. apply order_bound. exact Hk.
Qed.

Lemma drawn_corner_ok (k : nat) (c : point) :
  In k the_order ->
  In c (corners (fst (nth k kept_list (0, 0)%nat))
          (snd (nth k kept_list (0, 0)%nat))) ->
  1 # 100 <= py_ c.
Proof.
  intros Hk Hc. apply order_bound in Hk.
  pose proof (nth_In kept_list (0, 0)%nat Hk) as Hin.
  apply kept_list_In in Hin.
  destruct Hin as [_ Hkept]. unfold quad_kept in Hkept. cbv zeta in Hkept.
  apply andb_prop in Hkept. destruct Hkept as [_ Hall].
  rewrite forallb_forall in Hall. specialize (Hall c Hc).
  unfold corner_ok in Hall. apply negb_true_iff in Hall.
  apply Qltb_ge. exact Hall.
Qed.

Lemma order_sorted :
  StronglySorted
    (fun a b => depth (nth b kept_list (0, 0)%nat)
                <= depth (nth a kept_list (0, 0)%nat))
    the_order.
Proof.
  apply StronglySorted_weaken
    with (R := fun a b => le_at (depths the_mesh) b a).
  - intros a b Ha Hb. unfold le_at. rewrite build_mesh_kept. cbn [depths].
    rewrite (nth_map_in depth kept_list a (0, 0)%nat 0)
      by (apply order_bound; exact Ha).
    rewrite (nth_map_in depth kept_list b (0, 0)%nat 0)
      by (apply order_bound; exact Hb).
    intros H. exact H.
  - unfold order. apply StronglySorted_rev. apply np_argsort_spec.
Qed.

Lemma quad_kept_false (ij : nat * nat) :
  kept ij = false <->
  max_list (map py_ (corners (fst ij) (snd ij))) < 5 # 100 \/
  exists c, In c (corners (fst ij) (snd ij)) /\ py_ c < 1 # 100.
Proof.
  unfold quad_kept. cbv zeta.
  rewrite andb_false_iff, negb_false_iff, Qltb_lt. split.
  - intros [H | H]; [left; exact H | right].
    induction (corners (fst ij) (snd ij)) as [|c cs IH];
      [discriminate |].
    cbn [forallb] in H. apply andb_false_iff in H. destruct H as [E | E].
    + exists c. split; [left; reflexivity |]. unfold corner_ok in E.
      apply negb_false_iff in E. apply Qltb_lt. exact E.
    + destruct (IH E) as [c' [Hin Hlt]]. exists c'.
      split; [right; exact Hin | exact Hlt].
  - intros [H | [c [Hin Hlt]]]; [left; exact H | right].
    destruct (forallb corner_ok (corners (fst ij) (snd ij))) eqn:E;
      [| reflexivity].
    rewrite forallb_forall in E. specialize (E c Hin).
    unfold corner_ok in E. apply negb_true_iff in E.
    apply Qltb_ge in E. exfalso. exact (Qlt_not_le _ _ Hlt E).
Qed.

(** C9: a quad is left out of the mesh lists exactly when the largest lateral
    coordinate of its corners is below 0.05 or some corner's lateral
    coordinate is below 0.01.  The draw list holds each kept quad once, every
    corner of a drawn quad has lateral coordinate at least 0.01, and the
    depths (mean corner distance from the camera) along the draw list never
    increase: the farthest quad comes first. *)
Theorem painter_draw_list :
  (forall ij, kept ij = false <->
              max_list (map py_ (corners (fst ij) (snd ij))) < 5 # 100 \/
              exists c, In c (corners (fst ij) (snd ij)) /\ py_ c < 1 # 100) /\
  (forall ij, In ij kept_list <-> In ij (cells) /\ kept ij = true) /\
  quads the_mesh = map quad2 kept_list /\
  depths the_mesh = map depth kept_list /\
  Permutation the_order (seq 0 (List.length kept_list)) /\
  the_draw_list = map (fun k => quad2 (nth k kept_list (0, 0)%nat)) the_order /\
  (forall k c,
      In k the_order ->
      In c (corners (fst (nth k kept_list (0, 0)%nat))
              (snd (nth k kept_list (0, 0)%nat))) ->
      1 # 100 <= py_ c) /\
  StronglySorted
    (fun a b => depth (nth b kept_list (0, 0)%nat)
                <= depth (nth a kept_list (0, 0)%nat))
    the_order.
Proof.
  split; [exact quad_kept_false |].
  split; [exact kept_list_In |].
  split; [rewrite build_mesh_kept; reflexivity |].
  split; [rewrite build_mesh_kept; reflexivity |].
  split; [exact order_perm |].
  split; [exact draw_list_kept |].
  split; [exact drawn_corner_ok | exact order_sorted].
Qed.

End Mesh.
End RibbonFacts.

(* ================================================================== *)
(** * Further properties of the converter *)

(** ** Stripping *)

Lemma lstrip_head (s : string) (c : ascii) (rest : string) :
  PyStr.lstrip s = String c rest -> PyStr.is_space c = false.
Proof.
  induction s as [|a s IH]; [discriminate |].
  cbn [PyStr.lstrip]. destruct (PyStr.is_space a) eqn:E; [exact IH |].
  intros H. injection H as <- _. exact E.
Qed.

Lemma rstrip_head (s : string) (c : ascii) (rest : string) :
  PyStr.rstrip s = String c rest -> exists s', s = String c s'.
Proof.
  destruct s as [|a s]; [discriminate |].
  cbn [PyStr.rstrip]. destruct (PyStr.rstrip s).
  - destruct (PyStr.is_space a); [discriminate |].
    intros H. injection H as <- _. now exists s.
  - intros H. injection H as <- _. now exists s.
Qed.

Lemma rstrip_idem (s : string) : PyStr.rstrip (PyStr.rstrip s) = PyStr.rstrip s.
Proof.
  induction s as [|a s IH]; [reflexivity |].
  cbn [PyStr.rstrip]. destruct (PyStr.rstrip s) as [|b r] eqn:E.
  - destruct (PyStr.is_space a) eqn:Ea; [reflexivity |].
    cbn [PyStr.rstrip]. now rewrite Ea.
  - cbn [PyStr.rstrip]. cbn [PyStr.rstrip] in IH.
    destruct (match PyStr.rstrip r with
              | EmptyString =>
                  if PyStr.is_space b then EmptyString else String b EmptyString
              | String a0 s0 => String b (String a0 s0)
              end); [discriminate | now rewrite IH].
Qed.

Lemma strip_head (s : string) (c : ascii) (rest : string) :
  PyStr.strip s = String c rest -> PyStr.is_space c = false.
Proof.
  unfold PyStr.strip. intros H.
  destruct (rstrip_head _ _ _ H) as [s' Hs'].
  now apply (lstrip_head s c s').
Qed.

Lemma strip_idem (s : string) : PyStr.strip (PyStr.strip s) = PyStr.strip s.
Proof.
  destruct (PyStr.strip s) as [|c rest] eqn:E; [reflexivity |].
  pose proof (strip_head _ _ _ E) as Hc.
  unfold PyStr.strip in *. cbn [PyStr.lstrip]. rewrite Hc.
  rewrite <- E. apply rstrip_idem.
Qed.

(** A stripped string keeps being stripped when its first character is
    replaced by another character that is not white space. *)
Lemma strip_swap_head (c c' : ascii) (rest : string) :
  PyStr.strip (String c rest) = String c rest ->
  PyStr.is_space c' = false ->
  PyStr.strip (String c' rest) = String c' rest.
Proof.
  intros H Hc'. pose proof (strip_head _ _ _ H) as Hc.
  unfold PyStr.strip in *. cbn [PyStr.lstrip] in *. rewrite Hc in H.
  rewrite Hc'. cbn [PyStr.rstrip] in *.
  destruct (PyStr.rstrip rest) as [|b r].
  - rewrite Hc in H. rewrite Hc'. injection H as <-. reflexivity.
  - injection H as <-. reflexivity.
Qed.

Lemma pitch_letter_not_space (c : ascii) :
  PyStr.chr_in c PITCH_LETTERS = true -> PyStr.is_space c = false.
Proof. all_chars c. Qed.

Lemma pitch_letter_upper (c : ascii) :
  PyStr.chr_in c PITCH_LETTERS = true -> PyStr.upper_char c = c.
Proof. all_chars c. Qed.

(** ** Pitch classes and keys *)

Lemma rstrip_cons (c : ascii) (r : string) :
  PyStr.is_space c = false ->
  PyStr.rstrip (String c r) = String c (PyStr.rstrip r).
Proof.
  intros Hc. cbn [PyStr.rstrip]. destruct (PyStr.rstrip r); [now rewrite Hc |].
  reflexivity.
Qed.

Lemma accidental_not_space (a : ascii) :
  PyStr.is_space a = true -> Ascii.eqb a "#" = false /\ Ascii.eqb a "b" = false.
Proof. all_chars a. Qed.

Lemma accidentals_rstrip (s : string) (semi : Z) :
  accidentals semi (PyStr.rstrip s) = accidentals semi s.
Proof.
  revert semi. induction s as [|a s IH]; intros semi; [reflexivity |].
  cbn [PyStr.rstrip]. destruct (PyStr.rstrip s) as [|b r] eqn:E.
  - destruct (PyStr.is_space a) eqn:Ea.
    + destruct (accidental_not_space a Ea) as [H1 H2].
      cbn [accidentals]. rewrite H1, H2. now rewrite <- IH.
    + cbn [accidentals].
      destruct (Ascii.eqb a "#"); [now rewrite <- IH |].
      destruct (Ascii.eqb a "b"); now rewrite <- IH.
  - cbn [accidentals].
    destruct (Ascii.eqb a "#"); [now rewrite <- IH |].
    destruct (Ascii.eqb a "b"); now rewrite <- IH.
Qed.

Lemma accidentals_shift (s : string) (semi : Z) :
  accidentals semi s = (semi + accidentals 0 s)%Z.
Proof.
  revert semi. induction s as [|a s IH]; intros semi; [cbn; lia |].
  cbn [accidentals].
  destruct (Ascii.eqb a "#"); [rewrite (IH (semi + 1)%Z), (IH (0 + 1)%Z); lia |].
  destruct (Ascii.eqb a "b"); [rewrite (IH (semi - 1)%Z), (IH (0 - 1)%Z); lia |].
  apply IH.
Qed.

Lemma accidentals_app (s t : string) (semi : Z) :
  accidentals semi (s ++ t)%string = accidentals (accidentals semi s) t.
Proof.
  revert semi. induction s as [|a s IH]; intros semi; [reflexivity |].
  cbn [append accidentals].
  destruct (Ascii.eqb a "#"); [apply IH |].
  destruct (Ascii.eqb a "b"); apply IH.
Qed.

(** [parse_pitch_class] reads the first character after leading white space
    and counts the accidentals in everything that follows. *)
Lemma parse_pitch_class_lstrip (s : string) :
  parse_pitch_class s =
  match PyStr.lstrip s with
  | EmptyString => None
  | String c r =>
      match assoc (chr (PyStr.upper_char c)) PC_TO_SEMI with
      | None => None
      | Some semi => Some (accidentals semi r mod 12)%Z
      end
  end.
Proof.
  unfold parse_pitch_class, PyStr.strip.
  destruct (PyStr.lstrip s) as [|c r] eqn:E; [reflexivity |].
  rewrite (rstrip_cons c r (lstrip_head _ _ _ E)). cbv iota.
  destruct (assoc (chr (PyStr.upper_char c)) PC_TO_SEMI); [| reflexivity].
  now rewrite accidentals_rstrip.
Qed.

Lemma lstrip_app (s t : string) (c : ascii) (r : string) :
  PyStr.lstrip s = String c r ->
  PyStr.lstrip (s ++ t)%string = String c (r ++ t)%string.
Proof.
  induction s as [|a s IH]; [discriminate |].
  cbn [PyStr.lstrip append]. destruct (PyStr.is_space a); [exact IH |].
  intros H. injection H as <- <-. reflexivity.
Qed.

Lemma lstrip_app_blank (s t : string) :
  PyStr.lstrip s = EmptyString ->
  PyStr.lstrip (s ++ t)%string = PyStr.lstrip t.
Proof.
  induction s as [|a s IH]; [reflexivity |].
  cbn [PyStr.lstrip append]. destruct (PyStr.is_space a); [exact IH |].
  discriminate.
Qed.

Lemma strip_blank (s : string) :
  PyStr.strip s = EmptyString <-> PyStr.lstrip s = EmptyString.
Proof.
  unfold PyStr.strip. split.
  - intros H. destruct (PyStr.lstrip s) as [|c r] eqn:E; [reflexivity |].
    rewrite (rstrip_cons c r (lstrip_head _ _ _ E)) in H. discriminate.
  - intros ->. reflexivity.
Qed.

Lemma parse_pitch_class_accidental (s : string) (a : ascii) (d : Z) :
  (a = "#"%char /\ d = 1%Z) \/
  (a = "b"%char /\ d = (-1)%Z /\ PyStr.lstrip s <> EmptyString) ->
  parse_pitch_class (s ++ chr a)%string
  = option_map (fun n => ((n + d) mod 12)%Z) (parse_pitch_class s).
Proof.
  intros Ha. rewrite !parse_pitch_class_lstrip.
  destruct (PyStr.lstrip s) as [|c r] eqn:E.
  - rewrite (lstrip_app_blank _ _ E).
    destruct Ha as [[-> _] | [_ [_ Hne]]]; [reflexivity | congruence].
  - rewrite (lstrip_app _ (chr a) _ _ E).
    destruct (assoc (chr (PyStr.upper_char c)) PC_TO_SEMI) as [semi|];
      [| reflexivity].
    cbn [option_map]. f_equal. rewrite accidentals_app.
    rewrite Zplus_mod_idemp_l. f_equal.
    destruct Ha as [[-> ->] | [-> [-> _]]]; cbn; lia.
Qed.

Lemma append_snoc_assoc (s : string) (a b : ascii) :
  (s ++ String a (String b EmptyString))%string
  = ((s ++ chr a) ++ chr b)%string.
Proof. induction s as [|x s IH]; [reflexivity | cbn; now rewrite IH]. Qed.

Lemma lstrip_snoc_nonblank (s : string) (a : ascii) :
  PyStr.is_space a = false -> PyStr.lstrip (s ++ chr a)%string <> EmptyString.
Proof.
  intros Ha. induction s as [|x s IH].
  - cbn. rewrite Ha. discriminate.
  - cbn [append PyStr.lstrip]. destruct (PyStr.is_space x); [exact IH |].
    discriminate.
Qed.

(** X1: appending a sharp to a pitch-class spelling raises the parsed
    semitone by one modulo 12, and appending a flat to a spelling that is not
    blank lowers it by one; a spelling that does not parse still does not.  A
    sharp followed by a flat cancels.  The parsed value is always one of
    0..11.  (A lone [b] is the note B, not a flat.) *)
Theorem parse_pitch_class_accidentals (s : string) :
  parse_pitch_class (s ++ "#")%string
  = option_map (fun n => ((n + 1) mod 12)%Z) (parse_pitch_class s) /\
  (PyStr.strip s <> EmptyString ->
   parse_pitch_class (s ++ "b")%string
   = option_map (fun n => ((n - 1) mod 12)%Z) (parse_pitch_class s)) /\
  parse_pitch_class (s ++ "#b")%string = parse_pitch_class s /\
  (forall n, parse_pitch_class s = Some n -> (0 <= n < 12)%Z) /\
  parse_pitch_class "b" = Some 11%Z.
Proof.
  assert (Hs : parse_pitch_class (s ++ "#")%string
               = option_map (fun n => ((n + 1) mod 12)%Z) (parse_pitch_class s))
    by (apply (parse_pitch_class_accidental s "#" 1); now left).
  assert (Hb : forall u, PyStr.lstrip u <> EmptyString ->
               parse_pitch_class (u ++ "b")%string
               = option_map (fun n => ((n + -1) mod 12)%Z) (parse_pitch_class u))
    by (intros u Hu; apply (parse_pitch_class_accidental u "b" (-1)); now right).
  assert (Hrange : forall u n, parse_pitch_class u = Some n -> (0 <= n < 12)%Z).
  { intros u n. unfold parse_pitch_class.
    destruct (PyStr.strip u); [discriminate |].
    destruct (assoc _ PC_TO_SEMI); [| discriminate].
    intros H. injection H as <-. apply Z.mod_pos_bound. lia. }
  split; [exact Hs |].
  split; [intros Hne; apply Hb; intros E; apply Hne; now apply strip_blank |].
  split; [| split; [exact (Hrange s) | reflexivity]].
  rewrite (append_snoc_assoc s "#" "b").
  change (chr "b") with "b"%string. change (chr "#") with "#"%string.
  rewrite Hb by (apply (lstrip_snoc_nonblank s "#"); reflexivity).
  rewrite Hs.
  destruct (parse_pitch_class s) as [n|] eqn:E; [| reflexivity].
  cbn [option_map]. f_equal. rewrite Zplus_mod_idemp_l.
  replace (n + 1 + -1)%Z with n by lia.
  apply Z.mod_small. now apply (Hrange s).
Qed.

Lemma semi_to_pc_round_trip_core (n : Z) :
  (0 <= n < 12)%Z ->
  parse_pitch_class (nth (Z.to_nat n) SEMI_TO_PC EmptyString) = Some n.
Proof.
  intros H. rewrite <- (Z2Nat.id n) at 2 by lia.
  assert (Hk : (Z.to_nat n < 12)%nat) by lia.
  generalize dependent (Z.to_nat n). intros k Hk.
  do 12 (destruct k as [|k]; [reflexivity |]). lia.
Qed.

(** X2: spelling a semitone with [SEMI_TO_PC] and parsing the spelling gives
    the semitone back. *)
Theorem semi_to_pc_round_trip (n : Z) :
  (0 <= n < 12)%Z ->
  parse_pitch_class (nth (Z.to_nat n) SEMI_TO_PC EmptyString) = Some n.
Proof. exact (semi_to_pc_round_trip_core n). Qed.

Lemma semi_to_pc_round_trip_witness :
  parse_pitch_class (nth (Z.to_nat 6) SEMI_TO_PC EmptyString) = Some 6%Z.
Proof. apply semi_to_pc_round_trip. lia. Defined.

Lemma parse_key_str_semitone_core (s : string) :
  (parse_key_str s = None <-> parse_pitch_class s = None) /\
  (forall k, parse_key_str s = Some k ->
             semitone k = parse_pitch_class s /\ valid_key k /\
             (scale k = "major" \/ scale k = "minor")).
Proof.
  unfold parse_key_str, valid_key, semitone.
  destruct (PyStr.strip s) as [|c rest] eqn:Hs.
  - unfold parse_pitch_class. rewrite Hs. split; [tauto | discriminate].
  - assert (Hpp : parse_pitch_class s
                  = match assoc (chr (PyStr.upper_char c)) PC_TO_SEMI with
                    | None => None
                    | Some semi => Some (accidentals semi rest mod 12)%Z
                    end)
      by (unfold parse_pitch_class; now rewrite Hs).
    destruct (assoc (chr (PyStr.upper_char c)) PC_TO_SEMI) as [semi|] eqn:Ha.
    + split; [rewrite Hpp; split; discriminate |].
      intros k Hk. injection Hk as <-. cbn [root scale].
      assert (Hin : PyStr.chr_in (PyStr.upper_char c) PITCH_LETTERS = true)
        by (apply pc_lookup_letter; rewrite Ha; discriminate).
      assert (Hfix : PyStr.strip (String (PyStr.upper_char c) rest)
                     = String (PyStr.upper_char c) rest).
      { apply (strip_swap_head c).
        - rewrite <- Hs. apply strip_idem.
        - now apply pitch_letter_not_space. }
      assert (Hsem : parse_pitch_class (String (PyStr.upper_char c) rest)
                     = Some (accidentals semi rest mod 12)%Z).
      { unfold parse_pitch_class. rewrite Hfix.
        rewrite (pitch_letter_upper _ Hin), Ha. reflexivity. }
      rewrite Hsem, Hpp. split; [reflexivity |]. split.
      * eexists. split; [reflexivity | apply Z.mod_pos_bound; lia].
      * destruct (PyStr.is_upper c); [now left | now right].
    + split; [rewrite Hpp; tauto | discriminate].
Qed.

(** X3: [parse_key_str] and [parse_pitch_class] accept the same strings, and
    the semitone of a parsed key is the pitch class of the token it was
    parsed from; a parsed key is always major or minor. *)
Theorem parse_key_str_semitone (s : string) :
  (parse_key_str s = None <-> parse_pitch_class s = None) /\
  (forall k, parse_key_str s = Some k ->
             semitone k = parse_pitch_class s /\ valid_key k /\
             (scale k = "major" \/ scale k = "minor")).
Proof. exact (parse_key_str_semitone_core s). Qed.

(** ** Tonicization and applied chords keep keys valid *)

Lemma spelled_key_valid (n : Z) (sc : string) :
  valid_key (mkKey (nth (Z.to_nat (n mod 12)) SEMI_TO_PC EmptyString) sc).
Proof.
  pose proof (Z.mod_pos_bound n 12 ltac:(lia)) as Hb.
  exists (n mod 12)%Z. split; [| exact Hb].
  unfold semitone. cbn [root]. now apply semi_to_pc_round_trip_core.
Qed.

Lemma tonicize_valid_core (key : KeyState) (target : string) :
  valid_key key ->
  exists k', tonicize key target = Ok k' /\ valid_key k' /\
             (k' = key \/
              (In (root k') SEMI_TO_PC /\
               (scale k' = "major" \/ scale k' = "minor"))).
Proof.
  intros Hv. unfold tonicize.
  destruct (strip_accidental target) as [off rest].
  destruct rest as [|c rest'].
  { exists key. split; [reflexivity | split; [exact Hv | now left]]. }
  destruct (assoc (numeral_run (PyStr.upper (String c rest')))
              NUMERAL_TO_DEGREE) as [d|] eqn:Hd.
  2: { exists key. split; [reflexivity | split; [exact Hv | now left]]. }
  pose proof (degree_range _ _ Hd) as Hrange.
  destruct Hv as [r [Hr Hrb]]. rewrite Hr.
  rewrite (scale_semitones_nth r (scale key) d Hrange), semi_to_pc_nth.
  eexists. split; [reflexivity |]. split; [apply spelled_key_valid |].
  right. cbn [root scale]. split.
  - apply nth_In. unfold SEMI_TO_PC. cbn [List.length].
    match goal with |- (Z.to_nat (?n mod 12) < 12)%nat =>
      pose proof (Z.mod_pos_bound n 12 ltac:(lia)) end. lia.
  - destruct (PyStr.is_upper c); [now left | now right].
Qed.

(** X4: on a key whose root spells a pitch class [tonicize] never raises, and
    the key it returns is again such a key: either the key it was given, or a
    root from [SEMI_TO_PC] with scale major or minor. *)
Theorem tonicize_valid (key : KeyState) (target : string) :
  valid_key key ->
  exists k', tonicize key target = Ok k' /\ valid_key k' /\
             (k' = key \/
              (In (root k') SEMI_TO_PC /\
               (scale k' = "major" \/ scale k' = "minor"))).
Proof. exact (tonicize_valid_core key target). Qed.

Lemma tonicize_valid_witness :
  exists k', tonicize CMajor "bVII" = Ok k' /\ valid_key k'.
Proof.
  destruct (tonicize_valid CMajor "bVII") as [k' [H1 [H2 _]]].
  - exists 0%Z. split; [reflexivity | lia].
  - exists k'. split; assumption.
Defined.

Lemma take_drop_at (s : string) (idx : nat) (c : ascii) :
  PyStr.at_ s idx = Some c ->
  s = (PyStr.take idx s ++ String c (PyStr.drop (idx + 1) s))%string.
Proof.
  unfold PyStr.at_. revert idx. induction s as [|a s IH]; intros idx H.
  - destruct idx; discriminate.
  - destruct idx as [|idx]; cbn in H.
    + injection H as ->. reflexivity.
    + cbn [PyStr.take PyStr.drop Nat.add append]. f_equal. now apply IH.
Qed.

Lemma drop_at (s : string) (idx : nat) (c : ascii) :
  PyStr.at_ s idx = Some c -> exists t, PyStr.drop idx s = String c t.
Proof.
  unfold PyStr.at_. revert idx. induction s as [|a s IH]; intros idx H.
  - destruct idx; discriminate.
  - destruct idx as [|idx]; cbn in H.
    + injection H as ->. now exists s.
    + cbn [PyStr.drop]. now apply IH.
Qed.

Lemma take_nonempty (s : string) (idx : nat) (c : ascii) :
  (1 <= idx)%nat -> PyStr.at_ s idx = Some c -> PyStr.take idx s <> EmptyString.
Proof.
  intros Hidx H. apply get_some_lt in H.
  destruct idx as [|idx]; [lia |]. destruct s; [cbn in H; lia |].
  discriminate.
Qed.

Lemma resolve_applied_valid_core (roman : string) (key : KeyState) :
  valid_key key ->
  exists chord k',
    resolve_applied roman key = Ok (chord, k') /\ valid_key k' /\
    ((chord = roman /\ k' = key) \/
     (exists c t,
         In c TARGET_START /\
         roman = (chord ++ String "/" (String c t))%string /\
         chord <> EmptyString /\
         tonicize key (String c t) = Ok k')).
Proof.
  intros Hv. unfold resolve_applied.
  destruct (scan_delimiter roman (String.length roman - 1)) as [idx|] eqn:Hs.
  - apply scan_delimiter_some in Hs.
    destruct Hs as [[Hlo _] [[Hslash [after [Hafter Hin]]] _]].
    destruct (drop_at _ _ _ Hafter) as [t Ht].
    destruct (tonicize_valid_core key (PyStr.drop (idx + 1) roman) Hv)
      as [k' [Hk' [Hvk' _]]].
    rewrite Hk'. cbn [bind].
    exists (PyStr.take idx roman), k'. split; [reflexivity |].
    split; [exact Hvk' |]. right. exists after, t. split; [exact Hin |].
    split; [| split].
    + rewrite <- Ht. now apply take_drop_at.
    + now apply (take_nonempty roman idx "/").
    + now rewrite <- Ht.
  - exists roman, key. split; [reflexivity |]. split; [exact Hv | now left].
Qed.

(** X5: on a key whose root spells a pitch class [resolve_applied] never
    raises and returns such a key.  Either it returns the symbol and the key
    unchanged, or the symbol is the returned chord part, a ['/'], and a
    target that starts with one of I i V v b #; the chord part is then not
    empty and the returned key is the tonicization by that target. *)
Theorem resolve_applied_valid (roman : string) (key : KeyState) :
  valid_key key ->
  exists chord k',
    resolve_applied roman key = Ok (chord, k') /\ valid_key k' /\
    ((chord = roman /\ k' = key) \/
     (exists c t,
         In c TARGET_START /\
         roman = (chord ++ String "/" (String c t))%string /\
         chord <> EmptyString /\
         tonicize key (String c t) = Ok k')).
Proof. exact (resolve_applied_valid_core roman key). Qed.

Lemma resolve_applied_valid_witness :
  exists chord k',
    resolve_applied "V7/bIII" CMajor = Ok (chord, k') /\ valid_key k'.
Proof.
  destruct (resolve_applied_valid "V7/bIII" CMajor) as [ch [k' [H1 [H2 _]]]].
  - exists 0%Z. split; [reflexivity | lia].
  - exists ch, k'. split; assumption.
Defined.

(** ** The pivot-chord pass on sorted events *)

Lemma StronglySorted_app_cross {A : Type} (R : A -> A -> Prop) (X Y : list A) :
  StronglySorted R (X ++ Y) ->
  forall x y, In x X -> In y Y -> R x y.
Proof.
  induction X as [|a X IH]; intros Hs x y Hx Hy; [destruct Hx |].
  cbn [app] in Hs. inversion Hs as [|a' l' Hl Ha]; subst.
  destruct Hx as [<- | Hx].
  - rewrite Forall_forall in Ha. apply Ha. apply in_app_iff. now right.
  - now apply IH.
Qed.

Lemma StronglySorted_remove {A : Type} (R : A -> A -> Prop) (X Y : list A)
    (p : A) :
  StronglySorted R (X ++ p :: Y) -> StronglySorted R (X ++ Y).
Proof.
  induction X as [|a X IH]; intros Hs.
  - cbn [app] in *. now inversion Hs.
  - cbn [app] in *. inversion Hs as [|a' l' Hl Ha]; subst.
    constructor; [now apply IH |].
    rewrite Forall_forall in *. intros x Hx. apply Ha.
    apply in_app_iff in Hx. apply in_app_iff.
    destruct Hx as [Hx | Hx]; [now left | right; now right].
Qed.

Lemma Qltb_false (a b : Q) : Qltb a b = false <-> b <= a.
Proof.
  unfold Qltb. rewrite negb_false_iff. apply Qle_bool_iff.
Qed.

Lemma same_beat_false (x y : Q) :
  same_beat x y = false <-> 1 # 1000000000 <= Qabs (x - y).
Proof. unfold same_beat. apply Qltb_false. Qed.

Lemma same_beat_further (q p e : Q) :
  q <= p -> p <= e -> same_beat q p = false -> same_beat q e = false.
Proof.
  rewrite !same_beat_false. intros Hqp Hpe H.
  assert (E1 : Qabs (q - p) == p - q).
  { rewrite Qabs_neg by lra. ring. }
  assert (E2 : Qabs (q - e) == e - q).
  { rewrite Qabs_neg by lra. ring. }
  rewrite E1 in H. rewrite E2. lra.
Qed.

Lemma spaced_snoc (X : list RawEvent) (p ev : RawEvent) :
  spaced (X ++ [p]) -> same_beat (beat p) (beat ev) = false ->
  spaced (X ++ [p; ev]).
Proof.
  induction X as [|x X IH]; intros Hs Hp.
  - cbn. tauto.
  - destruct X as [|y X].
    + cbn in *. tauto.
    + cbn [app spaced] in *. destruct Hs as [Hxy Hs]. split; [exact Hxy |].
      now apply IH.
Qed.

Lemma spaced_replace (X : list RawEvent) (p ev : RawEvent) :
  spaced (X ++ [p]) -> (forall q, In q X -> beat q <= beat p) ->
  beat p <= beat ev -> spaced (X ++ [ev]).
Proof.
  induction X as [|x X IH]; intros Hs Hle Hpe.
  - exact I.
  - destruct X as [|y X].
    + cbn in *. split; [| exact I].
      apply (same_beat_further _ (beat p)); [apply Hle; now left | exact Hpe |].
      tauto.
    + cbn [app spaced] in *. destruct Hs as [Hxy Hs]. split; [exact Hxy |].
      apply IH; [exact Hs | | exact Hpe].
      intros q Hq. apply Hle. now right.
Qed.

Lemma spaced_middle (X Y : list RawEvent) (p ev : RawEvent) :
  spaced (X ++ p :: ev :: Y) -> same_beat (beat p) (beat ev) = false.
Proof.
  induction X as [|x X IH]; intros Hs.
  - cbn in Hs. tauto.
  - destruct X as [|y X]; cbn [app spaced] in *; apply IH; tauto.
Qed.

Lemma spaced_prefix (X Y : list RawEvent) : spaced (X ++ Y) -> spaced X.
Proof.
  induction X as [|x X IH]; intros Hs; [exact I |].
  destruct X as [|y X]; [exact I |].
  cbn [app spaced] in *. split; [tauto | apply IH; tauto].
Qed.

Lemma dedup_fold_sorted (rest acc : list RawEvent) :
  sorted_by_beat (acc ++ rest) -> spaced acc ->
  sorted_by_beat (fold_left dedup_step rest acc) /\
  spaced (fold_left dedup_step rest acc).
Proof.
  unfold sorted_by_beat. revert acc.
  induction rest as [|ev rest IH]; intros acc Hs Hsp.
  - cbn [fold_left]. now rewrite app_nil_r in Hs.
  - cbn [fold_left].
    destruct (snoc_cases acc) as [-> | [X [p ->]]].
    + apply IH; [exact Hs | exact I].
    + rewrite <- app_assoc in Hs. cbn [app] in Hs.
      destruct (same_beat (beat p) (beat ev)) eqn:E.
      * rewrite (dedup_step_replace _ _ _ E). apply IH.
        -- rewrite <- app_assoc. cbn [app].
           now apply (StronglySorted_remove _ X (ev :: rest) p).
        -- apply (spaced_replace X p ev Hsp).
           ++ intros q Hq. change (beat_le q p).
              apply (StronglySorted_app_cross _ X (p :: ev :: rest) Hs);
                [exact Hq | now left].
           ++ change (beat_le p ev).
              apply (StronglySorted_app_cross _ (X ++ [p]) (ev :: rest)).
              ** now rewrite <- app_assoc.
              ** apply in_app_iff. right. now left.
              ** now left.
      * rewrite (dedup_step_append _ _ _ E). apply IH.
        -- rewrite <- app_assoc. exact Hs.
        -- now apply spaced_snoc.
Qed.

Lemma dedup_fold_spaced (rest acc : list RawEvent) :
  spaced (acc ++ rest) -> fold_left dedup_step rest acc = acc ++ rest.
Proof.
  revert acc. induction rest as [|ev rest IH]; intros acc Hs.
  - cbn. now rewrite app_nil_r.
  - cbn [fold_left].
    assert (Hstep : dedup_step acc ev = acc ++ [ev]).
    { destruct (snoc_cases acc) as [-> | [X [p ->]]]; [reflexivity |].
      rewrite <- app_assoc in Hs. cbn [app] in Hs.
      rewrite (dedup_step_append X p ev (spaced_middle _ _ _ _ Hs)).
      now rewrite <- app_assoc. }
    rewrite Hstep, IH; rewrite <- app_assoc; [reflexivity | exact Hs].
Qed.

(** X6: on events sorted by beat the pivot-chord pass returns a list that is
    still sorted and in which no two neighbours are within 1e-9 of each
    other; running the pass again on its result changes nothing. *)
Theorem dedup_sorted_spaced (events : list RawEvent) :
  sorted_by_beat events ->
  sorted_by_beat (dedup events) /\ spaced (dedup events) /\
  dedup (dedup events) = dedup events.
Proof.
  intros Hs. destruct (dedup_fold_sorted events [] Hs I) as [H1 H2].
  split; [exact H1 |]. split; [exact H2 |].
  unfold dedup at 1. now rewrite dedup_fold_spaced.
Qed.

Lemma dedup_sorted_spaced_witness :
  spaced (dedup [mkEvent 0 1 "I" CMajor; mkEvent 0 1 "V" CMajor;
                 mkEvent 2 1 "I" CMajor]).
Proof.
  apply dedup_sorted_spaced. unfold sorted_by_beat, beat_le.
  repeat constructor; cbn; lra.
Defined.

(** Sorting matters: on events that are not in beat order the pass can leave
    two neighbours closer than 1e-9, and a second pass removes one more. *)
Example dedup_unsorted :
  let evs := [mkEvent 0 1 "I" CMajor; mkEvent (1 # 1000000000) 1 "V" CMajor;
              mkEvent (1 # 2000000000) 1 "vi" CMajor] in
  dedup evs = [mkEvent 0 1 "I" CMajor; mkEvent (1 # 2000000000) 1 "vi" CMajor]
  /\ dedup (dedup evs) = [mkEvent (1 # 2000000000) 1 "vi" CMajor].
Proof. split; reflexivity. Qed.

(** X7: the pivot-chord pass never invents or reorders events: every event it
    returns is one of its input, it returns at most as many events as it was
    given, and the last event of a non-empty input is always the last event
    of the result. *)
Theorem dedup_keeps_last (events : list RawEvent) :
  (forall e, In e (dedup events) -> In e events) /\
  (List.length (dedup events) <= List.length events)%nat /\
  last_opt (dedup events) = last_opt events /\
  (events <> [] -> dedup events <> []).
Proof.
  split; [apply dedup_In |]. split; [| split; [| apply dedup_nonempty]].
  - unfold dedup.
    assert (H : forall l acc,
               (List.length (fold_left dedup_step l acc)
                <= List.length acc + List.length l)%nat).
    { induction l as [|x l IH]; intros acc; [cbn; lia |].
      cbn [fold_left List.length]. specialize (IH (dedup_step acc x)).
      assert (Hstep : (List.length (dedup_step acc x) <= S (List.length acc))%nat).
      { destruct (snoc_cases acc) as [-> | [X [p ->]]]; [cbn; lia |].
        destruct (same_beat (beat p) (beat x)) eqn:E.
        - rewrite (dedup_step_replace _ _ _ E), !length_app. cbn. lia.
        - rewrite (dedup_step_append _ _ _ E), !length_app. cbn. lia. }
      lia. }
    apply (H events []).
  - destruct (snoc_cases events) as [-> | [l [x ->]]]; [reflexivity |].
    unfold dedup. rewrite fold_left_app. cbn [fold_left].
    rewrite last_opt_snoc.
    destruct (snoc_cases (fold_left dedup_step l [])) as [-> | [X [p ->]]];
      [reflexivity |].
    destruct (same_beat (beat p) (beat x)) eqn:E.
    + rewrite (dedup_step_replace _ _ _ E). apply last_opt_snoc.
    + rewrite (dedup_step_append _ _ _ E). apply last_opt_snoc2.
Qed.

(** ** Rounding *)

Lemma round_half_even_bounds (x : Q) :
  (Qfloor x <= round_half_even x <= Qfloor x + 1)%Z.
Proof.
  unfold round_half_even.
  destruct (x - inject_Z (Qfloor x) ?= 1 # 2); [| lia | lia].
  destruct (Z.even (Qfloor x)); lia.
Qed.

Lemma round_half_even_mono (x y : Q) :
  x <= y -> (round_half_even x <= round_half_even y)%Z.
Proof.
  intros Hxy. pose proof (Qfloor_resp_le _ _ Hxy) as Hf.
  destruct (Z.eq_dec (Qfloor x) (Qfloor y)) as [E | NE].
  - unfold round_half_even. rewrite E.
    destruct (Qcompare_spec (x - inject_Z (Qfloor y)) (1 # 2)) as [Hx | Hx | Hx];
      destruct (Qcompare_spec (y - inject_Z (Qfloor y)) (1 # 2)) as [Hy | Hy | Hy];
      try (destruct (Z.even (Qfloor y))); try lia; exfalso; lra.
  - pose proof (round_half_even_bounds x). pose proof (round_half_even_bounds y).
    lia.
Qed.

Lemma py_round_mono (x y : Q) (n : nat) :
  x <= y -> py_round x n <= py_round y n.
Proof.
  intros Hxy. unfold py_round, Qle. cbn [Qnum Qden].
  apply Z.mul_le_mono_nonneg_r; [lia |].
  apply round_half_even_mono.
  apply Qmult_le_compat_r; [exact Hxy |].
  unfold Qle, inject_Z. cbn. lia.
Qed.

Lemma py_round_comp (x y : Q) (n : nat) : x == y -> py_round x n = py_round y n.
Proof.
  intros H. unfold py_round. f_equal. apply round_half_even_comp.
  now rewrite H.
Qed.

Lemma py_round_tiny (x : Q) :
  Qabs x <= 1 # 1000000000 -> py_round x 6 == 0.
Proof.
  intros H. apply Qabs_Qle_condition in H. destruct H as [Hlo Hhi].
  pose proof (py_round_mono _ _ 6 Hlo) as H1.
  pose proof (py_round_mono _ _ 6 Hhi) as H2.
  assert (E1 : py_round (- (1 # 1000000000)) 6 == 0) by reflexivity.
  assert (E2 : py_round (1 # 1000000000) 6 == 0) by reflexivity.
  rewrite E1 in H1. rewrite E2 in H2. lra.
Qed.

Lemma py_round_ge_one (x : Q) : 1 <= x -> 1 <= py_round x 6.
Proof.
  intros H. pose proof (py_round_mono _ _ 6 H) as H1.
  assert (E : py_round 1 6 == 1) by reflexivity.
  rewrite E in H1. exact H1.
Qed.

(** ** Note durations in general *)

Lemma durations_span_core (deduped : list RawEvent) (total_beats m : Q) :
  (exists e, In e deduped /\ py_round (beat e) 6 == m) ->
  (forall e, In e deduped ->
             m <= py_round (beat e) 6 /\
             py_round (beat e) 6 <= py_round total_beats 6) ->
  m < py_round total_beats 6 ->
  sumQ (map num_val (note_durations deduped total_beats))
  == py_round total_beats 6 - m.
Proof.
  intros [e0 [He0 Hz0]] Hrange HmT.
  destruct (event_beats_facts deduped total_beats)
    as [Hs [Hfrom [[t [Ht HtT]] Hhas]]].
  unfold note_durations.
  set (L := event_beats deduped total_beats) in *.
  set (T := py_round total_beats 6) in *.
  assert (Hgrid : forall x, In x L -> on_grid x).
  { intros x Hx. destruct (Hfrom x Hx) as [-> | [e [_ ->]]];
      apply py_round_on_grid. }
  assert (Hbound : forall x, In x L -> m <= x /\ x <= T).
  { intros x Hx. destruct (Hfrom x Hx) as [-> | [e [He ->]]].
    - split; [lra | apply Qle_refl].
    - now apply Hrange. }
  destruct (Hhas e0 He0) as [z [Hz Hzeq]].
  assert (Hne : L <> []) by (intros E; rewrite E in Hz; destruct Hz).
  assert (Hhd : hd 0 L == m).
  { destruct (sorted_bounds L Hs z Hz) as [Hle _].
    assert (Hin : In (hd 0 L) L)
      by (destruct L; [congruence | now left]).
    destruct (Hbound _ Hin) as [Hge _]. lra. }
  assert (Hlast : last L 0 == T).
  { destruct (sorted_bounds L Hs t Ht) as [_ Hle].
    destruct (Hbound _ (last_In L 0 Hne)) as [_ Hge]. lra. }
  pose proof (gaps_sum L Hs Hgrid Hne) as Hsum.
  destruct L as [|a [|b l]]; [congruence | |].
  - exfalso. cbn in Hhd, Hlast. lra.
  - pose proof (gaps_nonempty a b l Hs Hgrid) as Hgne.
    destruct (gaps (a :: b :: l)) as [|g gs]; [congruence |].
    rewrite Hsum, Hlast, Hhd. reflexivity.
Qed.

(** X8: when the earliest surviving rounded beat [m] lies below the rounded
    total length and no rounded beat exceeds that length, the note durations
    sum to the rounded total length minus [m]: the durations cover the time
    from the first surviving event to the end, not from beat 0. *)
Theorem durations_span (deduped : list RawEvent) (total_beats m : Q) :
  (exists e, In e deduped /\ py_round (beat e) 6 == m) ->
  (forall e, In e deduped ->
             m <= py_round (beat e) 6 /\
             py_round (beat e) 6 <= py_round total_beats 6) ->
  m < py_round total_beats 6 ->
  sumQ (map num_val (note_durations deduped total_beats))
  == py_round total_beats 6 - m.
Proof. exact (durations_span_core deduped total_beats m). Qed.

Lemma durations_span_witness :
  sumQ (map num_val
          (note_durations
             [mkEvent 4 2 "I" CMajor; mkEvent 6 2 "V" CMajor] 8))
  == py_round 8 6 - 4.
Proof.
  apply (durations_span [mkEvent 4 2 "I" CMajor; mkEvent 6 2 "V" CMajor] 8 4).
  - exists (mkEvent 4 2 "I" CMajor). split; [now left | reflexivity].
  - intros e [<- | [<- | []]]; split; vm_compute; discriminate.
  - reflexivity.
Defined.

(** ** The shift to beat 0 *)

Lemma py_max_cases (a b : Q) :
  (py_max a b = a /\ b <= a) \/ (py_max a b = b /\ a < b).
Proof.
  unfold py_max. destruct (Qltb a b) eqn:E.
  - right. split; [reflexivity | now apply Qltb_lt].
  - left. split; [reflexivity | now apply Qltb_false].
Qed.

(** X9: on a non-empty list the shift succeeds.  Every event keeps its
    measure, symbol and key, all beats are lowered by one common amount [s]
    (the first beat, or nothing when the first beat is within 1e-9 of 0), so
    the first event ends within 1e-9 of beat 0; the new total length is the
    old one lowered by [s], or 1 when that is smaller.  On an empty list the
    look-up of the first event raises. *)
Theorem shift_to_zero_spec (e0 : RawEvent) (rest : list RawEvent)
    (total_beats : Q) :
  (exists s shifted total',
      shift_to_zero (e0 :: rest) total_beats = Ok (shifted, total') /\
      (s = beat e0 \/ (s = 0 /\ Qabs (beat e0) <= 1 # 1000000000)) /\
      Forall2 (fun e e' => beat e' == beat e - s /\ measure e' = measure e /\
                           roman e' = roman e /\ key e' = key e)
        (e0 :: rest) shifted /\
      Qabs (beat (hd e0 shifted)) <= 1 # 1000000000 /\
      1 <= total' /\ total_beats - s <= total' /\
      (total' = 1 \/ total' = total_beats - s \/ total' = total_beats)) /\
  shift_to_zero [] total_beats = Raise IndexError.
Proof.
  split; [| reflexivity]. unfold shift_to_zero.
  destruct (Qltb (1 # 1000000000) (Qabs (beat e0))) eqn:E.
  - exists (beat e0). do 2 eexists. split; [reflexivity |].
    split; [now left |]. split; [| split; [| split; [| split]]].
    + generalize (e0 :: rest) as l.
      induction l as [|x l IH]; cbn [map]; constructor; [| exact IH].
      cbn. repeat split; reflexivity.
    + cbn [map hd shift_event beat].
      assert (Ez : Qabs (beat e0 - beat e0) == 0).
      { rewrite <- Qabs_wd with (x := 0); [reflexivity | ring]. }
      rewrite Ez. discriminate.
    + apply py_max_lower.
    + destruct (py_max_cases (total_beats - beat e0) 1) as [[-> H] | [-> H]];
        lra.
    + destruct (py_max_cases (total_beats - beat e0) 1) as [[-> H] | [-> H]];
        [right; now left | now left].
  - apply Qltb_false in E. exists 0. do 2 eexists. split; [reflexivity |].
    split; [right; now split |]. split; [| split; [| split; [| split]]].
    + generalize (e0 :: rest) as l.
      induction l as [|x l IH]; constructor; [| exact IH].
      repeat split; try reflexivity. ring.
    + exact E.
    + apply py_max_lower.
    + destruct (py_max_cases total_beats 1) as [[-> H] | [-> H]]; lra.
    + destruct (py_max_cases total_beats 1) as [[-> H] | [-> H]];
        [right; now right | now left].
Qed.

(** ** The emitted chord operations *)

Lemma key_eq_true (a b : KeyState) : key_eq a b = true <-> a = b.
Proof.
  unfold key_eq. rewrite andb_true_iff, !String.eqb_eq.
  destruct a, b; cbn. split; [intros [-> ->]; reflexivity |].
  intros H; injection H as -> ->. now split.
Qed.

Lemma key_eta (k : KeyState) : mkKey (root k) (scale k) = k.
Proof. now destruct k. Qed.

(** The loop, which appends to the list it has, emits what [emitted] lists
    front to back. *)
Lemma emit_loop_emitted (evs : list RawEvent) (prev : KeyState)
    (acc : list ChordEvent) :
  emit_loop (prev, acc) evs =
  (rest <- emitted prev evs ;; Ok (fst rest, acc ++ snd rest)).
Proof.
  revert prev acc. induction evs as [|ev evs IH]; intros prev acc.
  - cbn. now rewrite app_nil_r.
  - cbn [emit_loop emitted]. unfold emit_step.
    destruct (resolve_applied (roman ev) (key ev)) as [[c k] | e];
      [| reflexivity].
    cbn [bind]. destruct (negb (key_eq k prev)); cbn [bind]; rewrite IH.
    + destruct (emitted k evs) as [[k' rest] | e]; [| reflexivity].
      cbn [bind fst snd]. now rewrite <- !app_assoc.
    + destruct (emitted prev evs) as [[k' rest] | e]; [| reflexivity].
      cbn [bind fst snd]. now rewrite <- !app_assoc.
Qed.

Lemma emit_chord_events_emitted (initial_key : KeyState)
    (deduped : list RawEvent) :
  emit_chord_events initial_key deduped =
  (rest <- emitted initial_key deduped ;; Ok (snd rest)).
Proof.
  unfold emit_chord_events. rewrite emit_loop_emitted.
  destruct (emitted initial_key deduped) as [[k rest] | e]; reflexivity.
Qed.

Lemma emitted_ok (evs : list RawEvent) (prev : KeyState) :
  (forall e, In e evs -> valid_key (key e)) ->
  exists k ops, emitted prev evs = Ok (k, ops).
Proof.
  revert prev. induction evs as [|ev evs IH]; intros prev Hv.
  - now exists prev, [].
  - cbn [emitted].
    destruct (resolve_applied_valid_core (roman ev) (key ev) (Hv ev (or_introl eq_refl)))
      as [c [k [Hr _]]].
    rewrite Hr. cbn [bind].
    assert (Hv' : forall e, In e evs -> valid_key (key e))
      by (intros e He; apply Hv; now right).
    destruct (negb (key_eq k prev)).
    + destruct (IH k Hv') as [k' [ops Hops]]. rewrite Hops. cbn [bind].
      now do 2 eexists.
    + destruct (IH prev Hv') as [k' [ops Hops]]. rewrite Hops. cbn [bind].
      now do 2 eexists.
Qed.

Lemma emitted_facts (evs : list RawEvent) (prev k' : KeyState)
    (ops : list ChordEvent) :
  emitted prev evs = Ok (k', ops) ->
  Forall2 (fun ev t =>
             resolve_applied (roman ev) (key ev) = Ok (snd t, fst (fst t)) /\
             snd (fst t) = int_if_whole (py_round (beat ev) 6))
    evs (replay prev ops) /\
  keyed_ok prev ops /\ final_key prev ops = k'.
Proof.
  revert prev k' ops. induction evs as [|ev evs IH]; intros prev k' ops H.
  - cbn in H. injection H as <- <-. cbn. repeat split. constructor.
  - cbn [emitted] in H.
    destruct (resolve_applied (roman ev) (key ev)) as [[c k] | e] eqn:Hr;
      [| discriminate].
    cbn [bind] in H. destruct (key_eq k prev) eqn:Hk; cbn [negb] in H.
    + apply key_eq_true in Hk. subst k.
      destruct (emitted prev evs) as [[k2 rest] | e] eqn:Hrest; [| discriminate].
      cbn [bind fst snd] in H. injection H as <- <-.
      destruct (IH _ _ _ Hrest) as [H1 [H2 H3]].
      cbn [replay keyed_ok final_key]. split; [| split; assumption].
      constructor; [| exact H1]. cbn [fst snd]. now split.
    + destruct (emitted k evs) as [[k2 rest] | e] eqn:Hrest; [| discriminate].
      cbn [bind fst snd] in H. injection H as <- <-.
      destruct (IH _ _ _ Hrest) as [H1 [H2 H3]].
      cbn [replay keyed_ok final_key]. rewrite key_eta.
      split; [| split; [split; [| split] |]].
      * constructor; [| exact H1]. cbn [fst snd]. now split.
      * intros E. subst k. rewrite (proj2 (key_eq_true prev prev) eq_refl) in Hk.
        discriminate.
      * now do 2 eexists.
      * exact H2.
      * exact H3.
Qed.

(** X10: when the keys of the events spell pitch classes and their beats
    are finite floats (within [FLOAT_SAFE]; on an infinite or NaN beat
    [int(beat)] raises) the emitting loop never raises.  Reading its
    operations from the initial key gives, event
    by event, one [setRoman] whose symbol is the chord part of the event,
    whose beat is the event's rounded beat, and whose key in force is the
    event's resolved key.  Every [setKey] it emits changes the key in force
    and is directly followed by the [setRoman] of the same beat. *)
Theorem emit_chord_events_replay (initial_key : KeyState)
    (deduped : list RawEvent) :
  (forall e, In e deduped -> valid_key (key e)) ->
  (forall e, In e deduped -> float_safe (beat e)) ->
  exists ops,
    emit_chord_events initial_key deduped = Ok ops /\
    Forall2 (fun ev t =>
               resolve_applied (roman ev) (key ev) = Ok (snd t, fst (fst t)) /\
               snd (fst t) = int_if_whole (py_round (beat ev) 6))
      deduped (replay initial_key ops) /\
    keyed_ok initial_key ops.
Proof.
  intros Hv _. rewrite emit_chord_events_emitted.
  destruct (emitted_ok deduped initial_key Hv) as [k [ops Hops]].
  rewrite Hops. cbn [bind snd]. exists ops. split; [reflexivity |].
  destruct (emitted_facts _ _ _ _ Hops) as [H1 [H2 _]]. now split.
Qed.

Lemma emit_chord_events_replay_witness :
  exists ops,
    emit_chord_events CMajor
      [mkEvent 0 1 "I" CMajor; mkEvent 2 1 "V7/V" CMajor;
       mkEvent 4 2 "V" CMajor] = Ok ops /\
    keyed_ok CMajor ops.
Proof.
  destruct (emit_chord_events_replay CMajor
              [mkEvent 0 1 "I" CMajor; mkEvent 2 1 "V7/V" CMajor;
               mkEvent 4 2 "V" CMajor]) as [ops [H1 [_ H2]]].
  - intros e He. exists 0%Z. split; [| lia].
    destruct He as [<- | [<- | [<- | []]]]; reflexivity.
  - intros e He. unfold float_safe, Qle.
    destruct He as [<- | [<- | [<- | []]]]; vm_compute; discriminate.
  - exists ops. now split.
Defined.

(** ** The builder as a whole *)

Lemma supported_events_In (l : list RawEvent) (e : RawEvent) :
  In e (supported_events l) -> In e l.
Proof. unfold supported_events. intros H. now apply filter_In in H. Qed.

Lemma drop_short_shape (a : RawEvent) (l : list RawEvent)
    (total_beats min_duration : Q) :
  exists l', drop_short (a :: l) total_beats min_duration = a :: l' /\
             forall e, In e l' -> In e l.
Proof.
  unfold drop_short.
  destruct (Qltb 0 min_duration && (1 <? List.length (a :: l))%nat).
  - rewrite (short_fold _ _ _ a).
    + eexists. split; [reflexivity |].
      intros e He. apply in_map_iff in He. destruct He as [i [<- Hi]].
      apply filter_In in Hi. destruct Hi as [Hi _]. apply in_seq in Hi.
      cbn [List.length] in Hi.
      destruct i as [|i]; [lia |]. cbn [nth]. apply nth_In. lia.
    + intros i Hi. apply in_seq in Hi. cbn [List.length] in *. lia.
  - exists l. split; [reflexivity | tauto].
Qed.

Lemma gaps_positive (l : list Q) : Forall (fun n => 0 < num_val n) (gaps l).
Proof.
  induction l as [|a l IH]; [constructor |].
  destruct l as [|b l]; [constructor |].
  cbn [gaps]. destruct (Qltb 0 (py_round (b - a) 6)) eqn:E; [| exact IH].
  constructor; [| exact IH].
  rewrite int_if_whole_val. now apply Qltb_lt.
Qed.

Lemma note_durations_positive (deduped : list RawEvent) (total_beats : Q) :
  1 <= total_beats ->
  note_durations deduped total_beats <> [] /\
  Forall (fun n => 0 < num_val n) (note_durations deduped total_beats).
Proof.
  intros HT. unfold note_durations.
  pose proof (gaps_positive (event_beats deduped total_beats)) as Hg.
  destruct (gaps (event_beats deduped total_beats)) as [|g gs].
  - split; [discriminate |]. constructor; [| constructor].
    cbn [num_val]. pose proof (py_round_ge_one _ HT). lra.
  - split; [discriminate | exact Hg].
Qed.

Lemma build_tracks_notes (preset : string) (bass_preset : option string)
    (octave voices : Z) (sustain : Q) (durations : list num) (t : Track) :
  In t (build_tracks preset bass_preset octave voices sustain durations) ->
  map note_duration (notes t) = durations.
Proof.
  unfold build_tracks. intros H.
  assert (E1 : map note_duration (map CurrentChord durations) = durations)
    by (rewrite map_map; cbn; apply map_id).
  assert (E2 : map note_duration (map (ChordTone 0) durations) = durations)
    by (rewrite map_map; cbn; apply map_id).
  destruct bass_preset as [[|c bp]|]; cbn in H;
    repeat (destruct H as [<- | H]; [cbn [notes]; assumption |]);
    destruct H.
Qed.

Lemma shift_to_zero_ok (d0 : RawEvent) (ds : list RawEvent) (total_beats : Q) :
  exists s0 S' T',
    shift_to_zero (d0 :: ds) total_beats = Ok (s0 :: S', T') /\
    1 <= T' /\ roman s0 = roman d0 /\
    Qabs (beat s0) <= 1 # 1000000000 /\
    forall e', In e' (s0 :: S') ->
               exists e, In e (d0 :: ds) /\ key e' = key e /\
                         roman e' = roman e /\
                         beat e' - beat s0 == beat e - beat d0 /\
                         T' - beat e' >= total_beats - beat e.
Proof.
  unfold shift_to_zero.
  destruct (Qltb (1 # 1000000000) (Qabs (beat d0))) eqn:E.
  - cbn [map]. do 3 eexists. split; [reflexivity |].
    split; [apply py_max_lower |]. split; [reflexivity |]. split.
    + cbn [shift_event beat].
      assert (Ez : Qabs (beat d0 - beat d0) == 0).
      { rewrite <- Qabs_wd with (x := 0); [reflexivity | ring]. }
      rewrite Ez. discriminate.
    + intros e' He'. change (shift_event (beat d0) d0 :: map (shift_event (beat d0)) ds)
        with (map (shift_event (beat d0)) (d0 :: ds)) in He'.
      apply in_map_iff in He'. destruct He' as [e [<- He]].
      exists e. split; [exact He |]. cbn [shift_event key roman beat].
      split; [reflexivity |]. split; [reflexivity |]. split; [ring |].
      destruct (py_max_cases (total_beats - beat d0) 1) as [[-> H] | [-> H]];
        lra.
  - apply Qltb_false in E. do 3 eexists. split; [reflexivity |].
    split; [apply py_max_lower |]. split; [reflexivity |].
    split; [exact E |].
    intros e' He'. exists e'. split; [exact He' |].
    split; [reflexivity |]. split; [reflexivity |]. split; [reflexivity |].
    destruct (py_max_cases total_beats 1) as [[-> H] | [-> H]]; lra.
Qed.

Lemma build_unfold (title : string) (initial_key : KeyState)
    (events : list RawEvent) (total_beats bpm : Q) (loop : bool)
    (preset : string) (bass_preset : option string) (octave voices : Z)
    (sustain min_duration : Q) (S : list RawEvent) (T' : Q) :
  events <> [] ->
  shift_to_zero (dedup events) total_beats = Ok (S, T') ->
  (forall e, In e S -> valid_key (key e)) ->
  (supported_events S = [] /\
   build_orbital_json title initial_key events total_beats bpm loop preset
     bass_preset octave voices sustain min_duration
   = Ok (skip_warnings S,
         _empty_json title initial_key bpm loop preset bass_preset octave
           voices sustain T')) \/
  (supported_events S <> [] /\
   exists ops,
     emit_chord_events initial_key
       (drop_short (supported_events S) T' min_duration) = Ok ops /\
     build_orbital_json title initial_key events total_beats bpm loop preset
       bass_preset octave voices sustain min_duration
     = Ok (skip_warnings S,
           mkDoc title
             (mkScore bpm (total_beats_val T') loop initial_key ops
                (build_tracks preset bass_preset octave voices sustain
                   (note_durations
                      (drop_short (supported_events S) T' min_duration)
                      T'))))).
Proof.
  intros Hne Hshift Hv. unfold build_orbital_json.
  destruct events as [|e0 evs]; [congruence |].
  rewrite Hshift. cbn [bind].
  destruct (supported_events S) as [|a l] eqn:Hsup.
  - left. now split.
  - right. split; [discriminate |].
    assert (Hvd : forall e, In e (drop_short (a :: l) T' min_duration) ->
                            valid_key (key e)).
    { intros e He. apply Hv. apply supported_events_In. rewrite Hsup.
      destruct (drop_short_shape a l T' min_duration) as [l' [El' Hl']].
      rewrite El' in He. destruct He as [<- | He]; [now left |].
      right. now apply Hl'. }
    rewrite emit_chord_events_emitted.
    destruct (emitted_ok _ initial_key Hvd) as [k [ops Hops]].
    rewrite Hops. cbn [bind snd]. exists ops. split; [reflexivity |].
    now rewrite key_eta.
Qed.

Lemma dedup_cons_shape (events : list RawEvent) :
  events <> [] -> exists d0 ds, dedup events = d0 :: ds.
Proof.
  intros H. pose proof (dedup_nonempty events H) as Hd.
  destruct (dedup events) as [|d0 ds]; [congruence |]. now exists d0, ds.
Qed.

(** X11: when the keys of the events spell pitch classes, and the beats of
    the events and the total length are finite floats that stay finite under
    the differences the builder takes (within [FLOAT_SAFE]; on an infinite
    or NaN beat [int(beat)] raises), the builder never raises.  The
    document it returns carries the given title, tempo, loop
    flag and initial key, its total length is at least one beat, it has at
    most two tracks, and every track has at least one note and only notes of
    positive duration, the same durations in every track. *)
Theorem build_orbital_json_total (title : string) (initial_key : KeyState)
    (events : list RawEvent) (total_beats bpm : Q) (loop : bool)
    (preset : string) (bass_preset : option string) (octave voices : Z)
    (sustain min_duration : Q) :
  (forall e, In e events -> valid_key (key e)) ->
  (forall e, In e events -> float_safe (beat e)) ->
  float_safe total_beats ->
  exists warnings doc,
    build_orbital_json title initial_key events total_beats bpm loop preset
      bass_preset octave voices sustain min_duration
    = Ok (warnings, doc) /\
    name doc = title /\
    doc_bpm doc = bpm /\
    doc_loop doc = loop /\
    score_key (scoreTracks doc) = initial_key /\
    1 <= num_val (totalBeats (scoreTracks doc)) /\
    (List.length (tracks (scoreTracks doc)) <= 2)%nat /\
    exists durations,
      durations <> [] /\ Forall (fun n => 0 < num_val n) durations /\
      forall t, In t (tracks (scoreTracks doc)) ->
                map note_duration (notes t) = durations.
Proof.
  intros Hv _ _. destruct events as [|ev0 evs] eqn:Hev.
  - do 2 eexists. split; [reflexivity |]. cbn.
    rewrite key_eta. repeat split; try lia.
    + pose proof (py_max_lower (py_round total_beats 1) 4). lra.
    + exists [Int 1]. split; [discriminate |].
      split; [repeat constructor | tauto].
  - rewrite <- Hev in *.
    assert (Hne : events <> []) by (rewrite Hev; discriminate).
    destruct (dedup_cons_shape events Hne) as [d0 [ds Hd]].
    destruct (shift_to_zero_ok d0 ds total_beats)
      as [s0 [S' [T' [Hshift [HT [_ [_ Hfrom]]]]]]].
    rewrite <- Hd in Hshift.
    assert (HvS : forall e, In e (s0 :: S') -> valid_key (key e)).
    { intros e He. destruct (Hfrom e He) as [e1 [He1 [Hk _]]].
      unfold valid_key, semitone. rewrite Hk. apply Hv.
      apply dedup_In. now rewrite Hd. }
    destruct (build_unfold title initial_key events total_beats bpm loop
                preset bass_preset octave voices sustain min_duration
                _ _ Hne Hshift HvS) as [[_ Hb] | [_ [ops [_ Hb]]]].
    + rewrite Hb. do 2 eexists. split; [reflexivity |]. cbn.
      rewrite key_eta. repeat split; try lia.
      * pose proof (py_max_lower (py_round T' 1) 4). lra.
      * exists [Int 1]. split; [discriminate |].
        split; [repeat constructor | tauto].
    + rewrite Hb. do 2 eexists. split; [reflexivity |].
      unfold doc_bpm, doc_loop.
      cbn [name scoreTracks score_key totalBeats tracks].
      split; [reflexivity |]. split; [reflexivity |]. split; [reflexivity |].
      split; [reflexivity |]. split.
      * unfold total_beats_val. rewrite int_if_whole_val.
        now apply py_round_ge_one.
      * split.
        -- unfold build_tracks. destruct bass_preset as [[|c bp]|]; cbn; lia.
        -- exists (note_durations
                     (drop_short (supported_events (s0 :: S')) T' min_duration)
                     T').
           split; [| split].
           ++ apply (note_durations_positive _ T' HT).
           ++ apply (note_durations_positive _ T' HT).
           ++ intros t Ht. now apply build_tracks_notes in Ht.
Qed.

Lemma build_orbital_json_total_witness :
  exists warnings doc,
    build_orbital_json "t" CMajor
      [mkEvent 0 1 "I" CMajor; mkEvent 2 1 "V7/V" CMajor] 4 72 true "pad"
      (Some "organ") 3 6 (85 # 100) (1 # 4)
    = Ok (warnings, doc) /\
    1 <= num_val (totalBeats (scoreTracks doc)).
Proof.
  destruct (build_orbital_json_total "t" CMajor
              [mkEvent 0 1 "I" CMajor; mkEvent 2 1 "V7/V" CMajor] 4 72 true
              "pad" (Some "organ") 3 6 (85 # 100) (1 # 4))
    as [w [doc [H1 [_ [_ [_ [_ [H2 _]]]]]]]].
  - intros e He. exists 0%Z. split; [| lia].
    destruct He as [<- | [<- | []]]; reflexivity.
  - intros e He. unfold float_safe, Qle.
    destruct He as [<- | [<- | []]]; vm_compute; discriminate.
  - unfold float_safe, Qle. vm_compute. discriminate.
  - exists w, doc. now split.
Defined.

(** X12: for events sorted by beat, none later than the total length, whose
    keys spell pitch classes, and such that the first event left by the
    pivot-chord pass is a supported symbol, the builder returns a document
    with at least one track in which the note durations of every track sum
    to [totalBeats]. *)
Theorem build_durations_cover (title : string) (initial_key : KeyState)
    (events : list RawEvent) (total_beats bpm : Q) (loop : bool)
    (preset : string) (bass_preset : option string) (octave voices : Z)
    (sustain min_duration : Q) :
  sorted_by_beat events ->
  (forall e, In e events -> beat e <= total_beats) ->
  (forall e, In e events -> valid_key (key e)) ->
  (exists d0 ds, dedup events = d0 :: ds /\
                 is_supported_roman (roman d0) = true) ->
  exists warnings doc,
    build_orbital_json title initial_key events total_beats bpm loop preset
      bass_preset octave voices sustain min_duration
    = Ok (warnings, doc) /\
    tracks (scoreTracks doc) <> [] /\
    forall t, In t (tracks (scoreTracks doc)) ->
              sumQ (map num_val (map note_duration (notes t)))
              == num_val (totalBeats (scoreTracks doc)).
Proof.
  intros Hsorted Hle Hv [d0 [ds [Hd Hsup0]]].
  assert (Hne : events <> []).
  { intros E. rewrite E in Hd. discriminate. }
  destruct (dedup_fold_sorted events [] Hsorted I) as [Hds _].
  fold (dedup events) in Hds. rewrite Hd in Hds.
  assert (Hmin : forall e, In e (d0 :: ds) -> beat d0 <= beat e).
  { intros e [<- | He]; [apply Qle_refl |].
    inversion Hds as [|a l Hl Ha]; subst. rewrite Forall_forall in Ha.
    now apply Ha. }
  destruct (shift_to_zero_ok d0 ds total_beats)
    as [s0 [S' [T' [Hshift [HT [Hr0 [Hs0 Hfrom]]]]]]].
  rewrite <- Hd in Hshift.
  assert (HvS : forall e, In e (s0 :: S') -> valid_key (key e)).
  { intros e He. destruct (Hfrom e He) as [e1 [He1 [Hk _]]].
    unfold valid_key, semitone. rewrite Hk. apply Hv.
    apply dedup_In. now rewrite Hd. }
  assert (Hbeats : forall e, In e (s0 :: S') ->
                             beat s0 <= beat e /\ beat e <= T').
  { intros e He. destruct (Hfrom e He) as [e1 [He1 [_ [_ [Hb Ht]]]]].
    pose proof (Hmin e1 He1).
    assert (beat e1 <= total_beats)
      by (apply Hle; apply dedup_In; now rewrite Hd).
    split; lra. }
  destruct (build_unfold title initial_key events total_beats bpm loop
              preset bass_preset octave voices sustain min_duration
              _ _ Hne Hshift HvS) as [[Hnil _] | [_ [ops [_ Hb]]]].
  { exfalso. unfold supported_events in Hnil. cbn [filter] in Hnil.
    rewrite Hr0, Hsup0 in Hnil. discriminate. }
  rewrite Hb. do 2 eexists. split; [reflexivity |].
  cbn [scoreTracks tracks totalBeats]. split.
  { unfold build_tracks. destruct bass_preset as [[|c bp]|]; discriminate. }
  intros t Ht. rewrite (build_tracks_notes _ _ _ _ _ _ _ Ht).
  unfold total_beats_val. rewrite int_if_whole_val.
  assert (Hsupp : supported_events (s0 :: S')
                  = s0 :: supported_events S').
  { unfold supported_events. cbn [filter]. now rewrite Hr0, Hsup0. }
  rewrite Hsupp.
  destruct (drop_short_shape s0 (supported_events S') T' min_duration)
    as [l' [El' Hl']].
  rewrite El'.
  assert (HinS : forall e, In e (s0 :: l') -> In e (s0 :: S')).
  { intros e [<- | He]; [now left |].
    right. apply supported_events_In. now apply Hl'. }
  assert (Hlow : - (1 # 1000000000) <= beat s0).
  { apply Qabs_Qle_condition in Hs0. tauto. }
  rewrite (durations_span_core (s0 :: l') T' 0).
  - ring.
  - exists s0. split; [now left | now apply py_round_tiny].
  - intros e He. destruct (Hbeats e (HinS e He)) as [H1 H2]. split.
    + assert (E : py_round (- (1 # 1000000000)) 6 == 0) by reflexivity.
      rewrite <- E. apply py_round_mono. lra.
    + now apply py_round_mono.
  - pose proof (py_round_ge_one _ HT). lra.
Qed.

Lemma build_durations_cover_witness :
  exists warnings doc,
    build_orbital_json "t" CMajor
      [mkEvent 4 2 "I" CMajor; mkEvent 6 2 "N7" CMajor;
       mkEvent 7 2 "V7/V" CMajor] 12 72 true "pad"
      (Some "organ") 3 6 (85 # 100) (1 # 4)
    = Ok (warnings, doc) /\
    tracks (scoreTracks doc) <> [].
Proof.
  destruct (build_durations_cover "t" CMajor
              [mkEvent 4 2 "I" CMajor; mkEvent 6 2 "N7" CMajor;
               mkEvent 7 2 "V7/V" CMajor] 12 72 true
              "pad" (Some "organ") 3 6 (85 # 100) (1 # 4))
    as [w [doc [H1 [H2 _]]]].
  - unfold sorted_by_beat, beat_le. repeat constructor; cbn; lra.
  - intros e He.
    destruct He as [<- | [<- | [<- | []]]]; cbn; lra.
  - intros e He. exists 0%Z. split; [| lia].
    destruct He as [<- | [<- | [<- | []]]]; reflexivity.
  - do 2 eexists. split; [vm_compute; reflexivity | reflexivity].
  - exists w, doc. now split.
Defined.

(** ** Filters *)

(** X13: [filter_by_section] returns the events and the total length
    unchanged when no section name equals the given name up to case, and
    when the section found holds none of the events' measures.  When the
    measures of the section found are exactly those from [a] to [b], it
    returns what [filter_by_measures] returns for the range [a] to [b]. *)
Theorem filter_by_section_spec (events : list RawEvent) (section_name : string)
    (form_sections : list (string * list Z)) (total_beats : Q) :
  ((forall k ms, In (k, ms) form_sections ->
                 lower k <> lower section_name) ->
   filter_by_section events section_name form_sections total_beats
   = (events, total_beats)) /\
  (forall k ms,
      find_section form_sections section_name = Some (k, ms) ->
      In (k, ms) form_sections /\ lower k = lower section_name /\
      ((forall e, In e events -> ~ In (measure e) ms) ->
       filter_by_section events section_name form_sections total_beats
       = (events, total_beats)) /\
      (forall a b,
          (forall m, In m ms <-> (a <= m <= b)%Z) ->
          filter_by_section events section_name form_sections total_beats
          = filter_by_measures events a b total_beats)).
Proof.
  split.
  - intros Hno. unfold filter_by_section.
    assert (E : find_section form_sections section_name = None).
    { induction form_sections as [|[k ms] rest IH]; [reflexivity |].
      cbn [find_section].
      destruct (String.eqb (lower k) (lower section_name)) eqn:Ek.
      - apply String.eqb_eq in Ek. exfalso.
        apply (Hno k ms); [now left | exact Ek].
      - apply IH. intros k' ms' Hin. apply (Hno k' ms'). now right. }
    now rewrite E.
  - intros k ms Hfind.
    assert (Hin : In (k, ms) form_sections /\ lower k = lower section_name).
    { clear -Hfind. induction form_sections as [|[k' ms'] rest IH];
        [discriminate |].
      cbn [find_section] in Hfind.
      destruct (String.eqb (lower k') (lower section_name)) eqn:Ek.
      - injection Hfind as -> ->. apply String.eqb_eq in Ek.
        split; [now left | exact Ek].
      - destruct (IH Hfind) as [H1 H2]. split; [now right | exact H2]. }
    split; [apply Hin |]. split; [apply Hin |].
    unfold filter_by_section. rewrite Hfind. split.
    + intros Hnone.
      assert (E : filter (in_measures ms) events = []).
      { clear -Hnone. induction events as [|e l IH]; [reflexivity |].
        cbn [filter].
        destruct (in_measures ms e) eqn:Em.
        - exfalso. unfold in_measures in Em. apply existsb_exists in Em.
          destruct Em as [m [Hm Heq]]. apply Z.eqb_eq in Heq.
          apply (Hnone e); [now left | now rewrite Heq].
        - apply IH. intros e' He'. apply Hnone. now right. }
      now rewrite E.
    + intros a b Hrange. unfold filter_by_measures.
      rewrite (filter_ext (in_measures ms) (in_range a b)); [reflexivity |].
      intros e. unfold in_measures, in_range.
      destruct (existsb (Z.eqb (measure e)) ms) eqn:Em.
      * apply existsb_exists in Em. destruct Em as [m [Hm Heq]].
        apply Z.eqb_eq in Heq. subst m. apply Hrange in Hm.
        symmetry. apply andb_true_iff. rewrite !Z.leb_le. lia.
      * symmetry. apply not_true_iff_false. intros H.
        apply andb_true_iff in H. rewrite !Z.leb_le in H.
        assert (Hm : In (measure e) ms) by (apply Hrange; lia).
        assert (Et : existsb (Z.eqb (measure e)) ms = true).
        { apply existsb_exists. exists (measure e).
          split; [exact Hm | apply Z.eqb_refl]. }
        congruence.
Qed.

Lemma filter_idem {A : Type} (f : A -> bool) (l : list A) :
  filter f (filter f l) = filter f l.
Proof.
  induction l as [|x l IH]; [reflexivity |].
  cbn [filter]. destruct (f x) eqn:E; [| exact IH].
  cbn [filter]. now rewrite E, IH.
Qed.

Lemma filter_sorted {A : Type} (R : A -> A -> Prop) (f : A -> bool)
    (l : list A) :
  StronglySorted R l -> StronglySorted R (filter f l).
Proof.
  induction l as [|x l IH]; intros Hs; [constructor |].
  inversion Hs as [|x' l' Hl Hx]; subst. cbn [filter].
  destruct (f x); [| now apply IH].
  constructor; [now apply IH |].
  rewrite Forall_forall in *. intros y Hy. apply filter_In in Hy.
  now apply Hx.
Qed.

(** X14: [filter_by_measures] never turns a non-empty event list into an
    empty one, it keeps events sorted by beat sorted, and filtering its own
    result again with the same range returns that result, events and total
    length alike. *)
Theorem filter_by_measures_stable (events : list RawEvent) (start_m end_m : Z)
    (total_beats : Q) :
  let res := filter_by_measures events start_m end_m total_beats in
  (events <> [] -> fst res <> []) /\
  (sorted_by_beat events -> sorted_by_beat (fst res)) /\
  filter_by_measures (fst res) start_m end_m (snd res) = res.
Proof.
  intros res. subst res. unfold filter_by_measures.
  destruct (filter (in_range start_m end_m) events) as [|f rest] eqn:Ef.
  - cbn [fst snd]. rewrite Ef. repeat split; tauto.
  - assert (Hl : exists lst, last_opt (f :: rest) = Some lst).
    { destruct (snoc_cases (f :: rest)) as [E | [X [p E]]]; [discriminate |].
      rewrite E. exists p. apply last_opt_snoc. }
    destruct Hl as [lst Hl]. rewrite Hl. cbn [fst snd].
    rewrite <- Ef, filter_idem, Ef, Hl.
    split; [intros _; discriminate |]. split; [| reflexivity].
    intros Hs. rewrite <- Ef. now apply filter_sorted.
Qed.

(** ** Tokens the parser accepts and symbols the builder supports *)

Lemma strip_annotation_head (c : ascii) (rest : string) :
  Ascii.eqb c "[" = false -> PyStr.is_space c = false ->
  exists r, strip_annotation (String c rest) = String c r.
Proof.
  intros Hb Hs. unfold strip_annotation. cbn [PyStr.index_of]. rewrite Hb.
  destruct (PyStr.index_of "[" rest) as [i|].
  - cbn [PyStr.take]. unfold PyStr.strip. cbn [PyStr.lstrip]. rewrite Hs.
    rewrite (rstrip_cons _ _ Hs). now eexists.
  - now eexists.
Qed.

Lemma chord_start_plain (c : ascii) :
  PyStr.chr_in c ["I"; "i"; "V"; "v"; "b"; "#"]%char = true ->
  Ascii.eqb c "[" = false /\ PyStr.is_space c = false /\
  Ascii.eqb c "N" = false /\ Ascii.eqb c "G" = false /\
  Ascii.eqb c "F" = false.
Proof. all_chars c. Qed.

Lemma supported_of_head (t : string) (c : ascii) (r : string) :
  strip_annotation t = String c r ->
  Ascii.eqb c "N" = false -> Ascii.eqb c "G" = false ->
  Ascii.eqb c "F" = false ->
  is_supported_roman t =
  if Ascii.eqb c "I" && PyStr.startswith r "t"
  then String.eqb (String c r) "It6"
  else if PyStr.chr_in c ["b"; "#"]%char
       then match r with
            | String c1 _ => PyStr.chr_in c1 ["I"; "i"; "V"; "v"]%char
            | EmptyString => false
            end
       else PyStr.chr_in c ["I"; "i"; "V"; "v"]%char.
Proof.
  intros Hst HN HG HF. rewrite is_supported_roman_strip, Hst.
  cbv beta iota zeta.
  change "N"%string with (chr "N"). rewrite startswith_chr, HN.
  cbn [PyStr.startswith]. rewrite HG, HF. cbn [andb orb].
  rewrite !orb_false_r.
  match goal with |- (if ?b then _ else _) = _ => destruct b eqn:E end.
  - apply andb_prop in E. destruct E as [Ec _].
    apply Ascii.eqb_eq in Ec. subst c.
    unfold PyStr.str_in, AUG_SIXTHS. cbn [existsb].
    change (String.eqb (String "I" r) "Ger6/5") with false.
    change (String.eqb (String "I" r) "Ger7") with false.
    change (String.eqb (String "I" r) "Fr4/3") with false.
    change (String.eqb (String "I" r) "Fr6") with false.
    now rewrite !orb_false_r.
  - destruct (PyStr.chr_in c ["b"; "#"]%char); [| reflexivity].
    destruct r as [|c1 r']; [reflexivity |].
    cbn [String.length PyStr.at_ String.get Nat.ltb Nat.leb andb].
    apply upper_IV.
Qed.

(** X15: a token that [looks_like_chord] accepts and that starts with [N] is
    [N] or [N6], so [_skip_reason] never gives the extended-Neapolitan
    reason for a token of the parser.  Such a token is unsupported only when,
    with its annotation stripped, it starts with [It] without being [It6], or
    starts with [b] or [#] without a following I or V in either case. *)
Theorem chord_token_support (t : string) :
  looks_like_chord t = true ->
  (PyStr.startswith t "N" = true -> t = "N" \/ t = "N6") /\
  PyStr.startswith (_skip_reason t) "extended Neapolitan" = false /\
  (is_supported_roman t = false ->
   exists c r,
     strip_annotation t = String c r /\
     ((c = "I"%char /\ PyStr.startswith r "t" = true /\
       String c r <> "It6") \/
      ((c = "b"%char \/ c = "#"%char) /\
       forall c1 r', r = String c1 r' ->
                     ~ In c1 ["I"; "i"; "V"; "v"]%char))).
Proof.
  intros Hc. destruct t as [|c rest]; [discriminate |].
  cbn [looks_like_chord] in Hc.
  destruct (PyStr.str_in (String c rest)
              ["N"; "N6"; "It6"; "Ger6/5"; "Ger7"; "Fr4/3"; "Fr6"; "vo"; "vo6"])
    eqn:Hnamed.
  - apply str_in_In in Hnamed. cbn [In] in Hnamed.
    repeat (destruct Hnamed as [Hn | Hnamed];
            [rewrite <- Hn;
             split; [cbn; first [discriminate | intros _; tauto] |
                     split; [reflexivity | discriminate]] |]).
    destruct Hnamed.
  - destruct (chord_start_plain c Hc) as [Hb [Hs [HN [HG HF]]]].
    assert (HstartN : PyStr.startswith (String c rest) "N" = false).
    { change "N"%string with (chr "N"). now rewrite startswith_chr. }
    split; [rewrite HstartN; discriminate |]. split.
    + unfold _skip_reason. rewrite HstartN. cbn [andb].
      destruct ((PyStr.startswith (String c rest) "It"
                 || PyStr.startswith (String c rest) "Ger"
                 || PyStr.startswith (String c rest) "Fr")
                && negb (PyStr.str_in (String c rest) AUG_SIXTHS));
        reflexivity.
    + intros Hunsup.
      destruct (strip_annotation_head c rest Hb Hs) as [r Hst].
      exists c, r. split; [exact Hst |].
      rewrite (supported_of_head _ c r Hst HN HG HF) in Hunsup.
      destruct (Ascii.eqb c "I" && PyStr.startswith r "t") eqn:E.
      * left. apply andb_prop in E. destruct E as [Ec Et].
        apply Ascii.eqb_eq in Ec.
        split; [exact Ec |]. split; [exact Et |].
        intros Heq. rewrite Heq in Hunsup. discriminate.
      * destruct (PyStr.chr_in c ["b"; "#"]%char) eqn:Ebs.
        -- right. split.
           ++ apply chr_in_In in Ebs. cbn in Ebs. intuition.
           ++ intros c1 r' ->. intros Hin. apply chr_in_In in Hin.
              congruence.
        -- exfalso. clear -Hc Ebs Hunsup.
           apply chr_in_In in Hc. cbn in Hc.
           assert (Hin : In c ["I"; "i"; "V"; "v"]%char).
           { destruct Hc as [<- | [<- | [<- | [<- | [<- | [<- | []]]]]]];
               cbn; try tauto; discriminate. }
           apply chr_in_In in Hin. congruence.
Qed.

Lemma chord_token_support_witness :
  PyStr.startswith (_skip_reason "It7") "extended Neapolitan" = false.
Proof. apply chord_token_support. reflexivity. Defined.

(** ** Beats of a measure *)



Lemma int_to_float_ok (n : Z) :
  float_int n -> int_to_float n = Returns (inject_Z n).
Proof.
  intros H. unfold int_to_float. apply Z.ltb_lt in H. now rewrite H.
Qed.


Lemma rt_beat_to_abs_returns (r : Q) (m : Z) (beats_pm : Q) (ts_num : Z) :
  ts_num <> 0%Z -> float_int ts_num -> float_int (m - 1) ->
  rt_beat_to_abs r m beats_pm ts_num
  = Returns (inject_Z (m - 1) * beats_pm
             + (r - 1) * (beats_pm / inject_Z ts_num)).
Proof.
  intros Hn Ht Hm. unfold rt_beat_to_abs.
  rewrite (int_to_float_ok _ Ht), (int_to_float_ok _ Hm).
  destruct (ts_num =? 0)%Z eqn:E; [apply Z.eqb_eq in E; contradiction |].
  reflexivity.
Qed.



(** ** Tokens of a measure *)

Lemma split_ws_head (c : ascii) (s : string) :
  PyStr.is_space c = false -> split_ws (String c s) <> [].
Proof.
  intros Hc. cbn [split_ws]. rewrite Hc.
  destruct s as [|c' s']; [discriminate |].
  destruct (PyStr.is_space c'); [discriminate |].
  destruct (split_ws (String c' s')); discriminate.
Qed.

Lemma split_ws_space (sp : ascii) (b : string) :
  PyStr.is_space sp = true -> split_ws (String sp b) = split_ws b.
Proof. intros H. cbn [split_ws]. now rewrite H. Qed.

Lemma split_ws_app (a b : string) (sp : ascii) :
  PyStr.is_space sp = true ->
  split_ws (a ++ String sp b)%string = split_ws a ++ split_ws b.
Proof.
  intros Hsp. induction a as [|c a IH].
  - cbn [append]. now rewrite (split_ws_space sp b Hsp).
  - cbn [append]. cbn [split_ws].
    destruct (PyStr.is_space c) eqn:Hc; [exact IH |].
    destruct a as [|c' a'].
    + cbn [append]. rewrite Hsp.
      now rewrite (split_ws_space sp b Hsp).
    + cbn [append] in *. destruct (PyStr.is_space c') eqn:Hc'.
      * now rewrite IH.
      * rewrite IH. pose proof (split_ws_head c' a' Hc') as Hne.
        destruct (split_ws (String c' a')) as [|w ws]; [congruence |].
        reflexivity.
Qed.

Lemma span_length (p : ascii -> bool) (s a b : string) :
  span p s = (a, b) ->
  String.length s = (String.length a + String.length b)%nat.
Proof.
  revert a b. induction s as [|c s IH]; intros a b H.
  - cbn in H. injection H as <- <-. reflexivity.
  - cbn [span] in H. destruct (p c).
    + destruct (span p s) as [a' b'] eqn:E. injection H as <- <-.
      cbn [String.length]. now rewrite (IH a' b' eq_refl).
    + injection H as <- <-. reflexivity.
Qed.

Lemma lstrip_length (s : string) :
  (String.length (PyStr.lstrip s) <= String.length s)%nat.
Proof.
  induction s as [|c s IH]; [cbn; lia |].
  cbn [PyStr.lstrip]. destruct (PyStr.is_space c); cbn [String.length]; lia.
Qed.

Lemma rstrip_length (s : string) :
  (String.length (PyStr.rstrip s) <= String.length s)%nat.
Proof.
  induction s as [|c s IH]; [cbn; lia |].
  cbn [PyStr.rstrip]. destruct (PyStr.rstrip s) as [|b r].
  - destruct (PyStr.is_space c); cbn [String.length]; lia.
  - cbn [String.length] in *. lia.
Qed.

Lemma strip_length (s : string) :
  (String.length (PyStr.strip s) <= String.length s)%nat.
Proof.
  unfold PyStr.strip. pose proof (rstrip_length (PyStr.lstrip s)).
  pose proof (lstrip_length s). lia.
Qed.

Lemma match_key_prefix_shape (tok k rem : string) :
  match_key_prefix tok = Some (k, rem) ->
  (String.length rem + 2 <= String.length tok)%nat /\
  exists c acc, k = String c acc /\ is_key_letter c = true.
Proof.
  unfold match_key_prefix. destruct tok as [|c rest]; [discriminate |].
  destruct (is_key_letter c) eqn:Hc; [| discriminate].
  destruct (span is_accidental rest) as [acc r1] eqn:Hspan.
  destruct r1 as [|colon r2]; [discriminate |].
  destruct (Ascii.eqb colon ":"); [| discriminate].
  intros H. injection H as <- <-. split.
  - apply span_length in Hspan. cbn [String.length] in *. lia.
  - now exists c, acc.
Qed.

Lemma key_letter_parses (c : ascii) :
  is_key_letter c = true ->
  PyStr.is_space c = false /\
  assoc (chr (PyStr.upper_char c)) PC_TO_SEMI <> None.
Proof.
  destruct c as [[] [] [] [] [] [] [] []]; vm_compute; intros H;
    try discriminate; split; try reflexivity; discriminate.
Qed.

Lemma key_group_parses (c : ascii) (acc : string) :
  is_key_letter c = true ->
  exists key, parse_key_str (String c acc) = Some key /\ valid_key key.
Proof.
  intros Hc. destruct (key_letter_parses c Hc) as [Hs Ha].
  assert (E : exists key, parse_key_str (String c acc) = Some key).
  { unfold parse_key_str, PyStr.strip. cbn [PyStr.lstrip]. rewrite Hs.
    rewrite (rstrip_cons _ _ Hs).
    destruct (assoc (chr (PyStr.upper_char c)) PC_TO_SEMI); [| congruence].
    now eexists. }
  destruct E as [key Hkey]. exists key. split; [exact Hkey |].
  now apply (parse_key_str_semitone_core (String c acc)).
Qed.

Lemma tokenise_token_ok (n : nat) (tok : string) :
  Forall token_ok (tokenise_token n tok).
Proof.
  revert tok. induction n as [|n IH]; intros tok; [constructor |].
  cbn [tokenise_token].
  destruct (String.eqb tok "||"); [repeat constructor |].
  destruct (match_beat tok); [repeat constructor |].
  destruct (match_key_prefix tok) as [[k rem]|] eqn:Hk.
  - constructor.
    + destruct (match_key_prefix_shape _ _ _ Hk) as [_ [c [acc [-> Hc]]]].
      cbn [token_ok]. now apply key_group_parses.
    + destruct (PyStr.strip rem); [constructor | apply IH].
  - destruct (looks_like_chord tok) eqn:Hc; [| constructor].
    constructor; [exact Hc | constructor].
Qed.

Lemma tokenise_token_fuel (n : nat) (tok : string) :
  (String.length tok <= n)%nat ->
  tokenise_token n tok = tokenise_token (String.length tok) tok.
Proof.
  assert (H : forall n m tok,
             (String.length tok <= n)%nat -> (String.length tok <= m)%nat ->
             tokenise_token n tok = tokenise_token m tok).
  { clear. induction n as [|n IH]; intros m tok Hn Hm.
    - destruct tok; [| cbn in Hn; lia]. destruct m; reflexivity.
    - destruct m as [|m].
      + destruct tok; [reflexivity | cbn in Hm; lia].
      + cbn [tokenise_token].
        destruct (String.eqb tok "||"); [reflexivity |].
        destruct (match_beat tok); [reflexivity |].
        destruct (match_key_prefix tok) as [[k rem]|] eqn:Hk; [| reflexivity].
        f_equal. destruct (match_key_prefix_shape _ _ _ Hk) as [Hlen _].
        pose proof (strip_length rem) as Hs.
        destruct (PyStr.strip rem) as [|c r]; [reflexivity |].
        apply IH; lia. }
  intros Hn. apply H; [exact Hn | lia].
Qed.

(** X17: the tokens of two measure bodies joined by a white-space character
    are the tokens of the first followed by the tokens of the second.  Every
    key token carries a key, never [None], whose root spells a pitch class,
    and every chord token is a string that [looks_like_chord] accepts.  The
    remainders that the loop inserts get shorter each time: with as many
    steps as the token has characters, more steps change nothing. *)
Theorem tokenise_measure_spec :
  (forall a b sp,
      PyStr.is_space sp = true ->
      tokenise_measure (a ++ String sp b)%string
      = tokenise_measure a ++ tokenise_measure b) /\
  (forall body, Forall token_ok (tokenise_measure body)) /\
  (forall tok n,
      (String.length tok <= n)%nat ->
      tokenise_token n tok = tokenise_token (String.length tok) tok).
Proof.
  split; [| split].
  - intros a b sp Hsp. unfold tokenise_measure.
    now rewrite (split_ws_app a b sp Hsp), flat_map_app.
  - intros body. unfold tokenise_measure.
    induction (split_ws body) as [|t l IH]; [constructor |].
    cbn [flat_map]. apply Forall_app. split; [apply tokenise_token_ok | exact IH].
  - intros tok n. apply tokenise_token_fuel.
Qed.

(** ** The walk over the tokens of a measure line *)

Lemma measure_range_In (a b mn : Z) :
  In mn (measure_range a b) <-> (a <= mn <= b)%Z.
Proof.
  unfold measure_range. rewrite in_map_iff. split.
  - intros [i [<- Hi]]. apply in_seq in Hi. lia.
  - intros H. exists (Z.to_nat (mn - a)). split; [lia |]. apply in_seq. lia.
Qed.

Lemma measure_range_length (a b : Z) :
  List.length (measure_range a b) = Z.to_nat (b + 1 - a).
Proof. unfold measure_range. now rewrite length_map, length_seq. Qed.

Lemma chord_events_some (ms : list Z) (rt : Q) (bpm : Z -> Q) (ts : Z)
    (val : string) (k : KeyState) :
  ts <> 0%Z -> float_int ts ->
  (forall mn, In mn ms -> float_int (mn - 1)) ->
  exists evs,
    chord_events ms rt bpm ts val k = Returns evs /\
    map measure evs = ms /\
    Forall (fun e => roman e = val /\ key e = k /\
                     rt_beat_to_abs rt (measure e) (bpm (measure e)) ts
                     = Returns (beat e)) evs.
Proof.
  intros Hts Hfl Hms. induction ms as [|mn ms IH].
  - exists []. repeat split. constructor.
  - destruct IH as [evs [E [Hm HF]]];
      [intros x Hx; apply Hms; now right |].
    cbn [chord_events].
    pose proof (rt_beat_to_abs_returns rt mn (bpm mn) ts Hts Hfl
                  (Hms mn (or_introl eq_refl))) as Eab.
    rewrite Eab, E. eexists. split; [reflexivity |].
    split; [cbn [map measure]; now rewrite Hm |].
    constructor; [cbn [roman key measure beat]; auto | exact HF].
Qed.

Lemma measure_range_float (a b mn : Z) :
  float_int (a - 1) -> float_int (b - 1) ->
  In mn (measure_range a b) -> float_int (mn - 1).
Proof.
  unfold float_int. generalize INT_TOO_LARGE. intros L Ha Hb Hin.
  apply measure_range_In in Hin. lia.
Qed.

Lemma line_event_ok_later (a b : Z) (bpm : Z -> Q) (ts : Z) (rt rt' : Q)
    (kh kh' : option KeyState) (tok : token) (rest : list token)
    (e : RawEvent) :
  (rt' = rt \/ tok = TBeat rt') ->
  (kh' = kh \/ tok = TKey kh') ->
  line_event_ok a b bpm ts rt' kh' rest e ->
  line_event_ok a b bpm ts rt kh (tok :: rest) e.
Proof.
  intros Hrt Hkh [Hm [Hc [Hk [r [Hr Hb]]]]].
  split; [exact Hm |]. split; [now right |]. split.
  - destruct Hk as [Hk | Hk]; [| right; now right].
    destruct Hkh as [<- | ->]; [now left | right; left; now rewrite Hk].
  - exists r. split; [| exact Hb].
    destruct Hr as [-> | Hr]; [| right; now right].
    destruct Hrt as [<- | ->]; [now left | right; now left].
Qed.

Lemma walk_tokens_spec (a b : Z) (bpm : Z -> Q) (ts : Z)
    (tokens : list token) :
  ts <> 0%Z -> float_int ts -> float_int (a - 1) -> float_int (b - 1) ->
  forall rt kh events,
  exists rt' new,
    walk_tokens a b bpm ts (rt, kh, events) tokens
    = Returns (rt', last_key kh tokens, events ++ new) /\
    List.length new
    = (keyed_chords (has_key kh) tokens
       * List.length (measure_range a b))%nat /\
    Forall (line_event_ok a b bpm ts rt kh tokens) new.
Proof.
  intros Hts Hfl Hfa Hfb.
  induction tokens as [|tok rest IH]; intros rt kh events.
  - exists rt, []. cbn [walk_tokens last_key keyed_chords].
    rewrite app_nil_r. repeat split. constructor.
  - destruct tok as [|v|v|val].
    + destruct (IH rt kh events) as [rt' [new [E [Hl HF]]]].
      exists rt', new. cbn [walk_tokens walk_step last_key keyed_chords].
      split; [exact E |]. split; [exact Hl |].
      eapply Forall_impl; [| exact HF]. intros e.
      apply line_event_ok_later; now left.
    + destruct (IH v kh events) as [rt' [new [E [Hl HF]]]].
      exists rt', new. cbn [walk_tokens walk_step last_key keyed_chords].
      split; [exact E |]. split; [exact Hl |].
      eapply Forall_impl; [| exact HF]. intros e.
      apply line_event_ok_later; [now right | now left].
    + destruct (IH rt v events) as [rt' [new [E [Hl HF]]]].
      exists rt', new. cbn [walk_tokens walk_step last_key].
      split; [exact E |]. split.
      * rewrite Hl. now destruct v.
      * eapply Forall_impl; [| exact HF]. intros e.
        apply line_event_ok_later; [now left | now right].
    + destruct kh as [k|].
      * destruct (chord_events_some (measure_range a b) rt bpm ts val k Hts
                    Hfl (fun mn => measure_range_float a b mn Hfa Hfb))
          as [evs [Ec [Hm Hev]]].
        destruct (IH rt (Some k) (events ++ evs)) as [rt' [new [E [Hl HF]]]].
        exists rt', (evs ++ new).
        cbn [walk_tokens walk_step last_key keyed_chords has_key].
        rewrite Ec, E, <- app_assoc. split; [reflexivity |]. split.
        -- rewrite length_app, Hl. cbn [has_key].
           rewrite <- Hm, !length_map. cbn [Nat.mul]. reflexivity.
        -- apply Forall_app. split.
           ++ apply Forall_forall. intros e He.
              rewrite Forall_forall in Hev.
              destruct (Hev e He) as [Hr [Hk Hb]].
              split; [| split; [| split]].
              ** apply measure_range_In. rewrite <- Hm.
                 now apply in_map.
              ** left. now rewrite Hr.
              ** left. now rewrite Hk.
              ** exists rt. split; [now left | exact Hb].
           ++ eapply Forall_impl; [| exact HF]. intros e.
              apply line_event_ok_later; now left.
      * destruct (IH rt None events) as [rt' [new [E [Hl HF]]]].
        exists rt', new.
        cbn [walk_tokens walk_step last_key keyed_chords has_key].
        split; [exact E |]. split; [exact Hl |].
        eapply Forall_impl; [| exact HF]. intros e.
        apply line_event_ok_later; now left.
Qed.

Lemma walk_line_core (mstart mend : Z) (bpm_here : Z -> Q) (ts_num : Z)
    (current_key : option KeyState) (events : list RawEvent)
    (tokens : list token) :
  ts_num <> 0%Z -> float_int ts_num ->
  float_int (mstart - 1) -> float_int (mend - 1) ->
  exists new,
    walk_line mstart mend bpm_here ts_num current_key events tokens
    = Returns (events ++ new, last_key current_key tokens) /\
    List.length new
    = (keyed_chords (has_key current_key) tokens
       * List.length (measure_range mstart mend))%nat /\
    Forall (line_event_ok mstart mend bpm_here ts_num 1 current_key tokens)
      new.
Proof.
  intros Hts Hfl Hfa Hfb.
  destruct (walk_tokens_spec mstart mend bpm_here ts_num tokens Hts Hfl Hfa
              Hfb 1 current_key events) as [rt' [new [E H]]].
  exists new. unfold walk_line. rewrite E. now split.
Qed.

Lemma walk_line_raises (mstart mend : Z) (bpm_here : Z -> Q)
    (current_key : KeyState) (events : list RawEvent) (val : string)
    (rest : list token) :
  (mstart <= mend)%Z ->
  walk_line mstart mend bpm_here 0 (Some current_key) events
    (TChord val :: rest)
  = Raises ZeroDivisionError.
Proof.
  intros Hle. unfold walk_line. cbn [walk_tokens walk_step].
  unfold measure_range.
  destruct (Z.to_nat (mend + 1 - mstart)) as [|n] eqn:E; [lia |].
  reflexivity.
Qed.

Lemma last_key_ok (tokens : list token) :
  Forall token_ok tokens ->
  forall kh,
    (forall k, kh = Some k -> valid_key k) ->
    forall k, last_key kh tokens = Some k -> valid_key k.
Proof.
  induction 1 as [|tok rest Htok _ IH]; intros kh Hkh k; [apply Hkh |].
  destruct tok as [|v|v|val]; cbn [last_key]; try (apply IH; exact Hkh).
  apply IH. intros k' ->. destruct Htok as [key [Hv Hk]].
  now injection Hv as ->.
Qed.

Lemma tokenise_measure_ok (body : string) :
  Forall token_ok (tokenise_measure body).
Proof.
  unfold tokenise_measure. apply Forall_flat_map, Forall_forall.
  intros tok _. apply tokenise_token_ok.
Qed.

(** X18: with a numerator that is not 0 and converts to a float, and a
    measure range whose bounds, less one, convert to floats, the walk over
    the tokens of a measure line never raises and only appends events.  It
    appends one event
    per measure of the range for every chord token that stands behind a key
    (the running key or a key token of the line), so none when the range is
    empty or when there is no key yet.  Each new event lies in a measure of
    the range, carries the text of a chord token of the line, the running
    key or the key of a key token of the line, and the absolute beat of beat
    1 or of a beat token of the line in its measure.  The running key after
    the line is that of the last key token, or unchanged if there is none. *)
Theorem walk_line_spec (mstart mend : Z) (bpm_here : Z -> Q) (ts_num : Z)
    (current_key : option KeyState) (events : list RawEvent)
    (tokens : list token) :
  ts_num <> 0%Z -> float_int ts_num ->
  float_int (mstart - 1) -> float_int (mend - 1) ->
  exists new,
    walk_line mstart mend bpm_here ts_num current_key events tokens
    = Returns (events ++ new, last_key current_key tokens) /\
    List.length new
    = (keyed_chords (has_key current_key) tokens
       * Z.to_nat (mend + 1 - mstart))%nat /\
    Forall (line_event_ok mstart mend bpm_here ts_num 1 current_key tokens)
      new /\
    (current_key = None ->
     (forall k, ~ In (TKey (Some k)) tokens) -> new = []) /\
    (forall pre post k,
        tokens = pre ++ TKey k :: post ->
        (forall k', ~ In (TKey k') post) ->
        last_key current_key tokens = k) /\
    ((forall k, ~ In (TKey k) tokens) ->
     last_key current_key tokens = current_key).
Proof.
  intros Hts Hfl Hfa Hfb.
  destruct (walk_line_core mstart mend bpm_here ts_num current_key events
              tokens Hts Hfl Hfa Hfb) as [new [E [Hl HF]]].
  exists new. split; [exact E |].
  split; [now rewrite Hl, measure_range_length |].
  split; [exact HF |].
  assert (Hnone : forall toks kh,
             (forall k, ~ In (TKey k) toks) -> last_key kh toks = kh).
  { induction toks as [|t toks IHt]; intros kh Hno; [reflexivity |].
    destruct t as [|v|v|val]; cbn [last_key];
      try (apply IHt; intros k Hk; apply (Hno k); now right).
    exfalso. apply (Hno v). now left. }
  split; [| split].
  - intros Hck Hno. destruct new as [|e new']; [reflexivity |].
    exfalso. inversion HF as [|e' l' [_ [_ [[Hk | Hk] _]]] _]; subst.
    + discriminate.
    + exact (Hno _ Hk).
  - intros pre post k -> Hno. clear E Hl HF.
    revert current_key. induction pre as [|t pre IHp]; intros current_key.
    + cbn [app last_key]. now apply Hnone.
    + destruct t as [|v|v|val]; cbn [app last_key]; apply IHp.
  - apply Hnone.
Qed.

Lemma walk_line_spec_witness :
  exists new,
    walk_line 3 4 (fun _ => 4) 4 None [] [TChord "I"; TKey (Some CMajor);
                                         TBeat 3; TChord "V"]
    = Returns ([] ++ new, Some CMajor) /\ List.length new = 2%nat.
Proof.
  destruct (walk_line_spec 3 4 (fun _ => 4) 4 None []
              [TChord "I"; TKey (Some CMajor); TBeat 3; TChord "V"])
    as [new [E [Hl _]]];
    [discriminate | reflexivity | reflexivity | reflexivity |].
  exists new. split; [exact E | exact Hl].
Defined.

(** X19: the walk over the tokens that [tokenise_measure] gives for a measure
    body keeps the invariants of the parser loop.  With a numerator that is
    not 0 and converts to a float, and a measure range whose bounds, less
    one, convert to floats, it never raises; if the running key is absent or
    spells a pitch
    class, and the key of every event so far spells a pitch class, the same
    holds of the running key and of the events after the line; a running key
    is never lost; and every event that is new carries a token that
    [looks_like_chord] accepts. *)
Theorem walk_line_keys_valid (mstart mend : Z) (bpm_here : Z -> Q)
    (ts_num : Z) (current_key : option KeyState) (events : list RawEvent)
    (body : string) :
  ts_num <> 0%Z -> float_int ts_num ->
  float_int (mstart - 1) -> float_int (mend - 1) ->
  (forall k, current_key = Some k -> valid_key k) ->
  (forall e, In e events -> valid_key (key e)) ->
  exists events' key',
    walk_line mstart mend bpm_here ts_num current_key events
      (tokenise_measure body) = Returns (events', key') /\
    (forall k, key' = Some k -> valid_key k) /\
    (current_key <> None -> key' <> None) /\
    (forall e, In e events' -> valid_key (key e)) /\
    (forall e, In e events' ->
               In e events \/ looks_like_chord (roman e) = true).
Proof.
  intros Hts Hfl Hfa Hfb Hck Hev.
  pose proof (tokenise_measure_ok body) as Htok.
  destruct (walk_line_core mstart mend bpm_here ts_num current_key events
              (tokenise_measure body) Hts Hfl Hfa Hfb) as [new [E [_ HF]]].
  rewrite Forall_forall in HF.
  exists (events ++ new), (last_key current_key (tokenise_measure body)).
  split; [exact E |]. split; [| split; [| split]].
  - now apply last_key_ok.
  - clear E HF Hck. revert current_key.
    induction Htok as [|tok rest Ht _ IH]; intros current_key Hne;
      [exact Hne |].
    destruct tok as [|v|v|val]; cbn [last_key]; try (apply IH; exact Hne).
    destruct Ht as [key [-> _]]. apply IH. discriminate.
  - intros e He. apply in_app_or in He. destruct He as [He | He];
      [now apply Hev |].
    destruct (HF e He) as [_ [_ [[Hk | Hk] _]]].
    + now apply Hck.
    + rewrite Forall_forall in Htok.
      destruct (Htok _ Hk) as [key [Hv Hvk]]. now injection Hv as ->.
  - intros e He. apply in_app_or in He. destruct He as [He | He];
      [now left | right].
    destruct (HF e He) as [_ [Hc _]].
    rewrite Forall_forall in Htok. exact (Htok _ Hc).
Qed.

Lemma walk_line_keys_valid_witness :
  exists events' key',
    walk_line 1 1 (fun _ => 4) 4 None [] (tokenise_measure "C: I b3 V")
    = Returns (events', key') /\
    (forall e, In e events' -> valid_key (key e)).
Proof.
  destruct (walk_line_keys_valid 1 1 (fun _ => 4) 4 None []
              "C: I b3 V")
    as [ev [k [E [_ [_ [H _]]]]]].
  - discriminate.
  - reflexivity.
  - reflexivity.
  - reflexivity.
  - intros k Hk. discriminate Hk.
  - intros e [].
  - exists ev, k. split; [exact E | exact H].
Defined.

(** ** Ribbon generator: the sparse grid lines *)

Module RibbonGridFacts.
Import Ribbon RibbonGrid.
Section Grid.

Variable np_pi : Q.
Variables np_cos np_sin np_sqrt : Q -> Q.
Variable np_arctan2 : Q -> Q -> Q.

Local Abbreviation gp := (grid_point np_pi np_cos np_sin).
Local Abbreviation hid := (hidden_at np_pi np_cos np_sin).
Local Abbreviation mrun := (maximal_run np_pi np_cos np_sin).
Local Abbreviation cstep := (circ_step np_pi np_cos np_sin np_sqrt np_arctan2).
Local Abbreviation astep := (axial_step np_pi np_cos np_sin np_sqrt np_arctan2).
Local Abbreviation cpoly :=
  (circ_polyline np_pi np_cos np_sin np_sqrt np_arctan2).
Local Abbreviation apoly :=
  (axial_polyline np_pi np_cos np_sin np_sqrt np_arctan2).
Local Abbreviation crow := (circ_row np_pi np_cos np_sin np_sqrt np_arctan2).
Local Abbreviation acol := (axial_col np_pi np_cos np_sin np_sqrt np_arctan2).
Local Abbreviation the_grid_lines :=
  (grid_lines np_pi np_cos np_sin np_sqrt np_arctan2).

Lemma hidden_row (i j : nat) : hidden (gp i j) = hid j.
Proof. reflexivity. Qed.

Lemma circ_fold (i : nat) (post : list nat) :
  forall cur plots,
    flush (fold_left (cstep i) post
             (fst (cpoly i cur), snd (cpoly i cur), plots))
    = plots ++ map (cpoly i) (runs_from hid cur post).
Proof.
  induction post as [|j post IH]; intros cur plots.
  - cbn [fold_left runs_from]. destruct cur as [|c cur].
    + cbn [circ_polyline map fst snd flush]. now rewrite app_nil_r.
    + reflexivity.
  - cbn [fold_left runs_from]. unfold circ_step at 2.
    cbn [circ_polyline fst snd]. rewrite hidden_row.
    destruct (hid j) eqn:Hj.
    + destruct cur as [|c cur].
      * cbn [map]. exact (IH [] plots).
      * pose proof (IH [] (plots ++ [cpoly i (c :: cur)])) as H.
        rewrite <- app_assoc in H. exact H.
    + pose proof (IH (cur ++ [j]) plots) as H.
      unfold circ_polyline in H at 1 2. cbn [fst snd] in H.
      rewrite !map_app in H. cbn [map] in H.
      destruct (project np_pi np_sqrt np_arctan2 (gp i j)) as [px py].
      exact H.
Qed.

Lemma runs_from_spec (js post : list nat) :
  forall cur pre0,
    js = pre0 ++ cur ++ post ->
    Forall (fun j => hid j = false) cur ->
    (pre0 = [] \/ exists l h, pre0 = l ++ [h] /\ hid h = true) ->
    Forall (mrun js) (runs_from hid cur post) /\
    List.concat (runs_from hid cur post)
    = cur ++ filter (fun j => negb (hid j)) post.
Proof.
  induction post as [|j post IH]; intros cur pre0 Hjs Hvis Hpre.
  - cbn [runs_from filter]. destruct cur as [|c cur].
    + split; [constructor | reflexivity].
    + split; [| reflexivity]. constructor; [| constructor].
      split; [discriminate |]. split; [exact Hvis |].
      exists pre0, []. split; [exact Hjs |]. split; [exact Hpre | now left].
  - cbn [runs_from filter]. destruct (hid j) eqn:Hj; cbn [negb].
    + assert (Hnext : forall l, js = (l ++ [j]) ++ [] ++ post ->
                Forall (mrun js) (runs_from hid [] post) /\
                List.concat (runs_from hid [] post)
                = filter (fun j => negb (hid j)) post).
      { intros l Hl. apply (IH [] (l ++ [j]) Hl); [constructor |].
        right. now exists l, j. }
      destruct cur as [|c cur].
      * apply (Hnext pre0). rewrite Hjs. cbn [app].
        now rewrite <- app_assoc.
      * destruct (Hnext (pre0 ++ c :: cur)) as [HF Hc].
        { rewrite Hjs. cbn [app]. rewrite <- !app_assoc. reflexivity. }
        split.
        -- constructor; [| exact HF].
           split; [discriminate |]. split; [exact Hvis |].
           exists pre0, (j :: post). split; [exact Hjs |].
           split; [exact Hpre |]. right. now exists j, post.
        -- cbn [List.concat]. now rewrite Hc.
    + destruct (IH (cur ++ [j]) pre0) as [HF Hc].
      * rewrite Hjs, <- (app_assoc cur). reflexivity.
      * apply Forall_app. split; [exact Hvis |]. now constructor.
      * exact Hpre.
      * split; [exact HF |]. rewrite Hc, <- app_assoc. reflexivity.
Qed.

Lemma circ_row_core :
  exists runs,
    Forall (mrun (seq 0 n_theta)) runs /\
    List.concat runs = filter (fun j => negb (hid j)) (seq 0 n_theta) /\
    forall plots i, crow plots i = plots ++ map (cpoly i) runs.
Proof.
  exists (runs_from hid [] (seq 0 n_theta)). unfold circ_row.
  generalize (seq 0 n_theta). intros js.
  destruct (runs_from_spec js js [] []) as [HF Hc];
    [reflexivity | constructor | now left |].
  split; [exact HF |]. split; [exact Hc |].
  intros plots i. exact (circ_fold i js [] plots).
Qed.

Lemma axial_fold (j : nat) (rows : list nat) :
  forall px py,
    fold_left (astep j) rows (px, py)
    = if hid j then (px, py)
      else (px ++ fst (apoly j rows), py ++ snd (apoly j rows)).
Proof.
  destruct (hid j) eqn:Hj; induction rows as [|i rows IH]; intros px py;
    cbn [fold_left axial_polyline map fst snd].
  - reflexivity.
  - unfold axial_step at 2. rewrite hidden_row, Hj. apply IH.
  - now rewrite !app_nil_r.
  - unfold axial_step at 2. rewrite hidden_row, Hj.
    destruct (project np_pi np_sqrt np_arctan2 (gp i j)) as [x y] eqn:E.
    rewrite IH. cbn [axial_polyline fst snd].
    now rewrite <- !app_assoc.
Qed.

Lemma axial_col_core (plots : list polyline) (j : nat) :
  acol plots j
  = if hid j then plots else plots ++ [apoly j (seq 0 n_x)].
Proof.
  unfold axial_col. rewrite axial_fold. destruct (hid j); [reflexivity |].
  assert (H : seq 0 n_x <> []) by discriminate.
  destruct (seq 0 n_x) as [|i rows]; [contradiction | reflexivity].
Qed.

Lemma fold_left_appends {A B : Type} (f : list B -> A -> list B)
    (g : A -> list B) (l : list A) :
  (forall acc a, f acc a = acc ++ g a) ->
  forall acc, fold_left f l acc = acc ++ flat_map g l.
Proof.
  intros H. induction l as [|a l IH]; intros acc; cbn [fold_left flat_map].
  - now rewrite app_nil_r.
  - now rewrite IH, H, <- app_assoc.
Qed.

(** X20: the plot calls of a circumferential grid line.  A point is hidden
    or not by its index around the cylinder alone, whatever the line.  One
    round of the loop only appends calls, and the polylines it appends are
    those of the maximal runs of consecutive indices that are not hidden, in
    order and the same runs for every line: no polyline is empty, none
    contains a hidden point or bridges one, and every point that is not
    hidden is on exactly the polyline of its run. *)
Theorem circ_row_spec :
  (forall i j, hidden (gp i j) = hid j) /\
  exists runs,
    Forall (mrun (seq 0 n_theta)) runs /\
    List.concat runs = filter (fun j => negb (hid j)) (seq 0 n_theta) /\
    forall plots i, crow plots i = plots ++ map (cpoly i) runs.
Proof. split; [exact hidden_row | exact circ_row_core]. Qed.

(** X21: an axial grid line is drawn in full or not at all.  One round of
    the loop makes no plot call when the points of its index around the
    cylinder are hidden, and otherwise one call with the projections of all
    [n_x] points of the line, in order. *)
Theorem axial_col_spec (plots : list polyline) (j : nat) :
  acol plots j
  = if hid j then plots else plots ++ [apoly j (seq 0 n_x)].
Proof. exact (axial_col_core plots j). Qed.

(** X22: the overlay as a whole.  The plot calls are those of the
    circumferential lines 0, 5, 10 and 15 followed by those of the axial
    lines 0, 20, ..., 280, each round computed on its own; there are at most
    15 calls for axial lines; and no call is given an empty list or
    coordinate lists of different lengths. *)
Theorem grid_lines_spec :
  range_step n_x x_grid_step = [0; 5; 10; 15]%nat /\
  range_step n_theta theta_grid_step = map (fun k => (20 * k)%nat) (seq 0 15) /\
  the_grid_lines
  = flat_map (crow []) (range_step n_x x_grid_step)
    ++ flat_map (acol []) (range_step n_theta theta_grid_step) /\
  (List.length (flat_map (acol []) (range_step n_theta theta_grid_step))
   <= 15)%nat /\
  Forall (fun pl : polyline =>
            fst pl <> [] /\ List.length (fst pl) = List.length (snd pl))
    the_grid_lines.
Proof.
  destruct circ_row_core as [runs [HF [_ Hrow]]].
  assert (Hc : forall acc i, crow acc i = acc ++ crow [] i).
  { intros acc i. now rewrite (Hrow acc i), (Hrow [] i). }
  assert (Ha : forall acc j, acol acc j = acc ++ acol [] j).
  { intros acc j. rewrite (axial_col_core acc j), (axial_col_core [] j).
    destruct (hid j); [now rewrite app_nil_r | reflexivity]. }
  assert (Hgrid : the_grid_lines
                  = flat_map (crow []) (range_step n_x x_grid_step)
                    ++ flat_map (acol []) (range_step n_theta theta_grid_step)).
  { unfold grid_lines.
    rewrite (fold_left_appends _ (acol []) _ Ha).
    now rewrite (fold_left_appends _ (crow []) _ Hc). }
  split; [reflexivity |]. split; [reflexivity |]. split; [exact Hgrid |].
  split.
  - assert (Hlen : forall l, (List.length (flat_map (acol []) l)
                              <= List.length l)%nat).
    { induction l as [|j l IH]; [apply le_n |].
      cbn [flat_map]. rewrite length_app, (axial_col_core [] j).
      destruct (hid j); cbn [List.length app]; lia. }
    etransitivity; [apply Hlen |].
    unfold range_step. rewrite length_map, length_seq. apply le_n.
  - rewrite Hgrid. apply Forall_app. split; apply Forall_flat_map, Forall_forall.
    + intros i _. rewrite (Hrow [] i). cbn [app].
      apply Forall_forall. intros pl Hpl. apply in_map_iff in Hpl.
      destruct Hpl as [r [<- Hr]]. rewrite Forall_forall in HF.
      destruct (HF r Hr) as [Hne _]. cbn [circ_polyline fst snd].
      split; [| now rewrite !length_map].
      destruct r; [contradiction | discriminate].
    + intros j _. rewrite (axial_col_core [] j).
      destruct (hid j); [constructor |]. cbn [app].
      constructor; [| constructor]. cbn [axial_polyline fst snd].
      split; [| now rewrite !length_map].
      assert (H : seq 0 n_x <> []) by discriminate.
      destruct (seq 0 n_x); [contradiction | discriminate].
Qed.

End Grid.
End RibbonGridFacts.

(** ** Time signatures *)

Lemma digits_value_nonneg (s : string) (acc : Z) :
  (0 <= acc)%Z -> (0 <= digits_value acc s)%Z.
Proof.
  revert acc. induction s as [|c s IH]; intros acc H; [exact H |].
  cbn [digits_value]. apply IH. lia.
Qed.

Lemma digit_not_space (c : ascii) :
  is_digit c = true -> PyStr.is_space c = false.
Proof.
  destruct c as [[] [] [] [] [] [] [] []]; vm_compute; congruence.
Qed.

Lemma span_digits (a tail : string) :
  all_digits a = true -> no_digit_head tail = true ->
  span is_digit (a ++ tail) = (a, tail).
Proof.
  intros Ha Ht. induction a as [|c a IH].
  - cbn [String.append]. destruct tail as [|t tail]; [reflexivity |].
    cbn [span]. cbn [no_digit_head] in Ht.
    now destruct (is_digit t).
  - cbn [all_digits] in Ha. apply andb_prop in Ha. destruct Ha as [Hc Ha].
    cbn [String.append span]. now rewrite Hc, (IH Ha).
Qed.

Lemma rstrip_digits (a tail : string) :
  all_digits a = true ->
  PyStr.rstrip (a ++ tail) = (a ++ PyStr.rstrip tail)%string.
Proof.
  intros Ha. induction a as [|c a IH]; [reflexivity |].
  cbn [all_digits] in Ha. apply andb_prop in Ha. destruct Ha as [Hc Ha].
  change (String c a ++ tail)%string with (String c (a ++ tail)).
  rewrite (rstrip_cons c _ (digit_not_space c Hc)), (IH Ha). reflexivity.
Qed.

Lemma no_digit_head_rstrip (tail : string) :
  no_digit_head tail = true -> no_digit_head (PyStr.rstrip tail) = true.
Proof.
  intros H. destruct (PyStr.rstrip tail) as [|c r] eqn:E; [reflexivity |].
  destruct (rstrip_head _ _ _ E) as [s' ->]. exact H.
Qed.

(** X23: [parse_time_sig] never returns a negative number.  It returns
    (4, 4) when the stripped string is empty or does not start with a digit.
    For a string that starts with digits, a slash and digits, and does not go
    on with a digit, it returns the values of the two digit strings, whatever
    follows. *)
Theorem parse_time_sig_spec :
  (forall s, (0 <= fst (parse_time_sig s))%Z /\
             (0 <= snd (parse_time_sig s))%Z) /\
  (forall s, no_digit_head (PyStr.strip s) = true ->
             parse_time_sig s = (4, 4)%Z) /\
  (forall c a d b tail,
      all_digits (String c a) = true -> all_digits (String d b) = true ->
      no_digit_head tail = true ->
      parse_time_sig (String c a ++ "/" ++ String d b ++ tail)
      = (digits_value 0 (String c a), digits_value 0 (String d b))).
Proof.
  split; [| split].
  - intros s. unfold parse_time_sig.
    destruct (span is_digit (PyStr.strip s)) as [d1 r1].
    destruct d1 as [|c1 d1]; [cbn; lia |].
    destruct r1 as [|slash r2]; [cbn; lia |].
    destruct (Ascii.eqb slash "/"); [| cbn; lia].
    destruct (span is_digit r2) as [d2 r3].
    destruct d2 as [|c2 d2]; [cbn; lia |].
    cbn [fst snd]. split; apply digits_value_nonneg; lia.
  - intros s H. unfold parse_time_sig.
    destruct (PyStr.strip s) as [|c r]; [reflexivity |].
    cbn [no_digit_head] in H. cbn [span].
    destruct (is_digit c); [discriminate | reflexivity].
  - intros c a d b tail Ha Hb Ht. unfold parse_time_sig.
    assert (Hc : PyStr.is_space c = false).
    { cbn [all_digits] in Ha. apply andb_prop in Ha.
      now apply digit_not_space. }
    assert (Hs : PyStr.strip (String c a ++ "/" ++ String d b ++ tail)
                 = (String c a ++ "/" ++ String d b ++ PyStr.rstrip tail)
                     %string).
    { unfold PyStr.strip.
      change (String c a ++ "/" ++ String d b ++ tail)%string
        with (String c (a ++ "/" ++ String d b ++ tail)).
      cbn [PyStr.lstrip]. rewrite Hc.
      change (String c (a ++ "/" ++ String d b ++ tail))
        with (String c a ++ String "/" (String d b ++ tail))%string.
      rewrite (rstrip_digits _ _ Ha).
      rewrite (rstrip_cons "/" _ eq_refl).
      now rewrite (rstrip_digits _ _ Hb). }
    rewrite Hs.
    rewrite (span_digits (String c a)
               ("/" ++ String d b ++ PyStr.rstrip tail) Ha eq_refl).
    cbn [String.append Ascii.eqb Bool.eqb].
    change (String d (b ++ PyStr.rstrip tail))
      with (String d b ++ PyStr.rstrip tail)%string.
    rewrite (span_digits (String d b) _ Hb (no_digit_head_rstrip _ Ht)).
    reflexivity.
Qed.



(** ** Applied chords: the split of a chord symbol *)

Lemma supported_no_leading_slash (rest : string) :
  is_supported_roman (String "/" rest) = false.
Proof.
  destruct (strip_annotation_head "/" rest eq_refl eq_refl) as [r Hr].
  rewrite is_supported_roman_strip, Hr. reflexivity.
Qed.

Lemma chord_symbol_delimiter (roman : string) (idx : nat) :
  chord_symbol roman -> delimiter_at roman idx -> (1 <= idx)%nat.
Proof.
  intros Hc [Hat _]. destruct idx as [|idx]; [| lia].
  destruct roman as [|c rest]; [discriminate |].
  cbn in Hat. injection Hat as ->. destruct Hc as [Hc | Hc].
  - cbn in Hc. discriminate.
  - rewrite supported_no_leading_slash in Hc. discriminate.
Qed.

Lemma take_length (s : string) (idx : nat) :
  (idx <= String.length s)%nat -> String.length (PyStr.take idx s) = idx.
Proof.
  revert idx. induction s as [|a s IH]; intros idx H.
  - cbn in H. destruct idx; [reflexivity | lia].
  - destruct idx as [|idx]; [reflexivity |].
    cbn [PyStr.take String.length]. f_equal. apply IH. cbn in H. lia.
Qed.

(** C1: for every chord symbol and key, [resolve_applied] splits the symbol
    at the rightmost ['/'] that is immediately followed by one of I i V v b
    #: the part before that ['/'] is the chord part and the tonicization of
    the part after it is the resolved key.  When the symbol holds no such
    ['/'], the symbol and the key are returned unchanged.  [V7/V] in C major
    gives [V7] in G major, and [ii6/5] is returned unchanged with C major. *)
Theorem resolve_applied_spec (roman : string) (key : KeyState) :
  chord_symbol roman ->
  (forall idx,
      rightmost_delimiter 0 roman idx ->
      exists chord_part target_part,
        roman = (chord_part ++ String "/" target_part)%string /\
        String.length chord_part = idx /\
        resolve_applied roman key
        = (new_key <- tonicize key target_part ;; Ok (chord_part, new_key))) /\
  ((forall idx, ~ delimiter_at roman idx) ->
   resolve_applied roman key = Ok (roman, key)) /\
  resolve_applied "V7/V" CMajor = Ok ("V7", mkKey "G" "major") /\
  resolve_applied "ii6/5" CMajor = Ok ("ii6/5", CMajor).
Proof.
  intros Hc.
  destruct (resolve_applied_scan roman key) as [Hsplit Hnone].
  split; [| split; [| split; reflexivity]].
  - intros idx [_ [Hat Hright]].
    pose proof (chord_symbol_delimiter roman idx Hc Hat) as Hidx.
    exists (PyStr.take idx roman), (PyStr.drop (idx + 1) roman).
    split; [apply take_drop_at; exact (proj1 Hat) |].
    split.
    + apply take_length. destruct Hat as [Hat _].
      apply get_some_lt in Hat. lia.
    + apply (Hsplit idx). split; [exact Hidx | split; assumption].
  - intros Hno. apply Hnone. intros idx _. apply Hno.
Qed.

Lemma resolve_applied_spec_witness :
  chord_symbol "V7/V" /\
  exists chord_part target_part,
    "V7/V"%string = (chord_part ++ String "/" target_part)%string /\
    String.length chord_part = 2%nat /\
    resolve_applied "V7/V" CMajor
    = (new_key <- tonicize CMajor target_part ;; Ok (chord_part, new_key)).
Proof.
  assert (Hc : chord_symbol "V7/V") by (left; reflexivity).
  split; [exact Hc |].
  apply (proj1 (resolve_applied_spec "V7/V" CMajor Hc) 2%nat).
  split; [lia | split].
  - split; [reflexivity |]. exists "V"%char. split; [reflexivity |].
    cbn. tauto.
  - intros j Hj [Hat _].
    destruct j as [|[|[|[|j]]]]; try lia; discriminate.
Defined.
